(** * authzgen: lexer, parser, semantic extraction and code generation

    A shallow embedding of the schema compiler of [pkg/authzgen]
    ([lexer.go], [parser.go] and the generator), with the properties of its
    specification stated and proved over the embedding, followed by
    further properties of the code; the command [cmd/authz-codegen] and
    the validation errors of [internal/shared] are embedded for these.

    Conventions.
    - A Go [string] is a sequence of bytes: the lexer input is a
      [list ascii], token literals and names are [string]s.
    - Go [int] fields that only ever index the input ([position],
      [readPosition], [current]) are [nat]; line and column counters are
      [Z], because the source subtracts from them.
    - Every Go [for] loop is a structurally recursive function on a fuel
      argument that returns [None] when the fuel runs out; the functions
      with the source's names pass a fuel computed from the input length,
      and the development proves that this fuel always suffices.
    - The parser's calls of the process-wide [slog] logger have no effect
      on what it returns and are left out; the records the generator sends
      to [g.logger] are kept, without their attributes. *)

From Stdlib Require Import List String Ascii Bool Arith ZArith NArith Lia.
From Stdlib Require Import Permutation Sorted OrdersEx RelationClasses.
From Stdlib Require Import DecimalString.
Import ListNotations.

Local Open Scope string_scope.
Local Open Scope list_scope.

(* ################################################################## *)
(** * Part I: the program and the notions of the specification *)
(* ################################################################## *)

(* ================================================================== *)
(** * Small utilities *)
(* ================================================================== *)

Definition obind {A B : Type} (m : option A) (k : A -> option B) : option B :=
  match m with
  | Some a => k a
  | None => None
  end.

Notation "x <-- m ;; k" := (obind m (fun x => k))
  (at level 61, m at next level, right associativity).

(** The NUL byte, the lexer's end-of-input sentinel. *)
Definition NUL : ascii := Ascii.zero.

(** ['\n'], ['\t'], ['\r']. *)
Definition LF : ascii := ascii_of_nat 10.
Definition TAB : ascii := ascii_of_nat 9.
Definition CR : ascii := ascii_of_nat 13.

(** Go's conversion [string(b)] of a byte [b]: the UTF-8 encoding of the
    code point whose number is [b], one byte below 0x80 and two bytes from
    0x80 on. *)
Definition string_of_byte (c : ascii) : string :=
  let n := N_of_ascii c in
  if (n <? 128)%N then String c EmptyString
  else String (ascii_of_N (192 + n / 64))
         (String (ascii_of_N (128 + n mod 64)) EmptyString).

(** The slice expression [s[a:b]]. *)
Definition slice (s : list ascii) (a b : nat) : string :=
  string_of_list_ascii (firstn (b - a) (skipn a s)).

(* ================================================================== *)
(** * lexer.go *)
(* ================================================================== *)

Inductive TokenType : Type :=
| ILLEGAL | EOF | IDENTIFIER | DEFINITION | RELATION | PERMISSION
| EQUAL | PLUS | MINUS | PIPE | WILDCARD | LBRACE | RBRACE | COLON
| SLASH | HASH | MINUS_ARROW.

Definition TokenType_eqb (a b : TokenType) : bool :=
  match a, b with
  | ILLEGAL, ILLEGAL | EOF, EOF | IDENTIFIER, IDENTIFIER
  | DEFINITION, DEFINITION | RELATION, RELATION | PERMISSION, PERMISSION
  | EQUAL, EQUAL | PLUS, PLUS | MINUS, MINUS | PIPE, PIPE
  | WILDCARD, WILDCARD | LBRACE, LBRACE | RBRACE, RBRACE | COLON, COLON
  | SLASH, SLASH | HASH, HASH | MINUS_ARROW, MINUS_ARROW => true
  | _, _ => false
  end.

(** The [keywords] map. *)
Definition keywords (ident : string) : option TokenType :=
  if String.eqb ident "definition" then Some DEFINITION
  else if String.eqb ident "relation" then Some RELATION
  else if String.eqb ident "permission" then Some PERMISSION
  else None.

Record Token : Type := mkToken {
  Type_ : TokenType;
  Literal : string;
  Line : Z;
  Position : Z
}.

Record Lexer : Type := mkLexer {
  input : list ascii;
  position : nat;
  readPosition : nat;
  ch : ascii;
  line : Z;
  linePosition : Z
}.

Definition readChar (l : Lexer) : Lexer :=
  let c := if (List.length (input l) <=? readPosition l)%nat then NUL
           else nth (readPosition l) (input l) NUL in
  {| input := input l;
     position := readPosition l;
     readPosition := S (readPosition l);
     ch := c;
     line := if Ascii.eqb c LF then (line l + 1)%Z else line l;
     linePosition := if Ascii.eqb c LF then 0%Z else (linePosition l + 1)%Z |}.

Definition NewLexer (s : string) : Lexer :=
  readChar {| input := list_ascii_of_string s; position := 0;
              readPosition := 0; ch := NUL; line := 1; linePosition := 0 |}.

Definition peekChar (l : Lexer) : ascii :=
  if (List.length (input l) <=? readPosition l)%nat then NUL
  else nth (readPosition l) (input l) NUL.

(** The loop shape shared by [skipWhitespace], [skipComment] and
    [readIdentifier]: [for cond(l.ch) { l.readChar() }]. *)
Fixpoint readCharWhile (cond : ascii -> bool) (fuel : nat) (l : Lexer)
  : option Lexer :=
  if cond (ch l) then
    match fuel with
    | 0 => None
    | S fuel' => readCharWhile cond fuel' (readChar l)
    end
  else Some l.

(** Iterations any of these loops can need: one per input byte. *)
Definition scanFuel (l : Lexer) : nat := S (List.length (input l)).

Definition isWhitespace (c : ascii) : bool :=
  Ascii.eqb c " " || Ascii.eqb c TAB || Ascii.eqb c LF || Ascii.eqb c CR.

Definition skipWhitespace (l : Lexer) : option Lexer :=
  readCharWhile isWhitespace (scanFuel l) l.

Definition atComment (l : Lexer) : bool :=
  Ascii.eqb (ch l) "/" && Ascii.eqb (peekChar l) "/".

Definition inComment (c : ascii) : bool :=
  negb (Ascii.eqb c LF) && negb (Ascii.eqb c NUL).

Definition skipComment (l : Lexer) : option Lexer :=
  if atComment l then readCharWhile inComment (scanFuel l) l else Some l.

Definition isLetter (c : ascii) : bool :=
  let n := N_of_ascii c in
  ((97 <=? n) && (n <=? 122) || (65 <=? n) && (n <=? 90))%N.

Definition isDigit (c : ascii) : bool :=
  let n := N_of_ascii c in ((48 <=? n) && (n <=? 57))%N.

Definition isIdentChar (c : ascii) : bool :=
  isLetter c || isDigit c || Ascii.eqb c "_".

Definition readIdentifier (l : Lexer) : option (string * Lexer) :=
  l' <-- readCharWhile isIdentChar (scanFuel l) l ;;
  Some (slice (input l) (position l) (position l'), l').

Definition lookupIdent (ident : string) : TokenType :=
  match keywords ident with
  | Some tok => tok
  | None => IDENTIFIER
  end.

(** [Token{Type: t, Literal: string(l.ch), Line: l.line, Position:
    l.linePosition}], the literal of every single-character case. *)
Definition charToken (t : TokenType) (l : Lexer) : Token :=
  {| Type_ := t; Literal := string_of_byte (ch l);
     Line := line l; Position := linePosition l |}.

(** The [for] loop at the head of [NextToken]:
    [if l.ch == '/' && l.peekChar() == '/' { skipComment; skipWhitespace;
    continue }; break]. *)
Fixpoint skipComments (fuel : nat) (l : Lexer) : option Lexer :=
  if atComment l then
    match fuel with
    | 0 => None
    | S fuel' =>
        l <-- skipComment l ;;
        l <-- skipWhitespace l ;;
        skipComments fuel' l
    end
  else Some l.

(** The [switch l.ch] of [NextToken] with what follows it; [recur] is
    the recursive call [l.NextToken()] of the ['/'] case. *)
Definition switchToken (recur : Lexer -> option (Token * Lexer)) (l : Lexer)
  : option (Token * Lexer) :=
  let single t := Some (charToken t l, readChar l) in
  if Ascii.eqb (ch l) "=" then single EQUAL
  else if Ascii.eqb (ch l) "+" then single PLUS
  else if Ascii.eqb (ch l) "|" then single PIPE
  else if Ascii.eqb (ch l) "*" then single WILDCARD
  else if Ascii.eqb (ch l) "{" then single LBRACE
  else if Ascii.eqb (ch l) "}" then single RBRACE
  else if Ascii.eqb (ch l) ":" then single COLON
  else if Ascii.eqb (ch l) "/" then
    if Ascii.eqb (peekChar l) "/" then
      l <-- skipComment l ;;
      l <-- skipWhitespace l ;;
      recur l
    else single SLASH
  else if Ascii.eqb (ch l) "#" then single HASH
  else if Ascii.eqb (ch l) "-" then
    if Ascii.eqb (peekChar l) ">" then
      let c := ch l in
      let l := readChar l in
      let literal := (string_of_byte c ++ string_of_byte (ch l))%string in
      Some ({| Type_ := MINUS_ARROW; Literal := literal; Line := line l;
               Position := (linePosition l - 1)%Z |}, readChar l)
    else single MINUS
  else if Ascii.eqb (ch l) NUL then
    Some ({| Type_ := EOF; Literal := ""; Line := line l;
             Position := linePosition l |}, readChar l)
  else if isLetter (ch l) then
    r <-- readIdentifier l ;;
    let '(lit, l) := r in
    Some ({| Type_ := lookupIdent lit; Literal := lit; Line := line l;
             Position := (linePosition l - Z.of_nat (String.length lit))%Z |},
          l)
  else single ILLEGAL.

(** [NextToken]; the fuel bounds the depth of the recursive call. *)
Fixpoint NextToken_fuel (fuel : nat) (l : Lexer) : option (Token * Lexer) :=
  l <-- skipWhitespace l ;;
  l <-- skipComments (scanFuel l) l ;;
  switchToken
    (match fuel with
     | 0 => fun _ => None
     | S fuel' => NextToken_fuel fuel'
     end) l.

Definition NextToken (l : Lexer) : option (Token * Lexer) :=
  NextToken_fuel (scanFuel l) l.

(** [TokenizeAll]: [for { tok := l.NextToken(); tokens = append(tokens,
    tok); if tok.Type == EOF { break } }]. *)
Fixpoint TokenizeAll_fuel (fuel : nat) (l : Lexer) (tokens : list Token)
  : option (list Token) :=
  match fuel with
  | 0 => None
  | S fuel' =>
      r <-- NextToken l ;;
      let '(tok, l) := r in
      let tokens := tokens ++ [tok] in
      if TokenType_eqb (Type_ tok) EOF then Some tokens
      else TokenizeAll_fuel fuel' l tokens
  end.

Definition TokenizeAll (l : Lexer) : option (list Token) :=
  TokenizeAll_fuel (S (scanFuel l)) l [].

(* ================================================================== *)
(** * parser.go *)
(* ================================================================== *)

Record ObjectType : Type := mkObjectType {
  ot_Name : string;
  ot_Prefix : string
}.

(** The two implementations of [PermissionExpressionNode]. *)
Inductive PermissionExpressionNode : Type :=
| IdentifierNode (Value : string)
| BinaryOpNode (Operator : string) (Left Right : PermissionExpressionNode).

(** The two implementations of [RelationExpressionNode]. *)
Inductive RelationExpressionNode : Type :=
| SingleRelationNode (Value Fragment : string)
| UnionRelationNode (Left Right : RelationExpressionNode).

Record RelationNode : Type := mkRelationNode {
  rn_Name : string;
  rn_Expression : RelationExpressionNode
}.

Record PermissionNode : Type := mkPermissionNode {
  pn_Name : string;
  pn_Expression : PermissionExpressionNode
}.

Record DefinitionNode : Type := mkDefinitionNode {
  dn_ObjectType : ObjectType;
  dn_Relations : list RelationNode;
  dn_Permissions : list PermissionNode
}.

(** [IdentifierNode.String] and [BinaryOpNode.String]. *)
Fixpoint PermissionExpression_String (e : PermissionExpressionNode) : string :=
  match e with
  | IdentifierNode v => v
  | BinaryOpNode op l r =>
      (PermissionExpression_String l ++ " " ++ op ++ " "
         ++ PermissionExpression_String r)%string
  end.

(** [SingleRelationNode.String] and [UnionRelationNode.String]. *)
Fixpoint RelationExpression_String (e : RelationExpressionNode) : string :=
  match e with
  | SingleRelationNode v f =>
      if String.eqb f "" then v else (v ++ "#" ++ f)%string
  | UnionRelationNode l r =>
      (RelationExpression_String l ++ " | "
         ++ RelationExpression_String r)%string
  end.

(** Errors.  Each constructor is one [fmt.Errorf] site; the rendered text
    of the message is not modelled, its arguments are. *)
Inductive error : Type :=
| ErrExpectedDefinition (got : Token)
| ErrConsume (errorContext : string) (expected : TokenType) (got : Token)
| ErrObjectTypeFormat (identifier : string) (got : Token)
| ErrExternal (what : string)
| ErrWrap (format : string) (args : list string) (cause : error).

Inductive result (A : Type) : Type :=
| Ok (a : A)
| Err (e : error).
Arguments Ok {A} a.
Arguments Err {A} e.

Record Parser : Type := mkParser {
  tokens : list Token;
  current : nat;
  Definitions : list DefinitionNode
}.

Definition NewParser (ts : list Token) : Parser :=
  {| tokens := ts; current := 0; Definitions := [] |}.

(** A parser method: it updates the parser and returns a value or an
    error; [None] is a loop that ran out of fuel. *)
Definition M (A : Type) : Type := Parser -> option (result A * Parser).

Definition ret {A : Type} (a : A) : M A := fun p => Some (Ok a, p).

Definition fail {A : Type} (e : error) : M A := fun p => Some (Err e, p).

Definition bind {A B : Type} (m : M A) (k : A -> M B) : M B :=
  fun p =>
    match m p with
    | Some (Ok a, p') => k a p'
    | Some (Err e, p') => Some (Err e, p')
    | None => None
    end.

Notation "x <~ m ;; k" := (bind m (fun x => k))
  (at level 61, m at next level, right associativity).

(** [if err != nil { return nil, fmt.Errorf(format + ": %w", args, err) }] *)
Definition wrapping {A : Type} (format : string) (args : list string)
  (m : M A) : M A :=
  fun p =>
    match m p with
    | Some (Err e, p') => Some (Err (ErrWrap format args e), p')
    | r => r
    end.

Definition peek (p : Parser) : Token :=
  if (List.length (tokens p) <=? current p)%nat
  then {| Type_ := EOF; Literal := ""; Line := 0; Position := 0 |}
  else nth (current p) (tokens p)
         {| Type_ := ILLEGAL; Literal := ""; Line := 0; Position := 0 |}.

Definition advance (p : Parser) : Parser :=
  if (current p <? List.length (tokens p))%nat
  then {| tokens := tokens p; current := S (current p);
          Definitions := Definitions p |}
  else p.

(** [p.peek().Type == t] *)
Definition peekIs (t : TokenType) (p : Parser) : bool :=
  TokenType_eqb (Type_ (peek p)) t.

(** The [switch] of [consume] that picks the error context. *)
Definition errorContextOf (expected : TokenType) (token : Token) : string :=
  if TokenType_eqb (Type_ token) EOF && negb (TokenType_eqb expected EOF)
  then "unexpected end of file"
  else if TokenType_eqb (Type_ token) ILLEGAL
  then "illegal character encountered"
  else if TokenType_eqb expected LBRACE
          && TokenType_eqb (Type_ token) IDENTIFIER
  then "missing opening brace after object type definition"
  else if TokenType_eqb expected SLASH
          && TokenType_eqb (Type_ token) IDENTIFIER
  then "missing slash in object type definition (expected format: prefix/name)"
  else if TokenType_eqb expected RBRACE
  then "missing closing brace to end definition block"
  else "token mismatch".

Definition consume (expected : TokenType) : M Token :=
  fun p =>
    let token := peek p in
    if TokenType_eqb (Type_ token) expected
    then Some (Ok token, advance p)
    else Some (Err (ErrConsume (errorContextOf expected token) expected token),
               p).

(** Fuel for the loops of the parser: one iteration per token. *)
Definition loopFuel (p : Parser) : nat := S (List.length (tokens p)).

Definition parseSingleRelation : M RelationExpressionNode :=
  identToken <~ consume IDENTIFIER ;;
  let relationType := Literal identToken in
  relationType <~
    (fun p =>
       if peekIs SLASH p then
         (_ <~ consume SLASH ;;
          nameToken <~ consume IDENTIFIER ;;
          ret (relationType ++ "/" ++ Literal nameToken)%string) p
       else ret relationType p) ;;
  fun p =>
    if peekIs HASH p then
      (_ <~ consume HASH ;;
       fragmentToken <~ consume IDENTIFIER ;;
       ret (SingleRelationNode relationType (Literal fragmentToken))) p
    else ret (SingleRelationNode relationType "") p.

(** The [for p.peek().Type == PIPE] loop of [parseRelationExpression]. *)
Fixpoint parseRelationExpression_loop (fuel : nat)
  (left : RelationExpressionNode) : M RelationExpressionNode :=
  fun p =>
    if peekIs PIPE p then
      match fuel with
      | 0 => None
      | S fuel' =>
          (_ <~ consume PIPE ;;
           right <~ parseSingleRelation ;;
           parseRelationExpression_loop fuel' (UnionRelationNode left right)) p
      end
    else ret left p.

Definition parseRelationExpression : M RelationExpressionNode :=
  left <~ parseSingleRelation ;;
  fun p => parseRelationExpression_loop (loopFuel p) left p.

Definition parseRelation : M RelationNode :=
  _ <~ wrapping "failed to parse relation declaration" [] (consume RELATION) ;;
  nameToken <~ wrapping "expected relation name after 'relation' keyword" []
                 (consume IDENTIFIER) ;;
  _ <~ wrapping "expected ':' after relation name '%s'" [Literal nameToken]
         (consume COLON) ;;
  expr <~ wrapping "failed to parse expression for relation '%s'"
            [Literal nameToken] parseRelationExpression ;;
  ret {| rn_Name := Literal nameToken; rn_Expression := expr |}.

(** The [for p.peek().Type == MINUS_ARROW] loop of [parseIdentifierChain]. *)
Fixpoint parseIdentifierChain_loop (fuel : nat)
  (left : PermissionExpressionNode) : M PermissionExpressionNode :=
  fun p =>
    if peekIs MINUS_ARROW p then
      match fuel with
      | 0 => None
      | S fuel' =>
          (opToken <~ consume MINUS_ARROW ;;
           rightToken <~ consume IDENTIFIER ;;
           let right := IdentifierNode (Literal rightToken) in
           parseIdentifierChain_loop fuel'
             (BinaryOpNode (Literal opToken) left right)) p
      end
    else ret left p.

Definition parseIdentifierChain : M PermissionExpressionNode :=
  identToken <~ consume IDENTIFIER ;;
  fun p =>
    parseIdentifierChain_loop (loopFuel p)
      (IdentifierNode (Literal identToken)) p.

Definition parsePrimaryExpression : M PermissionExpressionNode :=
  parseIdentifierChain.

(** The [for p.peek().Type == PLUS] loop of [parseAdditiveExpression]. *)
Fixpoint parseAdditiveExpression_loop (fuel : nat)
  (left : PermissionExpressionNode) : M PermissionExpressionNode :=
  fun p =>
    if peekIs PLUS p then
      match fuel with
      | 0 => None
      | S fuel' =>
          (opToken <~ consume PLUS ;;
           right <~ parsePrimaryExpression ;;
           parseAdditiveExpression_loop fuel'
             (BinaryOpNode (Literal opToken) left right)) p
      end
    else ret left p.

Definition parseAdditiveExpression : M PermissionExpressionNode :=
  left <~ parsePrimaryExpression ;;
  fun p => parseAdditiveExpression_loop (loopFuel p) left p.

Definition parsePermissionExpression : M PermissionExpressionNode :=
  parseAdditiveExpression.

Definition parsePermission : M PermissionNode :=
  _ <~ wrapping "failed to parse permission declaration" []
         (consume PERMISSION) ;;
  nameToken <~ wrapping "expected permission name after 'permission' keyword"
                 [] (consume IDENTIFIER) ;;
  _ <~ wrapping "expected '=' after permission name '%s'" [Literal nameToken]
         (consume EQUAL) ;;
  expr <~ wrapping "failed to parse expression for permission '%s'"
            [Literal nameToken] parsePermissionExpression ;;
  ret {| pn_Name := Literal nameToken; pn_Expression := expr |}.

(** The [for p.peek().Type == RELATION || p.peek().Type == PERMISSION]
    loop of [parseDefinition]. *)
Fixpoint parseDefinition_loop (fuel : nat) (def : DefinitionNode)
  : M DefinitionNode :=
  fun p =>
    if peekIs RELATION p || peekIs PERMISSION p then
      match fuel with
      | 0 => None
      | S fuel' =>
          if peekIs RELATION p then
            (rel <~ parseRelation ;;
             parseDefinition_loop fuel'
               {| dn_ObjectType := dn_ObjectType def;
                  dn_Relations := dn_Relations def ++ [rel];
                  dn_Permissions := dn_Permissions def |}) p
          else if peekIs PERMISSION p then
            (perm <~ parsePermission ;;
             parseDefinition_loop fuel'
               {| dn_ObjectType := dn_ObjectType def;
                  dn_Relations := dn_Relations def;
                  dn_Permissions := dn_Permissions def ++ [perm] |}) p
          else parseDefinition_loop fuel' def p
      end
    else ret def p.

Definition parseDefinition : M DefinitionNode :=
  _ <~ wrapping "expected 'definition' keyword" [] (consume DEFINITION) ;;
  firstToken <~ wrapping "expected object type identifier after 'definition'"
                  [] (consume IDENTIFIER) ;;
  r <~
    (fun p =>
       if peekIs SLASH p then
         (_ <~ wrapping "expected '/' after object type prefix '%s'"
                 [Literal firstToken] (consume SLASH) ;;
          nameToken <~ wrapping "expected object type name after '%s/'"
                         [Literal firstToken] (consume IDENTIFIER) ;;
          let prefix := Literal firstToken in
          let name := Literal nameToken in
          ret ({| ot_Name := name; ot_Prefix := prefix |},
               (prefix ++ "/" ++ name)%string)) p
       else if peekIs LBRACE p then
         let name := Literal firstToken in
         ret ({| ot_Name := name; ot_Prefix := "" |}, name) p
       else
         fail (ErrObjectTypeFormat (Literal firstToken) (peek p)) p) ;;
  let '(ot, objectTypeName) := r in
  _ <~ wrapping "expected '{' after object type '%s'" [objectTypeName]
         (consume LBRACE) ;;
  def <~ (fun p =>
            parseDefinition_loop (loopFuel p)
              {| dn_ObjectType := ot; dn_Relations := [];
                 dn_Permissions := [] |} p) ;;
  _ <~ wrapping "expected '}' to close definition '%s'" [objectTypeName]
         (consume RBRACE) ;;
  ret def.

(** The [for p.peek().Type != EOF] loop of [ParseDefinitions]. *)
Fixpoint ParseDefinitions_loop (fuel : nat) : M (list DefinitionNode) :=
  fun p =>
    if negb (peekIs EOF p) then
      match fuel with
      | 0 => None
      | S fuel' =>
          if negb (peekIs DEFINITION p) then
            fail (ErrExpectedDefinition (peek p)) p
          else
            (def <~ parseDefinition ;;
             fun p =>
               ParseDefinitions_loop fuel'
                 {| tokens := tokens p; current := current p;
                    Definitions := Definitions p ++ [def] |}) p
      end
    else ret (Definitions p) p.

Definition ParseDefinitions : M (list DefinitionNode) :=
  fun p => ParseDefinitions_loop (loopFuel p) p.

(** Tokenize a document and parse it, as [parseSchema] does. *)
Definition parseDocument (s : string)
  : option (result (list DefinitionNode)) :=
  ts <-- TokenizeAll (NewLexer s) ;;
  r <-- ParseDefinitions (NewParser ts) ;;
  Some (fst r).

(* ================================================================== *)
(** * The generator *)
(* ================================================================== *)

Record Relation : Type := mkRelation {
  rel_Name : string;
  rel_Types : list string;
  rel_IsUnion : bool
}.

Record Permission : Type := mkPermission {
  perm_Name : string;
  perm_Expression : string
}.

Record Definition_ : Type := mkDefinition {
  def_Name : string;
  def_Package : string;
  def_Relations : list Relation;
  def_Permissions : list Permission
}.

Record Schema : Type := mkSchema {
  sch_Definitions : list Definition_
}.

Fixpoint extractTypesFromRelationExpression (expr : RelationExpressionNode)
  : list string :=
  match expr with
  | SingleRelationNode v f =>
      if negb (String.eqb f "") then [] ++ [(v ++ "#" ++ f)%string]
      else [] ++ [v]
  | UnionRelationNode l r =>
      ([] ++ extractTypesFromRelationExpression l)
        ++ extractTypesFromRelationExpression r
  end.

(** The body of the [for _, astRel := range astDef.Relations] loop. *)
Definition convertRelation (astRel : RelationNode) : Relation :=
  let types := extractTypesFromRelationExpression (rn_Expression astRel) in
  {| rel_Name := rn_Name astRel;
     rel_Types := types;
     rel_IsUnion := (1 <? List.length types)%nat |}.

(** The body of the [for _, astPerm := range astDef.Permissions] loop. *)
Definition convertPermission (astPerm : PermissionNode) : Permission :=
  {| perm_Name := pn_Name astPerm;
     perm_Expression := PermissionExpression_String (pn_Expression astPerm) |}.

(** The body of the [for _, astDef := range astDefinitions] loop. *)
Definition convertDefinition (astDef : DefinitionNode) : Definition_ :=
  let pkg := ot_Prefix (dn_ObjectType astDef) in
  let pkg := if String.eqb pkg "" then "authz" else pkg in
  {| def_Package := pkg;
     def_Name := ot_Name (dn_ObjectType astDef);
     def_Relations := map convertRelation (dn_Relations astDef);
     def_Permissions := map convertPermission (dn_Permissions astDef) |}.

(** The value handed to the template. *)
Record TemplateData : Type := mkTemplateData {
  td_Package : string;
  td_Definitions : list Definition_
}.

(** What the generator calls outside this package.  The constant
    [codeTemplate] is not among the sources: parsing it
    ([template_Parse]) and executing it ([template_Execute]) are taken as
    given, like the file system, [go/format] and [sort.Slice]. *)
Record Env : Type := mkEnv {
  os_ReadFile : string -> result string;
  os_MkdirAll : string -> option error;
  os_WriteFile : string -> string -> option error;
  filepath_Join : string -> string -> string;
  template_Parse : option error;
  template_Execute : TemplateData -> result string;
  format_Source : string -> result string;
  sort_Slice : (Definition_ -> Definition_ -> bool)
               -> list Definition_ -> list Definition_
}.

Record Generator : Type := mkGenerator {
  schemaFile : string;
  outputDir : string
}.

Inductive Level : Type := LevelDebug | LevelInfo | LevelError.

(** What a call leaves behind: the error it returns ([None] is [nil]),
    the [os.WriteFile] calls it made (file name and content) and the
    records it sent to [g.logger]. *)
Record Outcome : Type := mkOutcome {
  out_error : option error;
  out_writes : list (string * string);
  out_log : list (Level * string)
}.

(** [parseSchema]: the schema or the error, and the log records. *)
Definition parseSchema (env : Env) (g : Generator)
  : option (result Schema * list (Level * string)) :=
  match os_ReadFile env (schemaFile g) with
  | Err e => Some (Err (ErrWrap "failed to read schema file" [] e), [])
  | Ok content =>
      let log := [(LevelDebug, "Schema file read successfully")] in
      let lexer := NewLexer content in
      tokens <-- TokenizeAll lexer ;;
      let log := log ++ [(LevelDebug, "Lexical analysis complete")] in
      let parser := NewParser tokens in
      r <-- ParseDefinitions parser ;;
      match fst r with
      | Err e => Some (Err (ErrWrap "failed to parse schema" [] e), log)
      | Ok astDefinitions =>
          let log := log ++ [(LevelInfo, "AST parsing successful")] in
          Some (Ok {| sch_Definitions := map convertDefinition astDefinitions |},
                log)
      end
  end.

(** The [less] function given to [sort.Slice]. *)
Definition lessByName (a b : Definition_) : bool :=
  String.ltb (def_Name a) (def_Name b).

(** [generateCode]: the error it returns and the files it writes. *)
Definition generateCode (env : Env) (g : Generator) (packageName : string)
  (definitions : list Definition_) : option error * list (string * string) :=
  match os_MkdirAll env (outputDir g) with
  | Some err => (Some err, [])
  | None =>
      match template_Parse env with
      | Some err => (Some err, [])
      | None =>
          let definitions := sort_Slice env lessByName definitions in
          let data := {| td_Package := packageName;
                         td_Definitions := definitions |} in
          match template_Execute env data with
          | Err err => (Some err, [])
          | Ok buf =>
              let formatted :=
                match format_Source env buf with
                | Err _ => buf
                | Ok formatted => formatted
                end in
              let filename :=
                filepath_Join env (outputDir g)
                  (packageName ++ ".gen.go")%string in
              (os_WriteFile env filename formatted, [(filename, formatted)])
          end
      end
  end.

(** [Generate]. *)
Definition Generate (env : Env) (g : Generator) : option Outcome :=
  let log := [(LevelInfo, "Starting schema parsing")] in
  r <-- parseSchema env g ;;
  let '(res, plog) := r in
  let log := log ++ plog in
  match res with
  | Err err =>
      Some {| out_error := Some (ErrWrap "failed to parse schema" [] err);
              out_writes := [];
              out_log := log ++ [(LevelError, "Schema parsing failed")] |}
  | Ok schema =>
      let packageName :=
        match sch_Definitions schema with
        | d :: _ =>
            if negb (String.eqb (def_Package d) "") then def_Package d
            else "authz"
        | [] => "authz"
        end in
      let log := log ++ [(LevelInfo, "Generating code for single package")] in
      match generateCode env g packageName (sch_Definitions schema) with
      | (Some err, writes) =>
          Some {| out_error :=
                    Some (ErrWrap "failed to generate code for package %s"
                            [packageName] err);
                  out_writes := writes;
                  out_log := log ++ [(LevelError, "Code generation failed")] |}
      | (None, writes) =>
          Some {| out_error := None;
                  out_writes := writes;
                  out_log :=
                    log ++ [(LevelInfo,
                             "Code generation completed successfully")] |}
      end
  end.

(* ================================================================== *)
(** * The lexer: the unread input *)
(* ================================================================== *)

(** [l.input[l.position:]], the bytes from the current one on. *)
Definition remaining (l : Lexer) : list ascii :=
  skipn (position l) (input l).

(** What every method of the lexer keeps true: the read position is one
    past the position, and [ch] is the byte at the position (NUL past the
    end). *)
Definition wf (l : Lexer) : Prop :=
  readPosition l = S (position l) /\ ch l = hd NUL (remaining l).

Fixpoint dropWhile (cond : ascii -> bool) (xs : list ascii) : list ascii :=
  match xs with
  | [] => []
  | c :: r => if cond c then dropWhile cond r else xs
  end.

Fixpoint takeWhile (cond : ascii -> bool) (xs : list ascii) : list ascii :=
  match xs with
  | [] => []
  | c :: r => if cond c then c :: takeWhile cond r else []
  end.

(** The text of an identifier: a letter, then letters, digits and
    underscores. *)
Definition isIdentifierText (s : string) : bool :=
  match list_ascii_of_string s with
  | [] => false
  | c :: r => isLetter c && forallb isIdentChar r
  end.

(** What the lexer guarantees of the literal of a token, by its type. *)
Definition tokenOK (t : Token) : Prop :=
  match Type_ t with
  | IDENTIFIER =>
      isIdentifierText (Literal t) = true /\ keywords (Literal t) = None
  | PLUS => Literal t = "+"
  | MINUS_ARROW => Literal t = "->"
  | _ => True
  end.

(** A byte that no case of [NextToken] recognizes: not white space, not
    the end-of-input sentinel, not a letter and not a punctuation mark. *)
Definition unrecognized (c : ascii) : bool :=
  negb (isWhitespace c || isLetter c || Ascii.eqb c NUL
        || existsb (Ascii.eqb c) (list_ascii_of_string "=+|*{}:/#-")).

(** The shape of a token sequence the lexer returns: tokens other than
    end-of-input, then one end-of-input token. *)
Definition eofTerminated (ts : list Token) : Prop :=
  exists body t,
    ts = body ++ [t] /\ Type_ t = EOF /\
    Forall (fun t => Type_ t <> EOF) body.

(* ================================================================== *)
(** * The parser: the unread tokens *)
(* ================================================================== *)

(** [p.tokens[p.current:]], the tokens from the current one on. *)
Definition rest (p : Parser) : list Token :=
  skipn (current p) (tokens p).

(** What [peek] returns past the last token. *)
Definition eofToken : Token :=
  {| Type_ := EOF; Literal := ""; Line := 0; Position := 0 |}.

(** The token types the grammar has a use for: every type some call of
    [consume] expects. *)
Definition consumable (t : TokenType) : bool :=
  match t with
  | ILLEGAL | EOF | MINUS | WILDCARD => false
  | _ => true
  end.

(** [p'] is [p] some tokens later, and the tokens passed in between are
    of types the grammar expects. *)
Definition passes (p p' : Parser) : Prop :=
  exists pre,
    rest p = pre ++ rest p' /\
    Forall (fun t => consumable (Type_ t) = true) pre.

(** [p'] is [p] some tokens later, with the same tokens and the same
    definitions: what every method below [ParseDefinitions] does to the
    parser. *)
Definition extends (p p' : Parser) : Prop :=
  tokens p' = tokens p /\ Definitions p' = Definitions p /\ passes p p'.

(** [m] returns from [p]; when it returns a value, the value and the
    parser it leaves satisfy [Q], and with [strict] it has passed at
    least one token. *)
Definition runs {A : Type} (m : M A) (p : Parser) (strict : bool)
  (Q : A -> Parser -> Prop) : Prop :=
  exists r p',
    m p = Some (r, p') /\ extends p p' /\
    match r with
    | Ok a =>
        Q a p' /\
        (strict = true -> List.length (rest p') < List.length (rest p))
    | Err _ => True
    end.

Definition anything {A : Type} : A -> Parser -> Prop := fun _ _ => True.

(** [ParseDefinitions] returns; when it returns definitions, the parser
    stands at an end-of-input token and the definitions satisfy [Q],
    given that [Q] holds of the definitions the parser starts with and of
    each definition [parseDefinition] returns. *)
Definition returnsAll (m : M (list DefinitionNode)) (p : Parser)
  (Q : DefinitionNode -> Prop) : Prop :=
  exists r p',
    m p = Some (r, p') /\ tokens p' = tokens p /\ passes p p' /\
    match r with
    | Ok defs => peekIs EOF p' = true /\ Forall Q defs
    | Err _ => True
    end.

(* ================================================================== *)
(** * The parser on a known token sequence *)
(* ================================================================== *)

(** [m], started where the unread tokens of [p] are known, returns the
    value [a] and leaves the tokens [r'] unread. *)
Definition yields {A : Type} (m : M A) (p : Parser) (a : A)
  (r' : list Token) : Prop :=
  exists p', m p = Some (Ok a, p') /\ tokens p' = tokens p /\ rest p' = r'.

(** A token sequence [t0 (o1 t1) (o2 t2) ...]: a first operand and the
    pairs of a separator and the operand after it. *)
Definition separated {A : Type} (operand : A -> list Token)
  (first : A) (more : list (Token * A)) : list Token :=
  operand first ++ flat_map (fun oa => fst oa :: operand (snd oa)) more.

(** The left fold of a binary node over such a sequence. *)
Definition foldLeft {A E : Type} (leaf : A -> E) (node : Token -> E -> E -> E)
  (first : A) (more : list (Token * A)) : E :=
  fold_left (fun l oa => node (fst oa) l (leaf (snd oa))) more (leaf first).

(** The tokens after an operator chain do not continue it. *)
Definition stopsAt (ty : TokenType) (r : list Token) : Prop :=
  Type_ (hd eofToken r) <> ty.

Definition identLeaf (t : Token) : PermissionExpressionNode :=
  IdentifierNode (Literal t).

Definition binaryNode (o : Token) (l r : PermissionExpressionNode)
  : PermissionExpressionNode :=
  BinaryOpNode (Literal o) l r.

(** The tokens of a primary: an identifier and the pairs of an arrow and
    an identifier after it. *)
Definition ChainTokens : Type := (Token * list (Token * Token))%type.

Definition chainTokens (c : ChainTokens) : list Token :=
  fst c :: flat_map (fun oa => [fst oa; snd oa]) (snd c).

Definition chainTree (c : ChainTokens) : PermissionExpressionNode :=
  fold_left (fun l oa => binaryNode (fst oa) l (identLeaf (snd oa)))
    (snd c) (identLeaf (fst c)).

Definition chainTyped (c : ChainTokens) : Prop :=
  Type_ (fst c) = IDENTIFIER /\
  Forall (fun oa => Type_ (fst oa) = MINUS_ARROW
                    /\ Type_ (snd oa) = IDENTIFIER) (snd c).

(** The tokens of a permission expression: a primary and the pairs of a
    plus sign and the primary after it. *)
Definition additiveTokens (c0 : ChainTokens)
  (more : list (Token * ChainTokens)) : list Token :=
  chainTokens c0 ++ flat_map (fun oc => fst oc :: chainTokens (snd oc)) more.

Definition additiveTree (c0 : ChainTokens)
  (more : list (Token * ChainTokens)) : PermissionExpressionNode :=
  fold_left (fun l oc => binaryNode (fst oc) l (chainTree (snd oc)))
    more (chainTree c0).

Definition additiveTyped (c0 : ChainTokens)
  (more : list (Token * ChainTokens)) : Prop :=
  chainTyped c0 /\
  Forall (fun oc => Type_ (fst oc) = PLUS /\ chainTyped (snd oc)) more.

(** The tokens of one subject type: an identifier, an optional slash and
    name, an optional hash and fragment. *)
Record SingleTokens : Type := mkSingleTokens {
  st_type : Token;
  st_name : option (Token * Token);
  st_fragment : option (Token * Token)
}.

Definition optTokens (o : option (Token * Token)) : list Token :=
  match o with
  | Some (a, b) => [a; b]
  | None => []
  end.

Definition optTyped (ty : TokenType) (o : option (Token * Token)) : Prop :=
  match o with
  | Some (a, b) => Type_ a = ty /\ Type_ b = IDENTIFIER
  | None => True
  end.

Definition singleTokens (s : SingleTokens) : list Token :=
  st_type s :: optTokens (st_name s) ++ optTokens (st_fragment s).

Definition singleTree (s : SingleTokens) : RelationExpressionNode :=
  SingleRelationNode
    (match st_name s with
     | Some (_, n) => (Literal (st_type s) ++ "/" ++ Literal n)%string
     | None => Literal (st_type s)
     end)
    (match st_fragment s with
     | Some (_, f) => Literal f
     | None => ""
     end).

Definition singleTyped (s : SingleTokens) : Prop :=
  Type_ (st_type s) = IDENTIFIER /\
  optTyped SLASH (st_name s) /\ optTyped HASH (st_fragment s).

(** The tokens of a relation expression: a subject type and the pairs of
    a pipe and the subject type after it. *)
Definition unionTokens (s0 : SingleTokens)
  (more : list (Token * SingleTokens)) : list Token :=
  singleTokens s0 ++ flat_map (fun os => fst os :: singleTokens (snd os)) more.

Definition unionTree (s0 : SingleTokens)
  (more : list (Token * SingleTokens)) : RelationExpressionNode :=
  fold_left (fun l os => UnionRelationNode l (singleTree (snd os)))
    more (singleTree s0).

Definition unionTyped (s0 : SingleTokens)
  (more : list (Token * SingleTokens)) : Prop :=
  singleTyped s0 /\
  Forall (fun os => Type_ (fst os) = PIPE /\ singleTyped (snd os)) more.

(* ================================================================== *)
(** * Notions of the properties, and an environment for examples *)
(* ================================================================== *)

(** The 1-based line of the byte at offset [i] of [s]: one more than the
    number of newlines before it. *)
Definition lineOfOffset (s : string) (i : nat) : Z :=
  1 + Z.of_nat (count_occ ascii_dec (firstn i (list_ascii_of_string s)) LF).

(** The column after the bytes [pre], starting from column [col]: it
    restarts at 1 after each newline. *)
Fixpoint columnAfter (pre : list ascii) (col : Z) : Z :=
  match pre with
  | [] => col
  | c :: r => columnAfter r (if Ascii.eqb c LF then 1 else col + 1)%Z
  end.

(** The 1-based column of the byte at offset [i] of [s] within its line. *)
Definition columnOfOffset (s : string) (i : nat) : Z :=
  columnAfter (firstn i (list_ascii_of_string s)) 1.

(** A schema of three lines, the second one ending in an identifier. *)
Definition viewerSchema : string :=
  "definition doc {" ++ String LF "  relation viewer: user"
    ++ String LF "}".

(** The [SingleRelation] leaves of a relation expression, from left to
    right, each as its type and fragment. *)
Fixpoint leaves (e : RelationExpressionNode) : list (string * string) :=
  match e with
  | SingleRelationNode v f => [(v, f)]
  | UnionRelationNode l r => leaves l ++ leaves r
  end.

(** A leaf rendered as [type] or [type#fragment]. *)
Definition renderLeaf (vf : string * string) : string :=
  if String.eqb (snd vf) "" then fst vf
  else (fst vf ++ "#" ++ snd vf)%string.

(** [sort.Slice] on a short slice is an insertion sort: each element in
    turn sinks towards the front while it is less than the element before
    it.  [sink] works on the sorted prefix in reverse. *)
Fixpoint sink {A : Type} (less : A -> A -> bool) (x : A) (sortedRev : list A)
  : list A :=
  match sortedRev with
  | [] => [x]
  | y :: ys => if less x y then y :: sink less x ys else x :: sortedRev
  end.

Definition insertionSort {A : Type} (less : A -> A -> bool) (l : list A)
  : list A :=
  rev (fold_left (fun acc x => sink less x acc) l []).

(** Modelled from the spec: the template [codeTemplate] is not among the
    sources.  The generated unit carries the package name and, for every
    definition in the order given, its name, its relations with their
    types and its permissions with their expression text. *)
Definition renderRelation (r : Relation) : string :=
  ("  relation " ++ rel_Name r ++ ": " ++ String.concat " | " (rel_Types r)
     ++ String LF "")%string.

Definition renderPermission (p : Permission) : string :=
  ("  permission " ++ perm_Name p ++ " = " ++ perm_Expression p
     ++ String LF "")%string.

Definition renderDefinition (d : Definition_) : string :=
  ("type " ++ def_Name d ++ String LF ""
     ++ String.concat "" (map renderRelation (def_Relations d))
     ++ String.concat "" (map renderPermission (def_Permissions d)))%string.

Definition renderTemplate (data : TemplateData) : string :=
  ("package " ++ td_Package data ++ String LF ""
     ++ String.concat "" (map renderDefinition (td_Definitions data)))%string.

(** A model of what the generator calls outside the package, for
    examples: schema files with the given contents, a file system that
    accepts every other call, the template above and an insertion sort. *)
Definition exampleEnv (read : string -> result string)
  (format : string -> result string) : Env :=
  {| os_ReadFile := read;
     os_MkdirAll := fun _ => None;
     os_WriteFile := fun _ _ => None;
     filepath_Join := fun dir file => (dir ++ "/" ++ file)%string;
     template_Parse := None;
     template_Execute := fun data => Ok (renderTemplate data);
     format_Source := format;
     sort_Slice := insertionSort |}.

(** What [sort.Slice] promises for the [less] of [generateCode]: the
    result is a rearrangement of the slice in which no element is less
    than an earlier one.  The order of elements with equal names is left
    open, as the documentation of [sort.Slice] leaves it. *)
Definition sortContract
  (sort : (Definition_ -> Definition_ -> bool)
          -> list Definition_ -> list Definition_) : Prop :=
  forall l,
    Permutation l (sort lessByName l) /\
    StronglySorted (fun a b => lessByName b a = false) (sort lessByName l).

(** The package a definition asks for: its prefix, or [authz] without
    one. *)
Definition packageOf (d : DefinitionNode) : string :=
  if String.eqb (ot_Prefix (dn_ObjectType d)) "" then "authz"
  else ot_Prefix (dn_ObjectType d).

(** The tokens of [definition d { relation r: * }]. *)
Definition wildcardTokens : list Token :=
  Eval vm_compute in
    match TokenizeAll (NewLexer "definition d { relation r: * }") with
    | Some ts => ts
    | None => []
    end.

(* ================================================================== *)
(** * Sorting by name *)
(* ================================================================== *)

(** The reverse of a sorted prefix: nothing is less than what follows. *)
Definition descending {A : Type} (less : A -> A -> bool) : list A -> Prop :=
  StronglySorted (fun a b => less a b = false).

(* ================================================================== *)
(** * The generator on a document that parses *)
(* ================================================================== *)

(** The records [Generate] logs when the schema parses; the last one
    tells whether [generateCode] returned an error. *)
Definition generateLog (failed : bool) : list (Level * string) :=
  [ (LevelInfo, "Starting schema parsing");
    (LevelDebug, "Schema file read successfully");
    (LevelDebug, "Lexical analysis complete");
    (LevelInfo, "AST parsing successful");
    (LevelInfo, "Generating code for single package");
    if failed then (LevelError, "Code generation failed")
    else (LevelInfo, "Code generation completed successfully") ].

(** What [Generate] makes of the result of its call of [generateCode]. *)
Definition outcomeOf (packageName : string)
  (gc : option error * list (string * string)) : Outcome :=
  {| out_error :=
       match fst gc with
       | Some err =>
           Some (ErrWrap "failed to generate code for package %s"
                   [packageName] err)
       | None => None
       end;
     out_writes := snd gc;
     out_log := generateLog (match fst gc with Some _ => true | None => false end) |}.

(** The package name [Generate] picks: that of the first definition. *)
Definition packageNameOf (defs : list DefinitionNode) : string :=
  match defs with
  | d :: _ => packageOf d
  | [] => "authz"
  end.

(** The generator used in the examples. *)
Definition exampleGenerator : Generator :=
  {| schemaFile := "schema.zed"; outputDir := "out" |}.

(** What one run writes: the contents of the files, in order. *)
Definition generatedText (env : Env) (g : Generator) : option (list string) :=
  option_map (fun out => map snd (out_writes out)) (Generate env g).

(* ================================================================== *)
(** * The shape of the permission expressions the parser builds *)
(* ================================================================== *)

(** A primary built from tokens of [ts]. *)
Definition chainShape (ts : list Token) (e : PermissionExpressionNode)
  : Prop :=
  exists c,
    e = chainTree c /\ chainTyped c /\
    Forall (fun t => In t ts) (chainTokens c).

(** A permission expression built from tokens of [ts]. *)
Definition additiveShape (ts : list Token) (e : PermissionExpressionNode)
  : Prop :=
  exists c0 more,
    e = additiveTree c0 more /\ additiveTyped c0 more /\
    Forall (fun t => In t ts) (additiveTokens c0 more).

(** A definition all of whose permissions have that shape. *)
Definition definitionShape (ts : list Token) (def : DefinitionNode) : Prop :=
  Forall (fun perm => additiveShape ts (pn_Expression perm))
    (dn_Permissions def).

(* ================================================================== *)
(** * The lexer on the text of a permission expression *)
(* ================================================================== *)

Definition allWhitespace (ws : list ascii) : Prop :=
  Forall (fun c => isWhitespace c = true) ws.

(** Successive calls of [NextToken]: from [l] they return the tokens
    [ts], none of them end-of-input, and leave the lexer at [l']. *)
Inductive lexes : Lexer -> list Token -> Lexer -> Prop :=
| lexes_nil : forall l, lexes l [] l
| lexes_cons : forall l t l1 ts l',
    NextToken l = Some (t, l1) -> Type_ t <> EOF ->
    lexes l1 ts l' -> lexes l (t :: ts) l'.

(** The bytes of a string. *)
Definition chars (s : string) : list ascii := list_ascii_of_string s.

(** The literal of an identifier token of the lexer. *)
Definition identLit (x : string) : Prop :=
  isIdentifierText x = true /\ keywords x = None.

(** The literals of the tokens of a primary and of a permission
    expression, as the lexer writes them. *)
Definition chainLits (c : ChainTokens) : Prop :=
  identLit (Literal (fst c)) /\
  Forall (fun oa => Literal (fst oa) = "->" /\ identLit (Literal (snd oa)))
    (snd c).

Definition additiveLits (c0 : ChainTokens)
  (more : list (Token * ChainTokens)) : Prop :=
  chainLits c0 /\
  Forall (fun oc => Literal (fst oc) = "+" /\ chainLits (snd oc)) more.

(** The literals of two token sequences agree. *)
Definition sameChain (c c' : ChainTokens) : Prop :=
  Literal (fst c) = Literal (fst c') /\
  Forall2 (fun oa oa' => Literal (fst oa) = Literal (fst oa')
                         /\ Literal (snd oa) = Literal (snd oa'))
    (snd c) (snd c').

(** Serialize, tokenize, parse as a permission expression: the result of
    the parse and the type of the token the parser is left at. *)
Definition reparse (e : PermissionExpressionNode)
  : option (result PermissionExpressionNode * TokenType) :=
  ts <-- TokenizeAll (NewLexer (PermissionExpression_String e)) ;;
  r <-- parsePermissionExpression (NewParser ts) ;;
  Some (fst r, Type_ (peek (snd r))).

(* ================================================================== *)
(** * The generator: options, the template helper, validation errors *)
(* ================================================================== *)

(** [type Option], a function on a generator: what an option does to the fields of
    the generator.  The [logger] field is the sink of the records kept in
    [out_log]; it is no field of [Generator] here, so [WithLogger] leaves
    the two fields alone. *)
Definition Option_ : Type := Generator -> Generator.

Definition WithSchemaFile (path : string) : Option_ :=
  fun g => {| schemaFile := path; outputDir := outputDir g |}.

Definition WithOutputDir (dir : string) : Option_ :=
  fun g => {| schemaFile := schemaFile g; outputDir := dir |}.

Definition WithLogger : Option_ := fun g => g.

(** [NewGenerator]; [None] is the error [schema file is required]. *)
Definition NewGenerator (opts : list Option_) : option Generator :=
  let g := {| schemaFile := ""; outputDir := "." |} in
  let g := fold_left (fun g opt => opt g) opts g in
  if String.eqb (schemaFile g) "" then None else Some g.

(** How [main] of [cmd/authz-codegen] ends: with [os.Exit(1)] after
    [schema file is required], after the error of [NewGenerator] or
    after the error of [Generate], or by returning after [Code generation
    completed successfully]. *)
Inductive Exit : Type :=
| ExitNoSchema
| ExitNoGenerator
| ExitFailed (out : Outcome)
| ExitCompleted (out : Outcome).

(** [main] of [cmd/authz-codegen]; [output] and [schema] are the values
    of the flags [-output] and [-schema] after [flag.Parse()], the
    default of [-output] being ["."], and [args] is [flag.Args()]. *)
Definition main (env : Env) (output schema : string) (args : list string)
  : option Exit :=
  let schema :=
    if String.eqb schema "" && Nat.ltb 0 (List.length args)
    then nth 0 args "" else schema in
  let output :=
    if Nat.ltb 1 (List.length args) then nth 1 args "" else output in
  if String.eqb schema "" then Some ExitNoSchema
  else
    match NewGenerator [WithSchemaFile schema; WithOutputDir output;
                        WithLogger] with
    | None => Some ExitNoGenerator
    | Some generator =>
        out <-- Generate env generator ;;
        match out_error out with
        | Some _ => Some (ExitFailed out)
        | None => Some (ExitCompleted out)
        end
    end.

(** [strings.Split(s, sep)] for a separator of one byte. *)
Fixpoint strings_Split (s : string) (sep : ascii) : list string :=
  match s with
  | EmptyString => [EmptyString]
  | String c r =>
      if Ascii.eqb c sep then EmptyString :: strings_Split r sep
      else match strings_Split r sep with
           | part :: parts => String c part :: parts
           | [] => [String c EmptyString]
           end
  end.

(** [strings.Index(s, substr)] for a substring of one byte; [None] is
    [-1]. *)
Fixpoint strings_Index (s : string) (c : ascii) : option nat :=
  match s with
  | EmptyString => None
  | String d r =>
      if Ascii.eqb d c then Some 0 else option_map S (strings_Index r c)
  end.

(** The template function [extractType] of [generateCode]. *)
Definition extractType (fullType : string) : string :=
  let parts := strings_Split fullType "/" in
  let typeName := fullType in
  let typeName :=
    if (1 <? List.length parts)%nat then nth 1 parts "" else typeName in
  match strings_Index typeName "#" with
  | Some idx => substring 0 idx typeName
  | None => typeName
  end.

(** [shared.ValidationError] and [shared.ValidationErrors]. *)
Record ValidationError : Type := mkValidationError {
  ve_Field : string;
  ve_Message : string
}.

Definition ValidationError_Error (e : ValidationError) : string :=
  (ve_Field e ++ ": " ++ ve_Message e)%string.

Definition ValidationErrors : Type := list ValidationError.

(** [fmt.Sprintf("%d", n)] for a length. *)
Definition decimal (n : nat) : string :=
  NilEmpty.string_of_uint (Nat.to_uint n).

Definition ValidationErrors_Error (e : ValidationErrors) : string :=
  if (List.length e =? 0)%nat then ""
  else if (List.length e =? 1)%nat then
    ValidationError_Error (nth 0 e {| ve_Field := ""; ve_Message := "" |})
  else (decimal (List.length e) ++ " validation errors occurred")%string.

Definition ValidationErrors_Add (e : ValidationErrors)
  (field message : string) : ValidationErrors :=
  e ++ [ {| ve_Field := field; ve_Message := message |} ].

Definition ValidationErrors_HasErrors (e : ValidationErrors) : bool :=
  (0 <? List.length e)%nat.

(* ================================================================== *)
(** * The grammar of a document, as token sequences *)
(* ================================================================== *)

(** [p'] is [p] after exactly the tokens [pre]. *)
Definition moves (p : Parser) (pre : list Token) (p' : Parser) : Prop :=
  rest p = pre ++ rest p' /\ tokens p' = tokens p /\
  Definitions p' = Definitions p.

(** The tokens of [relation name: subject | subject ...]. *)
Record RelationTokens : Type := mkRelationTokens {
  rt_keyword : Token;
  rt_name : Token;
  rt_colon : Token;
  rt_first : SingleTokens;
  rt_more : list (Token * SingleTokens)
}.

Definition relationTokens (r : RelationTokens) : list Token :=
  rt_keyword r :: rt_name r :: rt_colon r
    :: unionTokens (rt_first r) (rt_more r).

Definition relationTree (r : RelationTokens) : RelationNode :=
  {| rn_Name := Literal (rt_name r);
     rn_Expression := unionTree (rt_first r) (rt_more r) |}.

Definition relationTyped (r : RelationTokens) : Prop :=
  Type_ (rt_keyword r) = RELATION /\ Type_ (rt_name r) = IDENTIFIER /\
  Type_ (rt_colon r) = COLON /\ unionTyped (rt_first r) (rt_more r).

(** The tokens of [permission name = primary + primary ...]. *)
Record PermissionTokens : Type := mkPermissionTokens {
  pt_keyword : Token;
  pt_name : Token;
  pt_equal : Token;
  pt_first : ChainTokens;
  pt_more : list (Token * ChainTokens)
}.

Definition permissionTokens (r : PermissionTokens) : list Token :=
  pt_keyword r :: pt_name r :: pt_equal r
    :: additiveTokens (pt_first r) (pt_more r).

Definition permissionTree (r : PermissionTokens) : PermissionNode :=
  {| pn_Name := Literal (pt_name r);
     pn_Expression := additiveTree (pt_first r) (pt_more r) |}.

Definition permissionTyped (r : PermissionTokens) : Prop :=
  Type_ (pt_keyword r) = PERMISSION /\ Type_ (pt_name r) = IDENTIFIER /\
  Type_ (pt_equal r) = EQUAL /\ additiveTyped (pt_first r) (pt_more r).

(** A member of a definition block. *)
Inductive MemberTokens : Type :=
| RelationMember (r : RelationTokens)
| PermissionMember (r : PermissionTokens).

Definition memberTokens (m : MemberTokens) : list Token :=
  match m with
  | RelationMember r => relationTokens r
  | PermissionMember r => permissionTokens r
  end.

Definition memberTyped (m : MemberTokens) : Prop :=
  match m with
  | RelationMember r => relationTyped r
  | PermissionMember r => permissionTyped r
  end.

(** What a member adds to the definition under construction. *)
Definition addMember (def : DefinitionNode) (m : MemberTokens)
  : DefinitionNode :=
  match m with
  | RelationMember r =>
      {| dn_ObjectType := dn_ObjectType def;
         dn_Relations := dn_Relations def ++ [relationTree r];
         dn_Permissions := dn_Permissions def |}
  | PermissionMember r =>
      {| dn_ObjectType := dn_ObjectType def;
         dn_Relations := dn_Relations def;
         dn_Permissions := dn_Permissions def ++ [permissionTree r] |}
  end.

(** The tokens of [definition first { members }] and of
    [definition first/name { members }]. *)
Record DefinitionTokens : Type := mkDefinitionTokens {
  dt_keyword : Token;
  dt_first : Token;
  dt_name : option (Token * Token);
  dt_lbrace : Token;
  dt_members : list MemberTokens;
  dt_rbrace : Token
}.

Definition definitionTokens (d : DefinitionTokens) : list Token :=
  dt_keyword d :: dt_first d
    :: optTokens (dt_name d)
    ++ dt_lbrace d :: flat_map memberTokens (dt_members d) ++ [dt_rbrace d].

Definition definitionTyped (d : DefinitionTokens) : Prop :=
  Type_ (dt_keyword d) = DEFINITION /\ Type_ (dt_first d) = IDENTIFIER /\
  optTyped SLASH (dt_name d) /\ Type_ (dt_lbrace d) = LBRACE /\
  Forall memberTyped (dt_members d) /\ Type_ (dt_rbrace d) = RBRACE.

Definition objectTypeOf (d : DefinitionTokens) : ObjectType :=
  match dt_name d with
  | Some (_, n) =>
      {| ot_Name := Literal n; ot_Prefix := Literal (dt_first d) |}
  | None => {| ot_Name := Literal (dt_first d); ot_Prefix := "" |}
  end.

(** The definition these tokens stand for: the relations and the
    permissions each in the order of the block. *)
Definition definitionTree (d : DefinitionTokens) : DefinitionNode :=
  fold_left addMember (dt_members d)
    {| dn_ObjectType := objectTypeOf d; dn_Relations := [];
       dn_Permissions := [] |}.

(** The names of a parsed definition. *)
Definition typeRef (v : string) : Prop :=
  identLit v \/
  exists a b, v = (a ++ "/" ++ b)%string /\ identLit a /\ identLit b.

Definition leafNamed (vf : string * string) : Prop :=
  typeRef (fst vf) /\ (snd vf = "" \/ identLit (snd vf)).

Fixpoint identifiersOf (e : PermissionExpressionNode) : list string :=
  match e with
  | IdentifierNode v => [v]
  | BinaryOpNode _ l r => identifiersOf l ++ identifiersOf r
  end.

Fixpoint operatorsOf (e : PermissionExpressionNode) : list string :=
  match e with
  | IdentifierNode _ => []
  | BinaryOpNode o l r => operatorsOf l ++ o :: operatorsOf r
  end.

Definition relationNamed (r : RelationNode) : Prop :=
  identLit (rn_Name r) /\ Forall leafNamed (leaves (rn_Expression r)).

Definition permissionNamed (r : PermissionNode) : Prop :=
  identLit (pn_Name r) /\
  Forall identLit (identifiersOf (pn_Expression r)) /\
  Forall (fun o => o = "+" \/ o = "->") (operatorsOf (pn_Expression r)).

Definition wellNamed (d : DefinitionNode) : Prop :=
  identLit (ot_Name (dn_ObjectType d)) /\
  (ot_Prefix (dn_ObjectType d) = "" \/ identLit (ot_Prefix (dn_ObjectType d)))
  /\ Forall relationNamed (dn_Relations d)
  /\ Forall permissionNamed (dn_Permissions d).

(** A document with a prefixed definition, a union relation with a
    fragment and a permission with an arrow, and its tokens. *)
Definition memberSchema : string :=
  "definition t/d { relation r: a | b#c permission p = r + q->s }".

Definition memberSchemaTokens : list Token :=
  Eval vm_compute in
    match TokenizeAll (NewLexer memberSchema) with
    | Some ts => ts
    | None => []
    end.

(** The tokens of [definition d { relation r: a }], without positions. *)
Definition plainToken (ty : TokenType) (lit : string) : Token :=
  {| Type_ := ty; Literal := lit; Line := 0; Position := 0 |}.

Definition viewerDefinitionTokens : DefinitionTokens :=
  {| dt_keyword := plainToken DEFINITION "definition";
     dt_first := plainToken IDENTIFIER "d";
     dt_name := None;
     dt_lbrace := plainToken LBRACE "{";
     dt_members :=
       [ RelationMember
           {| rt_keyword := plainToken RELATION "relation";
              rt_name := plainToken IDENTIFIER "r";
              rt_colon := plainToken COLON ":";
              rt_first := {| st_type := plainToken IDENTIFIER "a";
                             st_name := None; st_fragment := None |};
              rt_more := [] |} ];
     dt_rbrace := plainToken RBRACE "}" |}.

(* ================================================================== *)
(** * The token a parse error names *)
(* ================================================================== *)

(** The token whose type, literal and line an error message prints: the
    [got] of the innermost error. *)
Fixpoint errorToken (e : error) : option Token :=
  match e with
  | ErrExpectedDefinition got => Some got
  | ErrConsume _ _ got => Some got
  | ErrObjectTypeFormat _ got => Some got
  | ErrExternal _ => None
  | ErrWrap _ _ cause => errorToken cause
  end.

(** Every error of [m] names the token the parser stands at when [m]
    returns. *)
Definition stopping {A : Type} (m : M A) : Prop :=
  forall p e p', m p = Some (Err e, p') -> errorToken e = Some (peek p').

(* ================================================================== *)
(** * Notions for the lexer *)
(* ================================================================== *)

(** Text that holds only white space and comments: each comment runs from
    [//] to the end of its line or of the text. *)
Inductive blank : list ascii -> Prop :=
| blank_nil : blank []
| blank_space : forall c r,
    isWhitespace c = true -> blank r -> blank (c :: r)
| blank_comment : forall c r,
    Forall (fun a => inComment a = true) c ->
    inComment (hd NUL r) = false ->
    blank r ->
    blank ("/"%char :: "/"%char :: c ++ r).

(** Two lexers at the same place, with the same byte, line and column,
    the input of [b] being that of [a] followed by a NUL byte and
    [tail]. *)
Definition sameUntilNUL (tail : list ascii) (a b : Lexer) : Prop :=
  wf a /\ wf b /\
  input b = input a ++ NUL :: tail /\
  position b = position a /\ position a <= List.length (input a) /\
  line b = line a /\ linePosition b = linePosition a.

(** The counters of the lexer agree with the bytes before its position:
    within the input, [line] is the line of the current byte, one more
    when that byte is a newline, and [linePosition] is its column, zero
    when it is a newline. *)
Definition counted (s : string) (l : Lexer) : Prop :=
  input l = chars s /\
  (position l <= List.length (chars s) ->
   line l
   = (lineOfOffset s (position l)
      + (if Ascii.eqb (ch l) LF then 1 else 0))%Z /\
   linePosition l
   = (if Ascii.eqb (ch l) LF then 0
      else columnOfOffset s (position l))%Z).

(** The number of input bytes a token stands for: one for an [ILLEGAL]
    token, whose literal can be longer than the byte it was made from,
    and the length of the literal for the others. *)
Definition tokenWidth (tok : Token) : nat :=
  match Type_ tok with
  | ILLEGAL => 1
  | _ => String.length (Literal tok)
  end.

(** The types of the tokens [readIdentifier] reads. *)
Definition isWord (t : TokenType) : bool :=
  match t with
  | IDENTIFIER | DEFINITION | RELATION | PERMISSION => true
  | _ => false
  end.

(** The token [tok] stands for the bytes of [s] from [start] to where
    the lexer [l'] stands after it: these bytes are its literal, or the
    byte at [start] is the one an [ILLEGAL] token was made from. *)
Definition textAt (s : string) (start : nat) (tok : Token) (l' : Lexer)
  : Prop :=
  start < List.length (chars s) /\
  position l' = start + tokenWidth tok /\
  position l' <= List.length (chars s) /\
  (Type_ tok <> ILLEGAL -> slice (chars s) start (position l') = Literal tok)
  /\
  (Type_ tok = ILLEGAL ->
   Literal tok = string_of_byte (nth start (chars s) NUL)).

(** The line and the position the token [tok] that starts at [start]
    records: the line and the column of [start], unless the token is an
    identifier or a keyword and the byte after it is a newline. *)
Definition recordedAt (s : string) (start : nat) (tok : Token)
  (l' : Lexer) : Prop :=
  if isWord (Type_ tok)
     && Ascii.eqb (nth (position l') (chars s) NUL) LF
  then Line tok = (lineOfOffset s start + 1)%Z /\
       Position tok = (- Z.of_nat (String.length (Literal tok)))%Z
  else Line tok = lineOfOffset s start /\
       Position tok = columnOfOffset s start.

(** The literals of the identifiers of a subject type and of a relation
    expression, as the lexer writes them. *)
Definition optLits (o : option (Token * Token)) : Prop :=
  match o with
  | Some (_, b) => identLit (Literal b)
  | None => True
  end.

Definition singleLits (s : SingleTokens) : Prop :=
  identLit (Literal (st_type s)) /\ optLits (st_name s) /\
  optLits (st_fragment s).

Definition unionLits (s0 : SingleTokens)
  (more : list (Token * SingleTokens)) : Prop :=
  singleLits s0 /\ Forall (fun os => singleLits (snd os)) more.

(** The bytes of a separator and the identifier after it, and of a
    subject type. *)
Definition optChars (sep : ascii) (o : option (Token * Token))
  : list ascii :=
  match o with
  | Some (_, b) => sep :: chars (Literal b)
  | None => []
  end.

Definition singleChars (s : SingleTokens) : list ascii :=
  chars (Literal (st_type s))
    ++ optChars "/" (st_name s) ++ optChars "#" (st_fragment s).

(** Two optional pairs with the same identifier. *)
Definition sameOpt (o o' : option (Token * Token)) : Prop :=
  match o, o' with
  | Some (_, b), Some (_, b') => Literal b = Literal b'
  | None, None => True
  | _, _ => False
  end.

(** Serialize, tokenize, parse as a relation expression: the result of
    the parse and the type of the token the parser is left at. *)
Definition reparseRelation (e : RelationExpressionNode)
  : option (result RelationExpressionNode * TokenType) :=
  ts <-- TokenizeAll (NewLexer (RelationExpression_String e)) ;;
  r <-- parseRelationExpression (NewParser ts) ;;
  Some (fst r, Type_ (peek (snd r))).

(* ################################################################## *)
(** * Part II: lemmas and theorems *)
(* ################################################################## *)

(* ================================================================== *)
(** * The lexer: the unread input *)
(* ================================================================== *)

Lemma hd_skipn_nth {A : Type} (d : A) (n : nat) (xs : list A) :
  hd d (skipn n xs) = nth n xs d.
Proof.
  revert xs; induction n as [|n IH]; intros [|x xs]; simpl; auto.
Qed.

Lemma tl_skipn {A : Type} (n : nat) (xs : list A) :
  tl (skipn n xs) = skipn (S n) xs.
Proof.
  revert xs; induction n as [|n IH]; intros [|x xs]; simpl; auto.
Qed.

Lemma takeWhile_dropWhile cond xs :
  takeWhile cond xs ++ dropWhile cond xs = xs.
Proof.
  induction xs as [|c r IH]; simpl; auto.
  destruct (cond c); simpl; congruence.
Qed.

Lemma takeWhile_Forall cond xs :
  Forall (fun c => cond c = true) (takeWhile cond xs).
Proof.
  induction xs as [|c r IH]; simpl; auto.
  destruct (cond c) eqn:E; auto.
Qed.

Lemma dropWhile_hd cond xs :
  cond NUL = false -> cond (hd NUL (dropWhile cond xs)) = false.
Proof.
  intros H0; induction xs as [|c r IH]; simpl; auto.
  destruct (cond c) eqn:E; simpl; auto.
Qed.

Lemma dropWhile_app cond xs rest :
  Forall (fun c => cond c = true) xs ->
  cond (hd NUL rest) = false ->
  dropWhile cond (xs ++ rest) = rest.
Proof.
  intros Hxs Hr; induction Hxs as [|c r Hc _ IH]; simpl.
  - destruct rest as [|c r]; simpl in *; auto. now rewrite Hr.
  - now rewrite Hc.
Qed.

Lemma takeWhile_app cond xs rest :
  Forall (fun c => cond c = true) xs ->
  cond (hd NUL rest) = false ->
  takeWhile cond (xs ++ rest) = xs.
Proof.
  intros Hxs Hr; induction Hxs as [|c r Hc _ IH]; simpl.
  - destruct rest as [|c r]; simpl in *; auto. now rewrite Hr.
  - rewrite Hc. now f_equal.
Qed.

Lemma dropWhile_length cond xs :
  List.length (dropWhile cond xs) <= List.length xs.
Proof.
  induction xs as [|c r IH]; simpl; auto.
  destruct (cond c); simpl; lia.
Qed.

Lemma readChar_ch (l : Lexer) :
  ch (readChar l) = hd NUL (skipn (readPosition l) (input l)).
Proof.
  unfold readChar; simpl. rewrite hd_skipn_nth.
  destruct (Nat.leb_spec (List.length (input l)) (readPosition l)); auto.
  now rewrite nth_overflow.
Qed.

Lemma readChar_wf (l : Lexer) : wf (readChar l).
Proof.
  split; [reflexivity|]. rewrite readChar_ch. reflexivity.
Qed.

Lemma readChar_input (l : Lexer) : input (readChar l) = input l.
Proof. reflexivity. Qed.

Lemma readChar_position (l : Lexer) :
  wf l -> position (readChar l) = S (position l).
Proof. intros [Hr _]. exact Hr. Qed.

Lemma readChar_remaining (l : Lexer) :
  wf l -> remaining (readChar l) = tl (remaining l).
Proof.
  intros [Hr _]. unfold remaining. rewrite tl_skipn.
  simpl. now rewrite Hr.
Qed.

Lemma peekChar_remaining (l : Lexer) :
  wf l -> peekChar l = hd NUL (tl (remaining l)).
Proof.
  intros [Hr _]. unfold peekChar, remaining.
  rewrite tl_skipn, hd_skipn_nth, Hr.
  destruct (Nat.leb_spec (List.length (input l)) (S (position l))); auto.
  now rewrite nth_overflow.
Qed.

Lemma NewLexer_wf (s : string) : wf (NewLexer s).
Proof. apply readChar_wf. Qed.

Lemma NewLexer_remaining (s : string) :
  remaining (NewLexer s) = list_ascii_of_string s.
Proof. reflexivity. Qed.

Lemma NewLexer_input (s : string) :
  input (NewLexer s) = list_ascii_of_string s.
Proof. reflexivity. Qed.

Lemma remaining_length (l : Lexer) :
  List.length (remaining l) = List.length (input l) - position l.
Proof. unfold remaining. now rewrite length_skipn. Qed.

(** One loop lemma for the three scanning loops: the loop stops, and it
    stops at the first byte that fails the condition. *)
Lemma readCharWhile_spec (cond : ascii -> bool) :
  cond NUL = false ->
  forall fuel l,
    wf l -> List.length (remaining l) <= fuel ->
    exists l',
      readCharWhile cond fuel l = Some l' /\ wf l' /\
      input l' = input l /\
      remaining l' = dropWhile cond (remaining l) /\
      position l' = position l + List.length (takeWhile cond (remaining l)).
Proof.
  intros H0. induction fuel as [|fuel IH]; intros l Hwf Hlen.
  - assert (remaining l = []) as E
      by (destruct (remaining l); simpl in *; [auto|lia]).
    exists l. simpl. pose proof Hwf as [Hr Hc]. rewrite Hc, E. simpl.
    rewrite H0. refine (conj _ (conj Hwf (conj _ (conj _ _)))); auto.
  - simpl. pose proof Hwf as [Hr Hc]. rewrite Hc.
    destruct (remaining l) as [|c r] eqn:E; simpl.
    + rewrite H0. exists l. rewrite E.
      refine (conj _ (conj Hwf (conj _ (conj _ _)))); auto.
    + destruct (cond c) eqn:Ec.
      * destruct (IH (readChar l)) as (l' & H1 & H2 & H3 & H4 & H5).
        { apply readChar_wf. }
        { rewrite readChar_remaining, E by assumption. simpl in *. lia. }
        exists l'. rewrite readChar_remaining, E in H4, H5 by assumption.
        rewrite readChar_position in H5 by assumption. simpl in H4, H5.
        refine (conj _ (conj H2 (conj _ (conj _ _)))); auto.
        simpl; lia.
      * exists l. rewrite E. simpl. try rewrite Ec.
        refine (conj _ (conj Hwf (conj _ (conj _ _)))); auto.
Qed.

Lemma remaining_le_scanFuel (l : Lexer) :
  List.length (remaining l) <= scanFuel l.
Proof. rewrite remaining_length. unfold scanFuel. lia. Qed.

Lemma isWhitespace_NUL : isWhitespace NUL = false.
Proof. reflexivity. Qed.

Lemma inComment_NUL : inComment NUL = false.
Proof. reflexivity. Qed.

Lemma isIdentChar_NUL : isIdentChar NUL = false.
Proof. reflexivity. Qed.

Lemma skipWhitespace_spec (l : Lexer) :
  wf l ->
  exists l',
    skipWhitespace l = Some l' /\ wf l' /\ input l' = input l /\
    remaining l' = dropWhile isWhitespace (remaining l).
Proof.
  intros Hwf.
  destruct (readCharWhile_spec isWhitespace isWhitespace_NUL (scanFuel l) l
              Hwf (remaining_le_scanFuel l)) as (l' & H1 & H2 & H3 & H4 & _).
  exists l'. auto.
Qed.

Lemma atComment_remaining (l : Lexer) :
  wf l ->
  atComment l = true ->
  exists r, remaining l = "/"%char :: "/"%char :: r.
Proof.
  intros Hwf H. unfold atComment in H.
  rewrite peekChar_remaining in H by assumption.
  destruct Hwf as [_ Hc]. rewrite Hc in H.
  apply andb_true_iff in H as [H1 H2].
  apply Ascii.eqb_eq in H1, H2.
  destruct (remaining l) as [|a [|b r]]; simpl in *; try discriminate.
  rewrite H1, H2. now exists r.
Qed.

Lemma skipComment_spec (l : Lexer) :
  wf l ->
  exists l',
    skipComment l = Some l' /\ wf l' /\ input l' = input l /\
    List.length (remaining l') <= List.length (remaining l) /\
    (atComment l = true ->
     List.length (remaining l') < List.length (remaining l)).
Proof.
  intros Hwf. unfold skipComment.
  destruct (atComment l) eqn:E.
  - destruct (readCharWhile_spec inComment inComment_NUL (scanFuel l) l
                Hwf (remaining_le_scanFuel l)) as (l' & H1 & H2 & H3 & H4 & _).
    exists l'. destruct (atComment_remaining l Hwf E) as [r Hr].
    rewrite H4, Hr. simpl.
    pose proof (dropWhile_length inComment r).
    refine (conj H1 (conj H2 (conj H3 (conj _ _)))); intros; lia.
  - exists l. refine (conj eq_refl (conj Hwf (conj eq_refl (conj _ _)))).
    + lia.
    + discriminate.
Qed.

Lemma skipComments_spec (fuel : nat) :
  forall l,
    wf l -> List.length (remaining l) <= fuel ->
    exists l',
      skipComments fuel l = Some l' /\ wf l' /\ input l' = input l /\
      atComment l' = false /\
      List.length (remaining l') <= List.length (remaining l).
Proof.
  induction fuel as [|fuel IH]; intros l Hwf Hlen.
  - simpl. destruct (atComment l) eqn:E.
    + destruct (atComment_remaining l Hwf E) as [r Hr].
      rewrite Hr in Hlen. simpl in Hlen. lia.
    + exists l. auto.
  - simpl. destruct (atComment l) eqn:E.
    + destruct (skipComment_spec l Hwf) as (l1 & A1 & A2 & A3 & A4 & A5).
      destruct (skipWhitespace_spec l1 A2) as (l2 & B1 & B2 & B3 & B4).
      rewrite A1. simpl. rewrite B1. simpl.
      specialize (A5 E).
      assert (List.length (remaining l2) <= List.length (remaining l1))
        by (rewrite B4; apply dropWhile_length).
      destruct (IH l2 B2) as (l' & C1 & C2 & C3 & C4 & C5); [lia|].
      exists l'. refine (conj C1 (conj C2 (conj _ (conj C4 _)))).
      * congruence.
      * lia.
    + exists l. auto.
Qed.

Lemma skipComments_id (fuel : nat) (l : Lexer) :
  atComment l = false -> skipComments fuel l = Some l.
Proof. intros H. destruct fuel; simpl; now rewrite H. Qed.

Lemma readIdentifier_spec (l : Lexer) :
  wf l ->
  exists l',
    readIdentifier l
    = Some (string_of_list_ascii (takeWhile isIdentChar (remaining l)), l') /\
    wf l' /\ input l' = input l /\
    remaining l' = dropWhile isIdentChar (remaining l).
Proof.
  intros Hwf. unfold readIdentifier.
  destruct (readCharWhile_spec isIdentChar isIdentChar_NUL (scanFuel l) l
              Hwf (remaining_le_scanFuel l)) as (l' & H1 & H2 & H3 & H4 & H5).
  exists l'. rewrite H1. simpl. unfold slice.
  replace (position l' - position l)
    with (List.length (takeWhile isIdentChar (remaining l))) by lia.
  fold (remaining l).
  rewrite <- (takeWhile_dropWhile isIdentChar (remaining l)) at 2.
  rewrite firstn_app, Nat.sub_diag, firstn_all. simpl. rewrite app_nil_r.
  auto.
Qed.

Lemma lookupIdent_IDENTIFIER (lit : string) :
  lookupIdent lit = IDENTIFIER -> keywords lit = None.
Proof.
  unfold lookupIdent, keywords.
  destruct (String.eqb lit "definition"); [discriminate|].
  destruct (String.eqb lit "relation"); [discriminate|].
  destruct (String.eqb lit "permission"); [discriminate|auto].
Qed.

Lemma lookupIdent_cases (lit : string) :
  lookupIdent lit = IDENTIFIER \/ lookupIdent lit = DEFINITION \/
  lookupIdent lit = RELATION \/ lookupIdent lit = PERMISSION.
Proof.
  unfold lookupIdent, keywords.
  destruct (String.eqb lit "definition"); auto.
  destruct (String.eqb lit "relation"); auto.
  destruct (String.eqb lit "permission"); auto.
Qed.

Lemma ch_nonNUL_remaining (l : Lexer) :
  wf l -> ch l <> NUL ->
  List.length (tl (remaining l)) < List.length (remaining l).
Proof.
  intros [_ Hc] Hn. rewrite Hc in Hn.
  destruct (remaining l); simpl in *; [congruence|lia].
Qed.

Arguments readChar : simpl never.

(** Case analysis on the current byte, as the [switch] does it. *)
Ltac case_ch l :=
  let E := fresh "E" in
  match goal with
  | |- context [Ascii.eqb (ch l) ?c] =>
      destruct (Ascii.eqb (ch l) c) eqn:E;
      [apply Ascii.eqb_eq in E|]
  end.

Lemma switchToken_spec (recur : Lexer -> option (Token * Lexer)) (l : Lexer) :
  wf l -> atComment l = false ->
  exists tok l',
    switchToken recur l = Some (tok, l') /\ wf l' /\ input l' = input l /\
    tokenOK tok /\
    (Type_ tok <> EOF ->
     List.length (remaining l') < List.length (remaining l)) /\
    (Type_ tok = EOF -> List.length (remaining l') <= List.length (remaining l)) /\
    (unrecognized (ch l) = true ->
     tok = charToken ILLEGAL l /\ l' = readChar l).
Proof.
  intros Hwf Hac.
  assert (Hsingle : forall t,
             ch l <> NUL -> t <> EOF ->
             (t <> ILLEGAL -> unrecognized (ch l) = false) ->
             match t with
             | IDENTIFIER | MINUS_ARROW => False
             | PLUS => ch l = "+"%char
             | _ => True
             end ->
             exists tok l',
               Some (charToken t l, readChar l) = Some (tok, l') /\
               wf l' /\ input l' = input l /\ tokenOK tok /\
               (Type_ tok <> EOF ->
                List.length (remaining l') < List.length (remaining l)) /\
               (Type_ tok = EOF ->
                List.length (remaining l') <= List.length (remaining l)) /\
               (unrecognized (ch l) = true ->
                tok = charToken ILLEGAL l /\ l' = readChar l)).
  { intros t Hn Ht Hu Hk. exists (charToken t l), (readChar l).
    pose proof (ch_nonNUL_remaining l Hwf Hn) as Hlt.
    rewrite <- readChar_remaining in Hlt by assumption.
    refine (conj eq_refl (conj (readChar_wf l) (conj eq_refl
              (conj _ (conj _ (conj _ _)))))).
    - unfold tokenOK, charToken; simpl.
      destruct t; auto; try contradiction. now rewrite Hk.
    - intros _. exact Hlt.
    - intros _. lia.
    - intros U. destruct t; try (rewrite Hu in U; [discriminate|discriminate]).
      auto. }
  unfold switchToken.
  case_ch l. { apply Hsingle; auto; try discriminate; rewrite E; [discriminate|reflexivity]. }
  case_ch l. { apply Hsingle; auto; try discriminate; rewrite E0; [discriminate|reflexivity]. }
  case_ch l. { apply Hsingle; auto; try discriminate; rewrite E1; [discriminate|reflexivity]. }
  case_ch l. { apply Hsingle; auto; try discriminate; rewrite E2; [discriminate|reflexivity]. }
  case_ch l. { apply Hsingle; auto; try discriminate; rewrite E3; [discriminate|reflexivity]. }
  case_ch l. { apply Hsingle; auto; try discriminate; rewrite E4; [discriminate|reflexivity]. }
  case_ch l. { apply Hsingle; auto; try discriminate; rewrite E5; [discriminate|reflexivity]. }
  case_ch l.
  { unfold atComment in Hac. rewrite E6 in Hac. simpl in Hac. rewrite Hac.
    apply Hsingle; auto; try discriminate; rewrite E6; [discriminate|reflexivity]. }
  case_ch l. { apply Hsingle; auto; try discriminate; rewrite E7; [discriminate|reflexivity]. }
  case_ch l.
  { destruct (Ascii.eqb (peekChar l) ">") eqn:Ep.
    - apply Ascii.eqb_eq in Ep.
      rewrite peekChar_remaining in Ep by assumption.
      pose proof Hwf as [_ Hc]. rewrite Hc in E8.
      destruct (remaining l) as [|a [|b r]] eqn:Er; simpl in Ep, E8;
        try discriminate.
      subst a b.
      assert (ch (readChar l) = ">"%char) as Hc1.
      { pose proof (readChar_wf l) as [_ H]. rewrite H.
        rewrite readChar_remaining, Er by assumption. reflexivity. }
      eexists _, _. split; [reflexivity|].
      refine (conj (readChar_wf _) (conj eq_refl (conj _ (conj _ (conj _ _))))).
      + unfold tokenOK; cbn [Type_ Literal]. rewrite Hc, Hc1. reflexivity.
      + intros _.
        rewrite !readChar_remaining, Er by (auto using readChar_wf).
        simpl. lia.
      + discriminate.
      + rewrite Hc. discriminate.
    - apply Hsingle; auto; try discriminate; rewrite E8; [discriminate|reflexivity]. }
  case_ch l.
  { eexists _, _. split; [reflexivity|].
    refine (conj (readChar_wf _) (conj eq_refl (conj _ (conj _ (conj _ _))))).
    - exact I.
    - simpl. congruence.
    - intros _. rewrite readChar_remaining by assumption.
      destruct (remaining l); simpl; lia.
    - rewrite E9. discriminate. }
  destruct (isLetter (ch l)) eqn:El.
  - destruct (readIdentifier_spec l Hwf) as (l' & H1 & H2 & H3 & H4).
    rewrite H1. simpl. eexists _, _. split; [reflexivity|].
    pose proof Hwf as [_ Hc].
    destruct (remaining l) as [|c r] eqn:Er.
    { rewrite Hc in El. discriminate. }
    simpl in Hc. rewrite Hc in El.
    assert (Hic : isIdentChar c = true) by (unfold isIdentChar; now rewrite El).
    refine (conj H2 (conj H3 (conj _ (conj _ (conj _ _))))).
    + unfold tokenOK; cbn [Type_ Literal].
      destruct (lookupIdent_cases
                  (string_of_list_ascii (takeWhile isIdentChar (c :: r))))
        as [K|[K|[K|K]]]; rewrite K; auto.
      split; [|now apply lookupIdent_IDENTIFIER].
      unfold isIdentifierText.
      rewrite list_ascii_of_string_of_list_ascii. simpl. rewrite Hic, El.
      simpl. apply forallb_forall. intros x Hx.
      pose proof (takeWhile_Forall isIdentChar r) as F.
      rewrite Forall_forall in F. now apply F.
    + intros _. rewrite H4. simpl. rewrite Hic.
      pose proof (dropWhile_length isIdentChar r). simpl. lia.
    + intros _. rewrite H4. apply dropWhile_length.
    + unfold unrecognized. rewrite Hc, El.
      rewrite orb_true_r. discriminate.
  - apply Hsingle; auto; try discriminate.
    + intros E10'. rewrite E10' in E9. discriminate.
    + intros H; contradiction.
Qed.

Lemma NextToken_fuel_eq (fuel : nat) (l : Lexer) :
  NextToken_fuel fuel l
  = (l <-- skipWhitespace l ;;
     l <-- skipComments (scanFuel l) l ;;
     switchToken (match fuel with
                  | 0 => fun _ : Lexer => None
                  | S fuel' => NextToken_fuel fuel'
                  end) l).
Proof. destruct fuel; reflexivity. Qed.

(** [NextToken] returns from every state, whatever the fuel of the
    recursive call: the comment loop leaves no comment for the ['/'] case
    to find. *)
Lemma NextToken_fuel_spec (fuel : nat) (l : Lexer) :
  wf l ->
  exists l0 l1 tok l',
    skipWhitespace l = Some l0 /\
    skipComments (scanFuel l0) l0 = Some l1 /\
    NextToken_fuel fuel l = Some (tok, l') /\
    wf l' /\ input l' = input l /\ tokenOK tok /\
    (Type_ tok <> EOF ->
     List.length (remaining l') < List.length (remaining l)) /\
    (unrecognized (ch l1) = true ->
     tok = charToken ILLEGAL l1 /\ l' = readChar l1).
Proof.
  intros Hwf.
  destruct (skipWhitespace_spec l Hwf) as (l0 & A1 & A2 & A3 & A4).
  destruct (skipComments_spec (scanFuel l0) l0 A2 (remaining_le_scanFuel l0))
    as (l1 & B1 & B2 & B3 & B4 & B5).
  set (recur := match fuel with
                | 0 => fun _ : Lexer => None
                | S fuel' => NextToken_fuel fuel'
                end).
  destruct (switchToken_spec recur l1 B2 B4)
    as (tok & l' & C1 & C2 & C3 & C4 & C5 & _ & C7).
  exists l0, l1, tok, l'.
  refine (conj A1 (conj B1 (conj _ (conj C2 (conj _ (conj C4 (conj _ C7))))))).
  - rewrite NextToken_fuel_eq, A1. cbn [obind]. rewrite B1. exact C1.
  - congruence.
  - intros Hne. specialize (C5 Hne).
    assert (List.length (remaining l0) <= List.length (remaining l))
      by (rewrite A4; apply dropWhile_length).
    lia.
Qed.

Lemma TokenType_eqb_eq (a b : TokenType) :
  TokenType_eqb a b = true <-> a = b.
Proof. split; [destruct a, b; simpl; congruence|intros ->; destruct b; auto]. Qed.

Lemma TokenType_eqb_neq (a b : TokenType) :
  TokenType_eqb a b = false <-> a <> b.
Proof.
  split.
  - intros H E. apply TokenType_eqb_eq in E. congruence.
  - intros H. destruct (TokenType_eqb a b) eqn:E; auto.
    apply TokenType_eqb_eq in E. contradiction.
Qed.

Lemma TokenizeAll_fuel_spec (fuel : nat) :
  forall l acc,
    wf l -> List.length (remaining l) < fuel ->
    exists body t,
      TokenizeAll_fuel fuel l acc = Some (acc ++ body ++ [t]) /\
      Type_ t = EOF /\
      Forall (fun t => Type_ t <> EOF) body /\
      Forall tokenOK body.
Proof.
  induction fuel as [|fuel IH]; intros l acc Hwf Hlen; [lia|].
  destruct (NextToken_fuel_spec (scanFuel l) l Hwf)
    as (l0 & l1 & tok & l' & _ & _ & N & W & I & K & P & _).
  simpl. unfold NextToken. rewrite N. simpl.
  destruct (TokenType_eqb (Type_ tok) EOF) eqn:E.
  - apply TokenType_eqb_eq in E. exists [], tok. simpl. auto.
  - apply TokenType_eqb_neq in E. specialize (P E).
    destruct (IH l' (acc ++ [tok]) W) as (body & t & R1 & R2 & R3 & R4);
      [lia|].
    exists (tok :: body), t. rewrite R1, <- app_assoc. simpl. auto.
Qed.

(** [TokenizeAll] returns for every input. *)
Lemma TokenizeAll_total (s : string) :
  exists body t,
    TokenizeAll (NewLexer s) = Some (body ++ [t]) /\
    Type_ t = EOF /\
    Forall (fun t => Type_ t <> EOF) body /\
    Forall tokenOK body.
Proof.
  unfold TokenizeAll.
  apply (TokenizeAll_fuel_spec _ (NewLexer s) [] (NewLexer_wf s)).
  pose proof (remaining_le_scanFuel (NewLexer s)). lia.
Qed.

(* ================================================================== *)
(** * The parser: the unread tokens *)
(* ================================================================== *)

Lemma peek_rest (p : Parser) : peek p = hd eofToken (rest p).
Proof.
  unfold peek, rest.
  destruct (Nat.leb_spec (List.length (tokens p)) (current p)) as [H|H].
  - now rewrite skipn_all2.
  - rewrite hd_skipn_nth. now apply nth_indep.
Qed.

Lemma advance_tokens (p : Parser) : tokens (advance p) = tokens p.
Proof. unfold advance. now destruct (current p <? _)%nat. Qed.

Lemma advance_Definitions (p : Parser) :
  Definitions (advance p) = Definitions p.
Proof. unfold advance. now destruct (current p <? _)%nat. Qed.

Lemma advance_rest (p : Parser) : rest (advance p) = tl (rest p).
Proof.
  unfold advance, rest.
  destruct (Nat.ltb_spec (current p) (List.length (tokens p))) as [H|H]; simpl.
  - now rewrite tl_skipn.
  - now rewrite skipn_all2.
Qed.

Lemma rest_length (p : Parser) :
  List.length (rest p) <= List.length (tokens p).
Proof. unfold rest. rewrite length_skipn. lia. Qed.

Lemma rest_lt_loopFuel (p : Parser) : List.length (rest p) < loopFuel p.
Proof. pose proof (rest_length p). unfold loopFuel. lia. Qed.

Lemma NewParser_rest (ts : list Token) : rest (NewParser ts) = ts.
Proof. reflexivity. Qed.

Lemma passes_refl (p : Parser) : passes p p.
Proof. now exists []. Qed.

Lemma passes_trans (p1 p2 p3 : Parser) :
  passes p1 p2 -> passes p2 p3 -> passes p1 p3.
Proof.
  intros (pre1 & R1 & F1) (pre2 & R2 & F2).
  exists (pre1 ++ pre2). rewrite R1, R2, app_assoc.
  split; auto. now apply Forall_app.
Qed.

Lemma extends_refl (p : Parser) : extends p p.
Proof. split; auto. split; auto. apply passes_refl. Qed.

Lemma extends_trans (p1 p2 p3 : Parser) :
  extends p1 p2 -> extends p2 p3 -> extends p1 p3.
Proof.
  intros [T1 [D1 P1]] [T2 [D2 P2]].
  split; [congruence|]. split; [congruence|].
  eapply passes_trans; eassumption.
Qed.

Lemma extends_length (p p' : Parser) :
  extends p p' -> List.length (rest p') <= List.length (rest p).
Proof.
  intros [_ [_ (pre & R & _)]]. rewrite R, length_app. lia.
Qed.

Lemma extends_loopFuel (p p' : Parser) :
  extends p p' -> loopFuel p' = loopFuel p.
Proof. intros [T _]. unfold loopFuel. now rewrite T. Qed.

Lemma runs_ret {A : Type} (a : A) (p : Parser) (Q : A -> Parser -> Prop) :
  Q a p -> runs (ret a) p false Q.
Proof.
  intros H. exists (Ok a), p.
  refine (conj eq_refl (conj (extends_refl p) (conj H _))). discriminate.
Qed.

Lemma runs_fail {A : Type} (e : error) (p : Parser) (s : bool)
  (Q : A -> Parser -> Prop) :
  runs (fail e) p s Q.
Proof. exists (Err e), p. exact (conj eq_refl (conj (extends_refl p) I)). Qed.

Lemma runs_bind {A B : Type} (m : M A) (k : A -> M B) (p : Parser)
  (s1 s2 : bool) (Q1 : A -> Parser -> Prop) (Q2 : B -> Parser -> Prop) :
  runs m p s1 Q1 ->
  (forall a p1,
      Q1 a p1 -> extends p p1 ->
      (s1 = true -> List.length (rest p1) < List.length (rest p)) ->
      runs (k a) p1 s2 Q2) ->
  runs (bind m k) p (s1 || s2) Q2.
Proof.
  intros (r & p1 & E1 & X1 & H1) Hk.
  destruct r as [a|e].
  - destruct H1 as [HQ HS].
    destruct (Hk a p1 HQ X1 HS) as (r2 & p2 & E2 & X2 & H2).
    exists r2, p2. split; [unfold bind; now rewrite E1|].
    split; [eauto using extends_trans|].
    destruct r2 as [b|e]; auto. destruct H2 as [HQ2 HS2]. split; auto.
    intros Hs. pose proof (extends_length _ _ X1).
    pose proof (extends_length _ _ X2).
    apply orb_true_iff in Hs as [Hs|Hs]; [specialize (HS Hs)|specialize (HS2 Hs)]; lia.
  - exists (Err e), p1. split; [unfold bind; now rewrite E1|]. auto.
Qed.

Lemma runs_weaken {A : Type} (m : M A) (p : Parser) (s s' : bool)
  (Q Q' : A -> Parser -> Prop) :
  runs m p s Q ->
  (forall a p', Q a p' -> Q' a p') ->
  (s' = true -> s = true) ->
  runs m p s' Q'.
Proof.
  intros (r & p' & E & X & H) HQ Hs. exists r, p'.
  refine (conj E (conj X _)).
  destruct r; auto. destruct H. split; auto.
Qed.

Lemma runs_wrapping {A : Type} (format : string) (args : list string)
  (m : M A) (p : Parser) (s : bool) (Q : A -> Parser -> Prop) :
  runs m p s Q -> runs (wrapping format args m) p s Q.
Proof.
  intros (r & p' & E & X & H).
  destruct r as [a|e];
    [exists (Ok a), p'|exists (Err (ErrWrap format args e)), p'];
    (split; [unfold wrapping; now rewrite E|auto]).
Qed.

Lemma runs_consume (t : TokenType) (p : Parser) :
  consumable t = true ->
  runs (consume t) p true (fun tok _ => Type_ tok = t).
Proof.
  intros Ht.
  destruct (TokenType_eqb (Type_ (peek p)) t) eqn:E.
  - exists (Ok (peek p)), (advance p).
    split; [unfold consume; now rewrite E|].
    apply TokenType_eqb_eq in E. rewrite peek_rest in *.
    destruct (rest p) as [|tok r] eqn:Er.
    { simpl in E. subst t. discriminate. }
    simpl in E. split.
    + split; [apply advance_tokens|]. split; [apply advance_Definitions|].
      exists [tok].
      rewrite advance_rest, Er. simpl. split; auto.
      constructor; auto. now rewrite E.
    + split; auto. intros _. rewrite advance_rest, Er. simpl. lia.
  - eexists (Err _), p. split; [unfold consume; now rewrite E|].
    split; auto using extends_refl.
Qed.

Lemma runs_bind' {A B : Type} (m : M A) (k : A -> M B) (p : Parser)
  (s s1 s2 : bool) (Q1 : A -> Parser -> Prop) (Q2 : B -> Parser -> Prop) :
  runs m p s1 Q1 ->
  (forall a p1,
      Q1 a p1 -> extends p p1 ->
      (s1 = true -> List.length (rest p1) < List.length (rest p)) ->
      runs (k a) p1 s2 Q2) ->
  (s = true -> s1 || s2 = true) ->
  runs (bind m k) p s Q2.
Proof.
  intros H1 H2 Hs. eapply runs_weaken; [eapply runs_bind; eassumption| |];
    auto.
Qed.

Lemma runs_ext {A : Type} (m m' : M A) (p : Parser) (s : bool)
  (Q : A -> Parser -> Prop) :
  m p = m' p -> runs m' p s Q -> runs m p s Q.
Proof. intros E (r & p' & H). exists r, p'. now rewrite E. Qed.

Lemma runs_if {A : Type} (c : Parser -> bool) (m1 m2 : M A) (p : Parser)
  (s : bool) (Q : A -> Parser -> Prop) :
  (c p = true -> runs m1 p s Q) ->
  (c p = false -> runs m2 p s Q) ->
  runs (fun p => if c p then m1 p else m2 p) p s Q.
Proof.
  intros H1 H2. unfold runs. cbv beta.
  destruct (c p); [now apply H1|now apply H2].
Qed.

(** Split on a test of the parser state at the head of a method. *)
Ltac run_if c :=
  let E := fresh "E" in
  apply (runs_if c); intros E.

(** One statement [x, err := p.consume(t); if err != nil { return }]. *)
Ltac run_consume :=
  match goal with
  | |- runs _ _ ?s _ => try (is_evar s; unify s false)
  end;
  eapply runs_bind';
  [ first [ apply runs_wrapping; apply runs_consume; reflexivity
          | apply runs_consume; reflexivity ]
  | let a := fresh "tok" in
    let p1 := fresh "p" in
    let Ha := fresh "Htok" in
    let X := fresh "X" in
    let S := fresh "S" in
    intros a p1 Ha X S; specialize (S eq_refl)
  | try (intros _; reflexivity); try discriminate ].

Lemma runs_parseSingleRelation (p : Parser) :
  runs parseSingleRelation p true anything.
Proof.
  unfold parseSingleRelation.
  run_consume.
  eapply runs_bind' with (s1 := false) (s2 := false) (Q1 := anything).
  - run_if (peekIs SLASH).
    + run_consume. run_consume. apply runs_ret. exact I.
    + apply runs_ret. exact I.
  - intros relationType p1 _ X1 _.
    run_if (peekIs HASH).
    + run_consume. run_consume. apply runs_ret. exact I.
    + apply runs_ret. exact I.
  - exact (fun H => H).
Qed.

(** A call [m] made as the last statement after the calls before it. *)
Ltac run_call lem :=
  match goal with
  | |- runs _ _ ?s _ => try (is_evar s; unify s false)
  end;
  eapply runs_bind';
  [ first [ apply runs_wrapping; apply lem | apply lem ]
  | let a := fresh "a" in
    let p1 := fresh "p" in
    let X := fresh "X" in
    let S := fresh "S" in
    intros a p1 _ X S
  | try (intros _; reflexivity); try discriminate; try exact (fun H => H) ].

Lemma runs_parseRelationExpression_loop (fuel : nat) :
  forall left p,
    List.length (rest p) < fuel ->
    runs (parseRelationExpression_loop fuel left) p false anything.
Proof.
  induction fuel as [|fuel IH]; intros left p Hlen; [lia|].
  simpl. run_if (peekIs PIPE).
  - run_consume. run_call runs_parseSingleRelation.
    apply IH. specialize (S0 eq_refl). lia.
  - apply runs_ret. exact I.
Qed.

Lemma runs_parseRelationExpression (p : Parser) :
  runs parseRelationExpression p true anything.
Proof.
  unfold parseRelationExpression.
  run_call runs_parseSingleRelation.
  eapply runs_ext; [reflexivity|].
  apply runs_parseRelationExpression_loop. apply rest_lt_loopFuel.
Qed.

Lemma runs_parseRelation (p : Parser) : runs parseRelation p true anything.
Proof.
  unfold parseRelation.
  run_consume. run_consume. run_consume.
  run_call runs_parseRelationExpression.
  apply runs_ret. exact I.
Qed.

Lemma runs_parseIdentifierChain_loop (fuel : nat) :
  forall left p,
    List.length (rest p) < fuel ->
    runs (parseIdentifierChain_loop fuel left) p false anything.
Proof.
  induction fuel as [|fuel IH]; intros left p Hlen; [lia|].
  simpl. run_if (peekIs MINUS_ARROW).
  - run_consume. run_consume. apply IH. lia.
  - apply runs_ret. exact I.
Qed.

Lemma runs_parseIdentifierChain (p : Parser) :
  runs parseIdentifierChain p true anything.
Proof.
  unfold parseIdentifierChain.
  run_consume.
  eapply runs_ext; [reflexivity|].
  apply runs_parseIdentifierChain_loop. apply rest_lt_loopFuel.
Qed.

Lemma runs_parseAdditiveExpression_loop (fuel : nat) :
  forall left p,
    List.length (rest p) < fuel ->
    runs (parseAdditiveExpression_loop fuel left) p false anything.
Proof.
  induction fuel as [|fuel IH]; intros left p Hlen; [lia|].
  simpl. run_if (peekIs PLUS).
  - run_consume. run_call runs_parseIdentifierChain.
    apply IH. specialize (S0 eq_refl). lia.
  - apply runs_ret. exact I.
Qed.

Lemma runs_parseAdditiveExpression (p : Parser) :
  runs parseAdditiveExpression p true anything.
Proof.
  unfold parseAdditiveExpression.
  run_call runs_parseIdentifierChain.
  eapply runs_ext; [reflexivity|].
  apply runs_parseAdditiveExpression_loop. apply rest_lt_loopFuel.
Qed.

Lemma runs_parsePermission (p : Parser) :
  runs parsePermission p true anything.
Proof.
  unfold parsePermission.
  run_consume. run_consume. run_consume.
  run_call runs_parseAdditiveExpression.
  apply runs_ret. exact I.
Qed.

Lemma runs_parseDefinition_loop (fuel : nat) :
  forall def p,
    List.length (rest p) < fuel ->
    runs (parseDefinition_loop fuel def) p false anything.
Proof.
  induction fuel as [|fuel IH]; intros def p Hlen; [lia|].
  simpl. run_if (fun p => peekIs RELATION p || peekIs PERMISSION p).
  - run_if (peekIs RELATION).
    + run_call runs_parseRelation. apply IH. specialize (S eq_refl). lia.
    + run_if (peekIs PERMISSION).
      * run_call runs_parsePermission. apply IH. specialize (S eq_refl). lia.
      * rewrite E0, E1 in E. discriminate.
  - apply runs_ret. exact I.
Qed.

Lemma runs_parseDefinition (p : Parser) :
  runs parseDefinition p true anything.
Proof.
  unfold parseDefinition.
  run_consume. run_consume.
  eapply runs_bind' with (s1 := false) (s2 := false) (Q1 := anything).
  - run_if (peekIs SLASH).
    + run_consume. run_consume. apply runs_ret. exact I.
    + run_if (peekIs LBRACE).
      * apply runs_ret. exact I.
      * apply runs_fail.
  - intros [ot objectTypeName] q1 _ X1 _.
    run_consume.
    eapply runs_bind'
      with (s := false) (s1 := false) (s2 := false) (Q1 := anything).
    + eapply runs_ext; [reflexivity|].
      apply runs_parseDefinition_loop. apply rest_lt_loopFuel.
    + intros def q3 _ X3 _. run_consume. apply runs_ret. exact I.
    + discriminate.
  - exact (fun H => H).
Qed.

Lemma returnsAll_ParseDefinitions_loop (Q : list Token -> DefinitionNode -> Prop)
  (HQ : forall p, runs parseDefinition p true (fun def _ => Q (tokens p) def))
  (fuel : nat) :
  forall p,
    List.length (rest p) < fuel ->
    Forall (Q (tokens p)) (Definitions p) ->
    returnsAll (ParseDefinitions_loop fuel) p (Q (tokens p)).
Proof.
  induction fuel as [|fuel IH]; intros p Hlen Hdefs; [lia|].
  unfold returnsAll. simpl.
  destruct (negb (peekIs EOF p)) eqn:E.
  - destruct (negb (peekIs DEFINITION p)) eqn:E'.
    + eexists (Err _), p. split; [reflexivity|].
      split; [reflexivity|]. split; [apply passes_refl|exact I].
    + destruct (HQ p) as (r & p0 & E0 & [T0 [D0 P0]] & H0).
      unfold bind. rewrite E0. destruct r as [def|e].
      * destruct H0 as [Hdef S]. specialize (S eq_refl).
        set (p1 := {| tokens := tokens p0; current := current p0;
                      Definitions := Definitions p0 ++ [def] |}).
        destruct (IH p1) as (r & p' & R1 & R2 & R3 & R4).
        { change (rest p1) with (rest p0). lia. }
        { cbn [tokens Definitions p1]. rewrite T0, D0.
          apply Forall_app. split; [exact Hdefs|]. constructor; auto. }
        exists r, p'. split; [exact R1|].
        cbn [tokens p1] in R2, R4. rewrite T0 in R2, R4.
        split; [exact R2|]. split; [|exact R4].
        eapply passes_trans; [exact P0|exact R3].
      * exists (Err e), p0. split; [reflexivity|].
        split; [exact T0|]. split; [exact P0|exact I].
  - exists (Ok (Definitions p)), p. split; [reflexivity|].
    split; [reflexivity|]. split; [apply passes_refl|].
    split; [now apply negb_false_iff in E|exact Hdefs].
Qed.

Lemma returnsAll_ParseDefinitions (Q : list Token -> DefinitionNode -> Prop)
  (HQ : forall p, runs parseDefinition p true (fun def _ => Q (tokens p) def))
  (ts : list Token) :
  returnsAll ParseDefinitions (NewParser ts) (Q ts).
Proof.
  unfold ParseDefinitions.
  apply (returnsAll_ParseDefinitions_loop Q HQ); [apply rest_lt_loopFuel|].
  constructor.
Qed.

(* ================================================================== *)
(** * The parser on a known token sequence *)
(* ================================================================== *)

Lemma yields_ret {A : Type} (a : A) (p : Parser) :
  yields (ret a) p a (rest p).
Proof. exists p. auto. Qed.

Lemma yields_bind {A B : Type} (m : M A) (k : A -> M B) (p : Parser)
  (a : A) (b : B) (r1 r2 : list Token) :
  yields m p a r1 ->
  (forall p1, tokens p1 = tokens p -> rest p1 = r1 -> yields (k a) p1 b r2) ->
  yields (bind m k) p b r2.
Proof.
  intros (p1 & E1 & T1 & R1) Hk.
  destruct (Hk p1 T1 R1) as (p2 & E2 & T2 & R2).
  exists p2. unfold bind. rewrite E1. split; [exact E2|]. split; congruence.
Qed.

Lemma yields_wrapping {A : Type} (format : string) (args : list string)
  (m : M A) (p : Parser) (a : A) (r : list Token) :
  yields m p a r -> yields (wrapping format args m) p a r.
Proof.
  intros (p' & E & T & R). exists p'. unfold wrapping. now rewrite E.
Qed.

Lemma yields_consume (ty : TokenType) (p : Parser) (t : Token)
  (r : list Token) :
  rest p = t :: r -> Type_ t = ty -> yields (consume ty) p t r.
Proof.
  intros Hr Ht. exists (advance p). unfold consume.
  rewrite peek_rest, Hr. simpl. rewrite Ht.
  replace (TokenType_eqb ty ty) with true
    by (symmetry; now apply TokenType_eqb_eq).
  rewrite advance_tokens, advance_rest, Hr. auto.
Qed.

Lemma yields_ext {A : Type} (m m' : M A) (p : Parser) (a : A)
  (r : list Token) :
  m p = m' p -> yields m' p a r -> yields m p a r.
Proof. intros E (p' & H). exists p'. now rewrite E. Qed.

Lemma peekIs_rest (ty : TokenType) (p : Parser) :
  peekIs ty p = TokenType_eqb (Type_ (hd eofToken (rest p))) ty.
Proof. unfold peekIs. now rewrite peek_rest. Qed.

Lemma parseIdentifierChain_loop_yields (more : list (Token * Token)) :
  forall fuel left p r,
    List.length more < fuel ->
    rest p = flat_map (fun oa => [fst oa; snd oa]) more ++ r ->
    Forall (fun oa => Type_ (fst oa) = MINUS_ARROW
                      /\ Type_ (snd oa) = IDENTIFIER) more ->
    stopsAt MINUS_ARROW r ->
    yields (parseIdentifierChain_loop fuel left) p
      (fold_left (fun l oa => binaryNode (fst oa) l (identLeaf (snd oa)))
         more left) r.
Proof.
  induction more as [|[o i] more IH]; intros fuel left p r Hf Hr Hty Hstop.
  - simpl in *. destruct fuel; [lia|]. simpl.
    eapply yields_ext.
    { rewrite peekIs_rest, Hr.
      replace (TokenType_eqb _ MINUS_ARROW) with false
        by (symmetry; now apply TokenType_eqb_neq).
      reflexivity. }
    rewrite <- Hr. apply yields_ret.
  - destruct fuel; [simpl in Hf; lia|]. simpl in Hr.
    inversion Hty as [|? ? [Ho Hi] Hty']; subst. simpl in Ho, Hi.
    simpl.
    eapply yields_ext.
    { rewrite peekIs_rest, Hr. simpl. rewrite Ho. reflexivity. }
    eapply yields_bind; [now apply (yields_consume _ _ _ _ Hr)|].
    intros p1 T1 R1.
    eapply yields_bind; [now apply (yields_consume _ _ _ _ R1)|].
    intros p2 T2 R2. apply IH; auto. simpl in Hf. lia.
Qed.

Lemma flat_map_length_le {A : Type} (f : A -> list Token) (xs : list A) :
  (forall a, 1 <= List.length (f a)) ->
  List.length xs <= List.length (flat_map f xs).
Proof.
  intros H. induction xs as [|a xs IH]; simpl; auto.
  rewrite length_app. specialize (H a). lia.
Qed.

Lemma parseIdentifierChain_yields (c : ChainTokens) (p : Parser)
  (r : list Token) :
  rest p = chainTokens c ++ r ->
  chainTyped c -> stopsAt MINUS_ARROW r ->
  yields parseIdentifierChain p (chainTree c) r.
Proof.
  destruct c as [i0 more]. unfold chainTokens, chainTree, chainTyped. simpl.
  intros Hr [H0 Hmore] Hstop. unfold parseIdentifierChain.
  eapply yields_bind; [now apply (yields_consume _ _ _ _ Hr)|].
  intros p1 T1 R1. eapply yields_ext; [reflexivity|].
  apply parseIdentifierChain_loop_yields; auto.
  pose proof (rest_lt_loopFuel p1) as L. rewrite R1, length_app in L.
  pose proof (flat_map_length_le (fun oa : Token * Token => [fst oa; snd oa])
                more) as F.
  simpl in F. specialize (F (fun _ => le_S _ _ (le_n 1))). lia.
Qed.

Lemma parseAdditiveExpression_loop_yields (more : list (Token * ChainTokens)) :
  forall fuel left p r,
    List.length more < fuel ->
    rest p = flat_map (fun oc => fst oc :: chainTokens (snd oc)) more ++ r ->
    Forall (fun oc => Type_ (fst oc) = PLUS /\ chainTyped (snd oc)) more ->
    stopsAt PLUS r -> stopsAt MINUS_ARROW r ->
    yields (parseAdditiveExpression_loop fuel left) p
      (fold_left (fun l oc => binaryNode (fst oc) l (chainTree (snd oc)))
         more left) r.
Proof.
  induction more as [|[o c] more IH];
    intros fuel left p r Hf Hr Hty Hstop Hstop'.
  - simpl in *. destruct fuel; [lia|]. simpl.
    eapply yields_ext.
    { rewrite peekIs_rest, Hr.
      replace (TokenType_eqb _ PLUS) with false
        by (symmetry; now apply TokenType_eqb_neq).
      reflexivity. }
    rewrite <- Hr. apply yields_ret.
  - destruct fuel; [simpl in Hf; lia|].
    inversion Hty as [|? ? [Ho Hc] Hty']; subst. simpl in Ho, Hc.
    cbn [flat_map fst snd] in Hr. rewrite <- !app_comm_cons in Hr.
    rewrite <- app_assoc in Hr.
    cbn [parseAdditiveExpression_loop fold_left fst snd].
    eapply yields_ext.
    { rewrite peekIs_rest, Hr. simpl. rewrite Ho. reflexivity. }
    eapply yields_bind; [now apply (yields_consume _ _ _ _ Hr)|].
    intros p1 T1 R1.
    eapply yields_bind.
    { unfold parsePrimaryExpression.
      apply (parseIdentifierChain_yields c p1 _ R1 Hc).
      destruct more as [|[o' c'] more']; simpl; auto.
      inversion Hty' as [|? ? [Ho' _] _]; subst. simpl in Ho'.
      unfold stopsAt. simpl. rewrite Ho'. discriminate. }
    intros p2 T2 R2. apply IH; auto. simpl in Hf. lia.
Qed.

Lemma parsePermissionExpression_yields (c0 : ChainTokens)
  (more : list (Token * ChainTokens)) (p : Parser) (r : list Token) :
  rest p = additiveTokens c0 more ++ r ->
  additiveTyped c0 more ->
  stopsAt PLUS r -> stopsAt MINUS_ARROW r ->
  yields parsePermissionExpression p (additiveTree c0 more) r.
Proof.
  unfold additiveTokens, additiveTree. intros Hr [H0 Hmore] Hstop Hstop'.
  rewrite <- app_assoc in Hr.
  unfold parsePermissionExpression, parseAdditiveExpression.
  eapply yields_bind.
  { unfold parsePrimaryExpression.
    apply (parseIdentifierChain_yields c0 p _ Hr H0).
    destruct more as [|[o' c'] more']; simpl; auto.
    inversion Hmore as [|? ? [Ho' _] _]; subst. simpl in Ho'.
    unfold stopsAt. simpl. rewrite Ho'. discriminate. }
  intros p1 T1 R1. eapply yields_ext; [reflexivity|].
  apply parseAdditiveExpression_loop_yields; auto.
  pose proof (rest_lt_loopFuel p1) as L. rewrite R1, length_app in L.
  pose proof (flat_map_length_le
                (fun oc : Token * ChainTokens => fst oc :: chainTokens (snd oc))
                more) as F.
  simpl in F. specialize (F (fun _ => le_n_S _ _ (Nat.le_0_l _))). lia.
Qed.

Lemma parseSingleRelation_yields (s : SingleTokens) (p : Parser)
  (r : list Token) :
  rest p = singleTokens s ++ r ->
  singleTyped s -> stopsAt SLASH r -> stopsAt HASH r ->
  yields parseSingleRelation p (singleTree s) r.
Proof.
  destruct s as [t nm fr]. unfold singleTokens, singleTree, singleTyped.
  cbn [st_type st_name st_fragment].
  intros Hr (Ht & Hn & Hf) HS HH. unfold parseSingleRelation.
  rewrite <- app_comm_cons, <- app_assoc in Hr.
  eapply yields_bind; [now apply (yields_consume _ _ _ _ Hr)|].
  intros p1 T1 R1.
  eapply yields_bind
    with (a := match nm with
               | Some (_, n) => (Literal t ++ "/" ++ Literal n)%string
               | None => Literal t
               end)
         (r1 := optTokens fr ++ r).
  - destruct nm as [[sl n]|]; simpl in Hn, R1.
    + destruct Hn as [Hsl Hn].
      eapply yields_ext.
      { cbv beta. rewrite peekIs_rest, R1. simpl. rewrite Hsl. reflexivity. }
      eapply yields_bind; [now apply (yields_consume _ _ _ _ R1)|].
      intros p2 T2 R2.
      eapply yields_bind; [now apply (yields_consume _ _ _ _ R2)|].
      intros p3 T3 R3. rewrite <- R3. apply yields_ret.
    + eapply yields_ext.
      { cbv beta. rewrite peekIs_rest, R1.
        replace (TokenType_eqb _ SLASH) with false; [reflexivity|].
        symmetry. apply TokenType_eqb_neq.
        destruct fr as [[h f]|]; simpl in *; [|exact HS].
        destruct Hf as [Hh _]. rewrite Hh. discriminate. }
      rewrite <- R1. apply yields_ret.
  - intros p4 T4 R4.
    destruct fr as [[h f]|]; simpl in Hf, R4.
    + destruct Hf as [Hh Hf].
      eapply yields_ext.
      { cbv beta. rewrite peekIs_rest, R4. simpl. rewrite Hh. reflexivity. }
      eapply yields_bind; [now apply (yields_consume _ _ _ _ R4)|].
      intros p5 T5 R5.
      eapply yields_bind; [now apply (yields_consume _ _ _ _ R5)|].
      intros p6 T6 R6. rewrite <- R6. apply yields_ret.
    + eapply yields_ext.
      { cbv beta. rewrite peekIs_rest, R4.
        replace (TokenType_eqb _ HASH) with false; [reflexivity|].
        symmetry. now apply TokenType_eqb_neq. }
      rewrite <- R4. apply yields_ret.
Qed.

Lemma singleTokens_nonempty (s : SingleTokens) :
  1 <= List.length (singleTokens s).
Proof. unfold singleTokens. simpl. lia. Qed.

Lemma stopsAt_cons (ty ty' : TokenType) (t : Token) (r : list Token) :
  Type_ t = ty' -> ty' <> ty -> stopsAt ty (t :: r).
Proof. intros H N. unfold stopsAt. simpl. now rewrite H. Qed.

Lemma parseRelationExpression_loop_yields (more : list (Token * SingleTokens)) :
  forall fuel left p r,
    List.length more < fuel ->
    rest p = flat_map (fun os => fst os :: singleTokens (snd os)) more ++ r ->
    Forall (fun os => Type_ (fst os) = PIPE /\ singleTyped (snd os)) more ->
    stopsAt PIPE r -> stopsAt SLASH r -> stopsAt HASH r ->
    yields (parseRelationExpression_loop fuel left) p
      (fold_left (fun l os => UnionRelationNode l (singleTree (snd os)))
         more left) r.
Proof.
  induction more as [|[o s] more IH];
    intros fuel left p r Hf Hr Hty HP HS HH.
  - simpl in *. destruct fuel; [lia|]. simpl.
    eapply yields_ext.
    { rewrite peekIs_rest, Hr.
      replace (TokenType_eqb _ PIPE) with false
        by (symmetry; now apply TokenType_eqb_neq).
      reflexivity. }
    rewrite <- Hr. apply yields_ret.
  - destruct fuel; [simpl in Hf; lia|].
    inversion Hty as [|? ? [Ho Hs] Hty']; subst. simpl in Ho, Hs.
    cbn [flat_map fst snd] in Hr. rewrite <- !app_comm_cons in Hr.
    rewrite <- app_assoc in Hr.
    cbn [parseRelationExpression_loop fold_left fst snd].
    eapply yields_ext.
    { rewrite peekIs_rest, Hr. simpl. rewrite Ho. reflexivity. }
    eapply yields_bind; [now apply (yields_consume _ _ _ _ Hr)|].
    intros p1 T1 R1.
    assert (forall ty, ty <> PIPE -> stopsAt ty r ->
                       stopsAt ty (flat_map
                                     (fun os : Token * SingleTokens =>
                                        fst os :: singleTokens (snd os))
                                     more ++ r)) as Hnext.
    { intros ty Hne Hst. destruct more as [|[o' s'] more']; simpl; auto.
      inversion Hty' as [|? ? [Ho' _] _]; subst. simpl in Ho'.
      eapply stopsAt_cons; eauto. }
    eapply yields_bind.
    { apply (parseSingleRelation_yields s p1 _ R1 Hs);
        apply Hnext; auto; discriminate. }
    intros p2 T2 R2. apply IH; auto. simpl in Hf. lia.
Qed.

Lemma parseRelationExpression_yields (s0 : SingleTokens)
  (more : list (Token * SingleTokens)) (p : Parser) (r : list Token) :
  rest p = unionTokens s0 more ++ r ->
  unionTyped s0 more ->
  stopsAt PIPE r -> stopsAt SLASH r -> stopsAt HASH r ->
  yields parseRelationExpression p (unionTree s0 more) r.
Proof.
  unfold unionTokens, unionTree. intros Hr [H0 Hmore] HP HS HH.
  rewrite <- app_assoc in Hr. unfold parseRelationExpression.
  eapply yields_bind.
  { apply (parseSingleRelation_yields s0 p _ Hr H0).
    - destruct more as [|[o' s'] more']; simpl; auto.
      inversion Hmore as [|? ? [Ho' _] _]; subst. simpl in Ho'.
      eapply stopsAt_cons; eauto. discriminate.
    - destruct more as [|[o' s'] more']; simpl; auto.
      inversion Hmore as [|? ? [Ho' _] _]; subst. simpl in Ho'.
      eapply stopsAt_cons; eauto. discriminate. }
  intros p1 T1 R1. eapply yields_ext; [reflexivity|].
  apply parseRelationExpression_loop_yields; auto.
  pose proof (rest_lt_loopFuel p1) as L. rewrite R1, length_app in L.
  pose proof (flat_map_length_le
                (fun os : Token * SingleTokens =>
                   fst os :: singleTokens (snd os)) more) as F.
  simpl in F. specialize (F (fun _ => le_n_S _ _ (Nat.le_0_l _))). lia.
Qed.

(* ================================================================== *)
(** * Flattened types, and the tokens a successful parse has passed *)
(* ================================================================== *)

Lemma extractTypes_leaves (e : RelationExpressionNode) :
  extractTypesFromRelationExpression e = map renderLeaf (leaves e).
Proof.
  induction e as [v f|l IHl r IHr]; simpl.
  - unfold renderLeaf. simpl. now destruct (String.eqb f "").
  - now rewrite IHl, IHr, map_app.
Qed.

Lemma leaves_fold_union (more : list (Token * SingleTokens)) :
  forall left,
    leaves (fold_left (fun l os => UnionRelationNode l (singleTree (snd os)))
              more left)
    = leaves left ++ flat_map (fun os => leaves (singleTree (snd os))) more.
Proof.
  induction more as [|os more IH]; intros left; simpl.
  - now rewrite app_nil_r.
  - rewrite IH. simpl. now rewrite <- app_assoc.
Qed.

Lemma consumed_prefix (body pre rst : list Token) (t : Token) :
  body ++ [t] = pre ++ rst ->
  Type_ t = EOF ->
  Forall (fun t => Type_ t <> EOF) body ->
  Forall (fun t => consumable (Type_ t) = true) pre ->
  Type_ (hd eofToken rst) = EOF ->
  pre = body.
Proof.
  revert pre. induction body as [|b body IH]; intros pre E Ht Hb Hp Hr.
  - destruct pre as [|p0 pre]; auto. simpl in E.
    injection E as E1 E2. subst p0.
    inversion Hp as [|? ? Hc _]; subst. rewrite Ht in Hc. discriminate.
  - destruct pre as [|p0 pre]; simpl in E.
    + subst rst. simpl in Hr. inversion Hb; subst. contradiction.
    + injection E as E1 E2. subst p0. f_equal.
      inversion Hb; subst. inversion Hp; subst. now apply IH.
Qed.

Lemma ParseDefinitions_consumed (ts : list Token)
  (defs : list DefinitionNode) (p' : Parser) :
  ParseDefinitions (NewParser ts) = Some (Ok defs, p') ->
  exists pre,
    ts = pre ++ rest p' /\
    Forall (fun t => consumable (Type_ t) = true) pre /\
    Type_ (hd eofToken (rest p')) = EOF.
Proof.
  intros H.
  destruct (returnsAll_ParseDefinitions (fun _ _ => True)
              (fun p => runs_weaken _ _ _ _ _ _ (runs_parseDefinition p)
                          (fun _ _ _ => I) (fun H => H)) ts)
    as (r & q & E & _ & (pre & R & F) & Q).
  rewrite H in E. injection E as <- <-. destruct Q as [Q _].
  exists pre. rewrite NewParser_rest in R. split; [exact R|].
  split; [exact F|]. rewrite peekIs_rest in Q.
  now apply TokenType_eqb_eq in Q.
Qed.

(* ================================================================== *)
(** * Sorting by name *)
(* ================================================================== *)

Lemma compare_as_OT (a b : string) :
  String.compare a b = String_as_OT.compare a b.
Proof.
  revert b; induction a as [|c a IH]; intros [|d b]; simpl; auto.
Qed.

Lemma ltb_lt (a b : string) :
  String.ltb a b = true <-> String_as_OT.lt a b.
Proof.
  unfold String.ltb, String_as_OT.lt. rewrite compare_as_OT.
  destruct (String_as_OT.compare a b); split; congruence.
Qed.

Lemma ltb_asym (a b : string) :
  String.ltb a b = true -> String.ltb b a = false.
Proof.
  unfold String.ltb. rewrite (String.compare_antisym b a).
  destruct (String.compare a b); simpl; congruence.
Qed.

Lemma ltb_false_both (a b : string) :
  String.ltb a b = false -> String.ltb b a = false -> a = b.
Proof.
  unfold String.ltb. rewrite (String.compare_antisym b a).
  destruct (String.compare a b) eqn:E; simpl; try congruence.
  intros _ _. now apply String.compare_eq_iff.
Qed.

Lemma ltb_negtrans (a b c : string) :
  String.ltb a b = false -> String.ltb b c = false -> String.ltb a c = false.
Proof.
  intros Hab Hbc. destruct (String.ltb a c) eqn:Hac; auto.
  apply ltb_lt in Hac.
  destruct (String.ltb b a) eqn:Hba.
  - apply ltb_lt in Hba.
    assert (String_as_OT.lt b c) as H
        by (eapply (@StrictOrder_Transitive _ _ String_as_OT.lt_strorder);
            eassumption).
    apply ltb_lt in H. congruence.
  - pose proof (ltb_false_both a b Hab Hba) as ->.
    apply ltb_lt in Hac. congruence.
Qed.

Lemma sink_Permutation {A : Type} (less : A -> A -> bool) (x : A)
  (acc : list A) :
  Permutation (x :: acc) (sink less x acc).
Proof.
  induction acc as [|y ys IH]; simpl; auto.
  destruct (less x y); auto.
  eapply perm_trans; [apply perm_swap|]. now constructor.
Qed.

Lemma insertion_Permutation {A : Type} (less : A -> A -> bool) (l : list A) :
  forall acc,
    Permutation (l ++ acc) (fold_left (fun acc x => sink less x acc) l acc).
Proof.
  induction l as [|x l IH]; intros acc; simpl; auto.
  eapply perm_trans; [|apply IH].
  eapply perm_trans; [apply Permutation_middle|].
  apply Permutation_app_head. apply sink_Permutation.
Qed.

Lemma insertionSort_Permutation {A : Type} (less : A -> A -> bool)
  (l : list A) :
  Permutation l (insertionSort less l).
Proof.
  unfold insertionSort. eapply perm_trans; [|apply Permutation_rev].
  pose proof (insertion_Permutation less l []) as H.
  now rewrite app_nil_r in H.
Qed.

Lemma StronglySorted_snoc {A : Type} (R : A -> A -> Prop) (m : list A)
  (x : A) :
  StronglySorted R m -> Forall (fun y => R y x) m ->
  StronglySorted R (m ++ [x]).
Proof.
  induction 1 as [|y m Hs IH Hf]; intros Hx; simpl.
  - repeat constructor.
  - inversion Hx; subst. constructor; [now apply IH|].
    apply Forall_app. split; auto.
Qed.

Section SinkSorted.
Context {A : Type} (less : A -> A -> bool).
Hypothesis less_asym : forall a b, less a b = true -> less b a = false.
Hypothesis less_negtrans :
  forall a b c, less a b = false -> less b c = false -> less a c = false.

Lemma sink_descending (x : A) (acc : list A) :
  descending less acc -> descending less (sink less x acc).
Proof.
  unfold descending.
  induction acc as [|y ys IH]; intros H; simpl.
  - repeat constructor.
  - inversion H as [|? ? Hs Hf]; subst.
    destruct (less x y) eqn:E.
    + constructor; [now apply IH|].
      apply (Permutation_Forall (sink_Permutation less x ys)).
      constructor; auto.
    + constructor; [exact H|]. constructor; [exact E|].
      eapply Forall_impl; [|exact Hf]. intros z Hz. eauto.
Qed.

Lemma insertion_descending (l : list A) :
  forall acc,
    descending less acc ->
    descending less (fold_left (fun acc x => sink less x acc) l acc).
Proof.
  induction l as [|x l IH]; intros acc H; simpl; auto.
  apply IH. now apply sink_descending.
Qed.

Lemma descending_rev (l : list A) :
  descending less l -> StronglySorted (fun a b => less b a = false) (rev l).
Proof.
  unfold descending. induction 1 as [|x l Hs IH Hf]; simpl.
  - constructor.
  - apply StronglySorted_snoc; [exact IH|].
    apply Forall_rev. exact Hf.
Qed.

Lemma insertionSort_sorted (l : list A) :
  StronglySorted (fun a b => less b a = false) (insertionSort less l).
Proof.
  unfold insertionSort. apply descending_rev.
  apply insertion_descending. constructor.
Qed.
End SinkSorted.

Lemma insertionSort_contract : sortContract insertionSort.
Proof.
  intros l. split; [apply insertionSort_Permutation|].
  apply insertionSort_sorted; unfold lessByName; intros.
  - now apply ltb_asym.
  - eapply ltb_negtrans; eassumption.
Qed.

(** Two sorted rearrangements of definitions with distinct names are the
    same list. *)
Lemma sorted_by_name_unique (l1 : list Definition_) :
  forall l2,
    StronglySorted (fun a b => lessByName b a = false) l1 ->
    StronglySorted (fun a b => lessByName b a = false) l2 ->
    Permutation l1 l2 ->
    NoDup (map def_Name l1) ->
    l1 = l2.
Proof.
  induction l1 as [|a l1 IH]; intros l2 S1 S2 P N.
  - apply Permutation_nil in P. now subst.
  - destruct l2 as [|b l2].
    { apply Permutation_sym, Permutation_nil in P. discriminate. }
    inversion S1 as [|? ? S1' F1]; subst.
    inversion S2 as [|? ? S2' F2]; subst.
    inversion N as [|? ? Na N']; subst.
    assert (a = b) as ->.
    { assert (In a (b :: l2)) as Ha
          by (eapply Permutation_in; [exact P|now left]).
      assert (In b (a :: l1)) as Hb
          by (eapply Permutation_in;
              [apply Permutation_sym; exact P|now left]).
      destruct Ha as [Ha|Ha]; [now subst|].
      destruct Hb as [Hb|Hb]; [now subst|].
      rewrite Forall_forall in F1, F2.
      pose proof (F1 b Hb) as L1. pose proof (F2 a Ha) as L2.
      unfold lessByName in L1, L2.
      pose proof (ltb_false_both _ _ L2 L1) as En.
      exfalso. apply Na. rewrite En. now apply in_map. }
    f_equal. apply IH; auto. now apply Permutation_cons_inv in P.
Qed.

(* ================================================================== *)
(** * The generator on a document that parses *)
(* ================================================================== *)

Lemma parseSchema_parsed (env : Env) (g : Generator) (content : string)
  (defs : list DefinitionNode) :
  os_ReadFile env (schemaFile g) = Ok content ->
  parseDocument content = Some (Ok defs) ->
  parseSchema env g
  = Some (Ok {| sch_Definitions := map convertDefinition defs |},
          [ (LevelDebug, "Schema file read successfully");
            (LevelDebug, "Lexical analysis complete");
            (LevelInfo, "AST parsing successful") ]).
Proof.
  intros Hread Hparse. unfold parseSchema. rewrite Hread.
  unfold parseDocument in Hparse.
  destruct (TokenizeAll (NewLexer content)) as [ts|]; [|discriminate].
  cbn [obind] in *.
  destruct (ParseDefinitions (NewParser ts)) as [[r p']|]; [|discriminate].
  cbn [obind fst] in *. injection Hparse as ->. reflexivity.
Qed.

Lemma packageName_first (d : DefinitionNode) :
  (if negb (String.eqb (def_Package (convertDefinition d)) "")
   then def_Package (convertDefinition d) else "authz") = packageOf d.
Proof.
  unfold convertDefinition, packageOf. cbn [def_Package].
  destruct (String.eqb (ot_Prefix (dn_ObjectType d)) "") eqn:E;
    [reflexivity|]. now rewrite E.
Qed.

(** [Generate] on a document that parses: one call of [generateCode],
    with the package of the first definition and all the definitions. *)
Lemma Generate_parsed (env : Env) (g : Generator) (content : string)
  (defs : list DefinitionNode) :
  os_ReadFile env (schemaFile g) = Ok content ->
  parseDocument content = Some (Ok defs) ->
  Generate env g
  = Some (outcomeOf (packageNameOf defs)
            (generateCode env g (packageNameOf defs)
               (map convertDefinition defs))).
Proof.
  intros Hread Hparse. unfold Generate.
  rewrite (parseSchema_parsed env g content defs Hread Hparse).
  cbn [obind sch_Definitions].
  assert (match map convertDefinition defs with
          | [] => "authz"
          | d :: _ =>
              if negb (String.eqb (def_Package d) "") then def_Package d
              else "authz"
          end = packageNameOf defs) as ->.
  { destruct defs as [|d ds]; [reflexivity|]. apply packageName_first. }
  unfold outcomeOf.
  destruct (generateCode env g (packageNameOf defs)
              (map convertDefinition defs)) as [[err|] writes];
    reflexivity.
Qed.

(** [generateCode] once the directory exists, the template parses and
    its execution returns [buf]. *)
Lemma generateCode_rendered (env : Env) (g : Generator) (pkg : string)
  (defs : list Definition_) (buf : string) :
  os_MkdirAll env (outputDir g) = None ->
  template_Parse env = None ->
  template_Execute env
    {| td_Package := pkg;
       td_Definitions := sort_Slice env lessByName defs |} = Ok buf ->
  let text := match format_Source env buf with
              | Ok formatted => formatted
              | Err _ => buf
              end in
  let filename := filepath_Join env (outputDir g) (pkg ++ ".gen.go")%string in
  generateCode env g pkg defs
  = (os_WriteFile env filename text, [(filename, text)]).
Proof.
  intros Hdir Htmpl Hexec. unfold generateCode.
  rewrite Hdir, Htmpl, Hexec.
  destruct (format_Source env buf); reflexivity.
Qed.

(* ================================================================== *)
(** * The shape of the permission expressions the parser builds *)
(* ================================================================== *)

Lemma rest_In (p : Parser) (t : Token) :
  In t (rest p) -> In t (tokens p).
Proof.
  unfold rest. intros H.
  rewrite <- (firstn_skipn (current p) (tokens p)).
  apply in_or_app. now right.
Qed.

Lemma runs_consume_in (t : TokenType) (p : Parser) :
  consumable t = true ->
  runs (consume t) p true
    (fun tok _ => Type_ tok = t /\ In tok (tokens p)).
Proof.
  intros Ht.
  destruct (runs_consume t p Ht) as (r & p' & E & X & H).
  exists r, p'. split; [exact E|]. split; [exact X|].
  destruct r as [tok|e]; auto. destruct H as [H1 H2].
  split; [|exact H2]. split; [exact H1|].
  unfold consume in E.
  destruct (TokenType_eqb (Type_ (peek p)) t) eqn:Ep; [|discriminate].
  injection E as <- _. apply TokenType_eqb_eq in Ep.
  rewrite peek_rest in *. apply rest_In.
  destruct (rest p) as [|t0 r]; simpl in *; [|now left].
  subst t. discriminate.
Qed.

(** A strictness flag that nothing has fixed yet is [false]. *)
Ltac flag_false :=
  match goal with
  | |- runs _ _ ?s _ => try (is_evar s; unify s false)
  end.

(** One statement [x, err := p.consume(t)], keeping what is known of the
    token. *)
Ltac run_consume_in :=
  match goal with
  | |- runs _ _ ?s _ => try (is_evar s; unify s false)
  end;
  eapply runs_bind';
  [ first [ apply runs_wrapping; apply runs_consume_in; reflexivity
          | apply runs_consume_in; reflexivity ]
  | let a := fresh "tok" in
    let p1 := fresh "p" in
    let Ha := fresh "Htok" in
    let X := fresh "X" in
    let S := fresh "S" in
    intros a p1 Ha X S; specialize (S eq_refl)
  | try (intros _; reflexivity); try discriminate ].

Lemma shape_parseIdentifierChain_loop (fuel : nat) :
  forall left p,
    List.length (rest p) < fuel ->
    runs (parseIdentifierChain_loop fuel left) p false
      (fun e _ =>
         exists more,
           e = fold_left
                 (fun l oa => binaryNode (fst oa) l (identLeaf (snd oa)))
                 more left /\
           Forall (fun oa => Type_ (fst oa) = MINUS_ARROW
                             /\ Type_ (snd oa) = IDENTIFIER) more /\
           Forall (fun t => In t (tokens p))
             (flat_map (fun oa => [fst oa; snd oa]) more)).
Proof.
  induction fuel as [|fuel IH]; intros left p Hlen; [lia|].
  simpl. run_if (peekIs MINUS_ARROW).
  - run_consume_in. run_consume_in.
    destruct Htok as [Ho Hoin]. destruct Htok0 as [Hi Hiin].
    destruct X as [T0 _]. destruct X0 as [T1 _]. rewrite T0 in Hiin.
    flag_false; eapply runs_weaken; [apply IH; lia| |auto].
    intros e _ (more & He & Hty & Hin).
    exists ((tok, tok0) :: more). split; [exact He|]. split.
    + constructor; auto.
    + simpl. constructor; [exact Hoin|]. constructor; [exact Hiin|].
      now rewrite T1, T0 in Hin.
  - apply runs_ret. exists []. simpl. auto.
Qed.

Lemma shape_parseIdentifierChain (p : Parser) :
  runs parseIdentifierChain p true (fun e _ => chainShape (tokens p) e).
Proof.
  unfold parseIdentifierChain.
  run_consume_in. destruct Htok as [Hi Hin]. destruct X as [T0 _].
  eapply runs_ext; [reflexivity|].
  flag_false; eapply runs_weaken;
    [apply shape_parseIdentifierChain_loop; apply rest_lt_loopFuel| |auto].
  intros e _ (more & He & Hty & Hmore).
  exists (tok, more). split; [exact He|]. split; [split; assumption|].
  unfold chainTokens. simpl. constructor; [exact Hin|]. now rewrite T0 in Hmore.
Qed.

Lemma shape_parseAdditiveExpression_loop (fuel : nat) :
  forall left p,
    List.length (rest p) < fuel ->
    runs (parseAdditiveExpression_loop fuel left) p false
      (fun e _ =>
         exists more,
           e = fold_left
                 (fun l oc => binaryNode (fst oc) l (chainTree (snd oc)))
                 more left /\
           Forall (fun oc => Type_ (fst oc) = PLUS /\ chainTyped (snd oc))
             more /\
           Forall (fun t => In t (tokens p))
             (flat_map (fun oc => fst oc :: chainTokens (snd oc)) more)).
Proof.
  induction fuel as [|fuel IH]; intros left p Hlen; [lia|].
  simpl. run_if (peekIs PLUS).
  - run_consume_in. destruct Htok as [Ho Hoin]. destruct X as [T0 _].
    eapply runs_bind' with (s := false) (s2 := false);
      [apply shape_parseIdentifierChain| |discriminate].
    intros right p1 (c & Hc & Hcty & Hcin) X1 S1.
    destruct X1 as [T1 _]. specialize (S1 eq_refl).
    flag_false; eapply runs_weaken; [apply IH; lia| |auto].
    intros e _ (more & He & Hty & Hin).
    exists ((tok, c) :: more). subst right. split; [exact He|]. split.
    + constructor; auto.
    + cbn [flat_map fst snd]. apply Forall_app. split.
      * constructor; [exact Hoin|]. now rewrite T0 in Hcin.
      * now rewrite T1, T0 in Hin.
  - apply runs_ret. exists []. simpl. auto.
Qed.

Lemma shape_parsePermissionExpression (p : Parser) :
  runs parsePermissionExpression p true
    (fun e _ => additiveShape (tokens p) e).
Proof.
  unfold parsePermissionExpression, parseAdditiveExpression.
  eapply runs_bind' with (s := true) (s2 := false);
    [apply shape_parseIdentifierChain| |intros _; reflexivity].
  intros left p1 (c0 & Hc & Hcty & Hcin) X1 _. destruct X1 as [T1 _].
  eapply runs_ext; [reflexivity|].
  flag_false; eapply runs_weaken;
    [apply shape_parseAdditiveExpression_loop; apply rest_lt_loopFuel| |auto].
  intros e _ (more & He & Hty & Hin).
  exists c0, more. subst left. split; [exact He|]. split; [split; assumption|].
  unfold additiveTokens. apply Forall_app. split; [exact Hcin|].
  now rewrite T1 in Hin.
Qed.

Lemma shape_parsePermission (p : Parser) :
  runs parsePermission p true
    (fun perm _ => additiveShape (tokens p) (pn_Expression perm)).
Proof.
  unfold parsePermission.
  run_consume. run_consume. run_consume.
  destruct X as [T0 _]. destruct X0 as [T1 _]. destruct X1 as [T2 _].
  eapply runs_bind' with (s := false) (s2 := false);
    [apply runs_wrapping; apply shape_parsePermissionExpression|
    |discriminate].
  intros expr p3 He _ _. apply runs_ret. simpl.
  now rewrite T2, T1, T0 in He.
Qed.

Lemma shape_parseDefinition_loop (fuel : nat) :
  forall def p,
    List.length (rest p) < fuel ->
    definitionShape (tokens p) def ->
    runs (parseDefinition_loop fuel def) p false
      (fun def' _ => definitionShape (tokens p) def').
Proof.
  induction fuel as [|fuel IH]; intros def p Hlen Hdef; [lia|].
  simpl. run_if (fun p => peekIs RELATION p || peekIs PERMISSION p).
  - run_if (peekIs RELATION).
    + run_call runs_parseRelation. specialize (S eq_refl).
      destruct X as [T0 _].
      flag_false; eapply runs_weaken; [apply IH; [lia|]| |auto].
      * rewrite T0. exact Hdef.
      * intros def' q H. cbv beta in H. now rewrite T0 in H.
    + run_if (peekIs PERMISSION).
      * eapply runs_bind' with (s := false) (s2 := false);
          [apply shape_parsePermission| |discriminate].
        intros perm p1 Hperm X1 S1. specialize (S1 eq_refl).
        destruct X1 as [T1 _].
        flag_false; eapply runs_weaken; [apply IH; [lia|]| |auto].
        -- rewrite T1. unfold definitionShape. cbn [dn_Permissions].
           apply Forall_app. split; [exact Hdef|]. constructor; auto.
        -- intros def' q H. cbv beta in H. now rewrite T1 in H.
      * rewrite E0, E1 in E. discriminate.
  - apply runs_ret. exact Hdef.
Qed.

Lemma shape_parseDefinition (p : Parser) :
  runs parseDefinition p true (fun def _ => definitionShape (tokens p) def).
Proof.
  unfold parseDefinition.
  run_consume. run_consume.
  destruct X as [T0 _]. destruct X0 as [T1 _].
  eapply runs_bind' with (s1 := false) (s2 := false) (Q1 := anything).
  - run_if (peekIs SLASH).
    + run_consume. run_consume. apply runs_ret. exact I.
    + run_if (peekIs LBRACE).
      * apply runs_ret. exact I.
      * apply runs_fail.
  - intros [ot objectTypeName] q1 _ [T2 _] _.
    run_consume. destruct X as [T3 _].
    eapply runs_bind' with (s := false) (s1 := false) (s2 := false)
      (Q1 := fun def _ => definitionShape (tokens p) def).
    + eapply runs_ext; [reflexivity|].
      flag_false; eapply runs_weaken;
        [apply shape_parseDefinition_loop;
         [apply rest_lt_loopFuel|constructor]| |auto].
      intros def' q H. cbv beta in H. now rewrite T3, T2, T1, T0 in H.
    + intros def q3 Hdef _ _. run_consume. apply runs_ret. exact Hdef.
    + discriminate.
  - exact (fun H => H).
Qed.

Lemma parsed_permissions_shape (ts : list Token)
  (defs : list DefinitionNode) (p' : Parser) :
  ParseDefinitions (NewParser ts) = Some (Ok defs, p') ->
  Forall (definitionShape ts) defs.
Proof.
  intros H.
  destruct (returnsAll_ParseDefinitions definitionShape shape_parseDefinition
              ts) as (r & q & E & _ & _ & Q).
  rewrite H in E. injection E as <- <-. now destruct Q.
Qed.

(* ================================================================== *)
(** * The lexer on the text of a permission expression *)
(* ================================================================== *)

(** After white space and with no comment ahead, [NextToken] is the
    [switch] at the first byte that is not white space. *)
Lemma NextToken_after_whitespace (l : Lexer) (ws body : list ascii) :
  wf l -> remaining l = ws ++ body -> allWhitespace ws ->
  isWhitespace (hd NUL body) = false ->
  hd NUL body <> "/"%char ->
  exists l0,
    wf l0 /\ input l0 = input l /\ remaining l0 = body /\
    NextToken l
    = switchToken (match scanFuel l with
                   | 0 => fun _ : Lexer => None
                   | S fuel' => NextToken_fuel fuel'
                   end) l0.
Proof.
  intros Hwf Hr Hws Hb Hs.
  destruct (skipWhitespace_spec l Hwf) as (l0 & A1 & A2 & A3 & A4).
  rewrite Hr, (dropWhile_app isWhitespace ws body Hws Hb) in A4.
  exists l0. refine (conj A2 (conj A3 (conj A4 _))).
  unfold NextToken. rewrite NextToken_fuel_eq, A1. cbn [obind].
  rewrite skipComments_id; [reflexivity|].
  unfold atComment. destruct A2 as [_ Hc]. rewrite Hc, A4.
  destruct (Ascii.eqb_spec (hd NUL body) "/"); [contradiction|reflexivity].
Qed.

Lemma NextToken_plus (l : Lexer) (ws rst : list ascii) :
  wf l -> remaining l = ws ++ "+"%char :: rst -> allWhitespace ws ->
  exists tok l',
    NextToken l = Some (tok, l') /\ Type_ tok = PLUS /\ Literal tok = "+" /\
    wf l' /\ input l' = input l /\ remaining l' = rst.
Proof.
  intros Hwf Hr Hws.
  destruct (NextToken_after_whitespace l ws _ Hwf Hr Hws eq_refl)
    as (l0 & W & I & R & N); [discriminate|].
  pose proof W as [_ Hc]. rewrite R in Hc. simpl in Hc.
  exists (charToken PLUS l0), (readChar l0).
  split; [rewrite N; unfold switchToken; rewrite Hc; reflexivity|].
  split; [reflexivity|].
  split; [unfold charToken; cbn [Literal]; now rewrite Hc|].
  split; [apply readChar_wf|]. split; [exact I|].
  now rewrite readChar_remaining, R.
Qed.

Lemma NextToken_arrow (l : Lexer) (ws rst : list ascii) :
  wf l -> remaining l = ws ++ "-"%char :: ">"%char :: rst ->
  allWhitespace ws ->
  exists tok l',
    NextToken l = Some (tok, l') /\ Type_ tok = MINUS_ARROW /\
    Literal tok = "->" /\
    wf l' /\ input l' = input l /\ remaining l' = rst.
Proof.
  intros Hwf Hr Hws.
  destruct (NextToken_after_whitespace l ws _ Hwf Hr Hws eq_refl)
    as (l0 & W & I & R & N); [discriminate|].
  pose proof W as [_ Hc]. rewrite R in Hc. simpl in Hc.
  assert (peekChar l0 = ">"%char) as Hp
      by (rewrite peekChar_remaining, R by assumption; reflexivity).
  assert (ch (readChar l0) = ">"%char) as Hc1.
  { pose proof (readChar_wf l0) as [_ H]. rewrite H.
    rewrite readChar_remaining, R by assumption. reflexivity. }
  eexists _, (readChar (readChar l0)).
  split; [rewrite N; unfold switchToken; rewrite Hc, Hp; reflexivity|].
  split; [reflexivity|].
  split; [cbn [Literal]; rewrite ?Hc, ?Hc1; reflexivity|].
  split; [apply readChar_wf|]. split; [exact I|].
  rewrite !readChar_remaining, R by (auto using readChar_wf). reflexivity.
Qed.

Lemma NextToken_end (l : Lexer) (ws : list ascii) :
  wf l -> remaining l = ws -> allWhitespace ws ->
  exists tok l', NextToken l = Some (tok, l') /\ Type_ tok = EOF.
Proof.
  intros Hwf Hr Hws. rewrite <- (app_nil_r ws) in Hr.
  destruct (NextToken_after_whitespace l ws _ Hwf Hr Hws eq_refl)
    as (l0 & W & I & R & N); [discriminate|].
  pose proof W as [_ Hc]. rewrite R in Hc. simpl in Hc.
  eexists _, _.
  split; [rewrite N; unfold switchToken; rewrite Hc; reflexivity|].
  reflexivity.
Qed.

(** A letter is none of the bytes the [switch] tests before it tests for
    a letter, and no white space. *)
Lemma isLetter_tests (c : ascii) :
  isLetter c = true ->
  isWhitespace c = false /\
  forall d, isLetter d = false -> Ascii.eqb c d = false.
Proof.
  intros H.
  assert (forall d, isLetter d = false -> Ascii.eqb c d = false) as K.
  { intros d Hd. destruct (Ascii.eqb_spec c d); [subst; congruence|auto]. }
  split; [|exact K].
  unfold isWhitespace. rewrite !K; reflexivity.
Qed.

Lemma isIdentifierText_chars (x : string) :
  isIdentifierText x = true ->
  exists c r,
    list_ascii_of_string x = c :: r /\ isLetter c = true /\
    Forall (fun d => isIdentChar d = true) (c :: r).
Proof.
  unfold isIdentifierText. destruct (list_ascii_of_string x) as [|c r];
    [discriminate|].
  intros H. apply andb_true_iff in H as [H1 H2]. exists c, r.
  split; [reflexivity|]. split; [exact H1|].
  constructor; [unfold isIdentChar; now rewrite H1|].
  apply Forall_forall. now apply forallb_forall.
Qed.

Lemma NextToken_identifier (l : Lexer) (ws rst : list ascii) (x : string) :
  wf l -> remaining l = ws ++ list_ascii_of_string x ++ rst ->
  allWhitespace ws ->
  isIdentifierText x = true -> keywords x = None ->
  isIdentChar (hd NUL rst) = false ->
  exists tok l',
    NextToken l = Some (tok, l') /\ Type_ tok = IDENTIFIER /\
    Literal tok = x /\
    wf l' /\ input l' = input l /\ remaining l' = rst.
Proof.
  intros Hwf Hr Hws Hx Hk Hrst.
  destruct (isIdentifierText_chars x Hx) as (c & r & Ex & Hc & Hall).
  destruct (isLetter_tests c Hc) as [Hnw Htests].
  rewrite Ex in Hr.
  destruct (NextToken_after_whitespace l ws _ Hwf Hr Hws)
    as (l0 & W & I & R & N).
  { exact Hnw. }
  { simpl. intros ->. discriminate. }
  pose proof W as [_ Hch]. rewrite R in Hch. simpl in Hch.
  destruct (readIdentifier_spec l0 W) as (l' & H1 & H2 & H3 & H4).
  rewrite R in H1, H4.
  rewrite (takeWhile_app isIdentChar (c :: r) rst Hall Hrst) in H1.
  rewrite (dropWhile_app isIdentChar (c :: r) rst Hall Hrst) in H4.
  rewrite <- Ex, string_of_list_ascii_of_string in H1.
  eexists _, l'. split.
  { rewrite N. unfold switchToken. rewrite Hch.
    repeat match goal with
           | |- context [Ascii.eqb c ?d] =>
               rewrite (Htests d) by reflexivity
           end.
    rewrite Hc, H1. reflexivity. }
  cbn [Type_ Literal]. unfold lookupIdent. rewrite Hk.
  split; [reflexivity|]. split; [reflexivity|].
  split; [exact H2|]. split; [congruence|exact H4].
Qed.

Lemma lexes_app (l l1 l2 : Lexer) (ts1 ts2 : list Token) :
  lexes l ts1 l1 -> lexes l1 ts2 l2 -> lexes l (ts1 ++ ts2) l2.
Proof.
  induction 1 as [|l t la ts lb N E _ IH]; intros H2; simpl; auto.
  econstructor; eauto.
Qed.

Lemma lexes_one (l l' : Lexer) (t : Token) :
  NextToken l = Some (t, l') -> Type_ t <> EOF -> lexes l [t] l'.
Proof. intros N E. econstructor; eauto. constructor. Qed.

Lemma TokenizeAll_fuel_lexes (l l' : Lexer) (toks : list Token) :
  lexes l toks l' ->
  forall eof l'' fuel acc res,
    NextToken l' = Some (eof, l'') -> Type_ eof = EOF ->
    TokenizeAll_fuel fuel l acc = Some res ->
    res = acc ++ toks ++ [eof].
Proof.
  induction 1 as [l|l t l1 ts l' N E _ IH];
    intros eof l'' fuel acc res Hn He Hres;
    (destruct fuel as [|fuel]; [discriminate|]); simpl in Hres.
  - rewrite Hn in Hres. cbn [obind] in Hres. rewrite He in Hres.
    simpl in Hres. now injection Hres as <-.
  - rewrite N in Hres. cbn [obind] in Hres.
    apply TokenType_eqb_neq in E. rewrite E in Hres.
    rewrite (IH eof l'' fuel _ res Hn He Hres), <- app_assoc. reflexivity.
Qed.

Lemma chars_app (a b : string) : chars (a ++ b) = chars a ++ chars b.
Proof. induction a as [|c a IH]; simpl; [reflexivity|]. now rewrite IH. Qed.

(** The bytes of the text of a left fold: the text of the first operand,
    then for each further operand a space, the operator, a space and the
    text of the operand. *)
Lemma chars_fold_left {A : Type} (leaf : A -> PermissionExpressionNode)
  (more : list (Token * A)) :
  forall left,
    chars (PermissionExpression_String
             (fold_left (fun l oa => binaryNode (fst oa) l (leaf (snd oa)))
                more left))
    = chars (PermissionExpression_String left)
      ++ flat_map
           (fun oa =>
              " "%char :: chars (Literal (fst oa))
                ++ " "%char :: chars (PermissionExpression_String
                                        (leaf (snd oa))))
           more.
Proof.
  induction more as [|oa more IH]; intros left; simpl.
  - now rewrite app_nil_r.
  - rewrite IH. unfold binaryNode. cbn [PermissionExpression_String].
    rewrite !chars_app. change (chars " ") with [" "%char].
    rewrite <- !app_assoc. reflexivity.
Qed.

Lemma sameChain_tree (c c' : ChainTokens) :
  sameChain c c' -> chainTree c = chainTree c'.
Proof.
  destruct c as [i more], c' as [i' more']. unfold sameChain, chainTree.
  cbn [fst snd]. intros [Hi Hm]. unfold identLeaf at 2 4. rewrite Hi.
  generalize (IdentifierNode (Literal i')) as left.
  induction Hm as [|oa oa' more more' [Ho Ha] _ IH]; intros left; simpl.
  - reflexivity.
  - unfold binaryNode at 2 4, identLeaf at 2 4. rewrite Ho, Ha. apply IH.
Qed.

Lemma endOfIdentifier_space (r : list ascii) :
  isIdentChar (hd NUL (" "%char :: r)) = false.
Proof. reflexivity. Qed.

(** The lexer on the text of the pairs of an arrow and an identifier. *)
Lemma lexes_arrows (more : list (Token * Token)) :
  forall l rst,
    wf l ->
    Forall (fun oa => Literal (fst oa) = "->" /\ identLit (Literal (snd oa)))
      more ->
    remaining l
    = flat_map (fun oa => " "%char :: chars (Literal (fst oa))
                            ++ " "%char :: chars (Literal (snd oa))) more
      ++ rst ->
    isIdentChar (hd NUL rst) = false ->
    exists more' l',
      lexes l (flat_map (fun oa => [fst oa; snd oa]) more') l' /\
      wf l' /\ input l' = input l /\ remaining l' = rst /\
      Forall (fun oa => Type_ (fst oa) = MINUS_ARROW
                        /\ Type_ (snd oa) = IDENTIFIER) more' /\
      Forall2 (fun oa oa' => Literal (fst oa) = Literal (fst oa')
                             /\ Literal (snd oa) = Literal (snd oa'))
        more more'.
Proof.
  induction more as [|[o i] more IH]; intros l rst Hwf Hlits Hr Hend.
  - exists [], l. simpl in *.
    exact (conj (lexes_nil l)
             (conj Hwf (conj eq_refl (conj Hr
                (conj (Forall_nil _) (Forall2_nil _)))))).
  - inversion Hlits as [|? ? [Ho [Hi Hk]] Hlits']; subst.
    cbn [fst snd] in Ho, Hi, Hk. cbn [flat_map fst snd] in Hr.
    rewrite Ho in Hr. simpl in Hr. rewrite <- app_assoc in Hr.
    destruct (NextToken_arrow l [" "%char] _ Hwf Hr)
      as (to & l1 & N1 & T1 & L1 & W1 & I1 & R1).
    { repeat constructor. }
    destruct (NextToken_identifier l1 [" "%char] _ (Literal i) W1 R1)
      as (ti & l2 & N2 & T2 & L2 & W2 & I2 & R2); auto.
    { repeat constructor. }
    { destruct more as [|[o' i'] more']; simpl; auto. }
    destruct (IH l2 rst W2 Hlits' R2 Hend)
      as (more' & l' & X1 & X2 & X3 & X4 & X5 & X6).
    exists ((to, ti) :: more'), l'. cbn [flat_map fst snd].
    split.
    { econstructor; [exact N1|rewrite T1; discriminate|].
      econstructor; [exact N2|rewrite T2; discriminate|exact X1]. }
    split; [exact X2|]. split; [congruence|]. split; [exact X4|].
    split; [constructor; auto|].
    constructor; [|exact X6]. cbn [fst snd]. split; congruence.
Qed.

Lemma chars_chainTree (c : ChainTokens) :
  chars (PermissionExpression_String (chainTree c))
  = chars (Literal (fst c))
    ++ flat_map (fun oa => " "%char :: chars (Literal (fst oa))
                             ++ " "%char :: chars (Literal (snd oa)))
         (snd c).
Proof.
  unfold chainTree. rewrite (chars_fold_left identLeaf). reflexivity.
Qed.

(** The lexer on the text of a primary. *)
Lemma lexes_chain (c : ChainTokens) (l : Lexer) (ws rst : list ascii) :
  wf l -> chainLits c -> allWhitespace ws ->
  remaining l
  = ws ++ chars (PermissionExpression_String (chainTree c)) ++ rst ->
  isIdentChar (hd NUL rst) = false ->
  exists c' l',
    lexes l (chainTokens c') l' /\
    wf l' /\ input l' = input l /\ remaining l' = rst /\
    chainTyped c' /\ sameChain c c'.
Proof.
  destruct c as [i more]. intros Hwf [[Hi Hk] Hmore] Hws Hr Hend.
  cbn [fst snd] in Hi, Hk, Hmore.
  rewrite chars_chainTree in Hr. cbn [fst snd] in Hr.
  rewrite <- app_assoc in Hr.
  destruct (NextToken_identifier l ws _ (Literal i) Hwf Hr Hws Hi Hk)
    as (ti & l1 & N1 & T1 & L1 & W1 & I1 & R1).
  { destruct more as [|[o' i'] more']; simpl; auto. }
  destruct (lexes_arrows more l1 rst W1 Hmore R1 Hend)
    as (more' & l' & X1 & X2 & X3 & X4 & X5 & X6).
  exists (ti, more'), l'. unfold chainTokens, chainTyped, sameChain.
  cbn [fst snd].
  split; [econstructor; [exact N1|rewrite T1; discriminate|exact X1]|].
  split; [exact X2|]. split; [congruence|]. split; [exact X4|].
  split; [split; assumption|]. split; [congruence|exact X6].
Qed.

(** The lexer on the text of the pairs of a plus sign and a primary. *)
Lemma lexes_pluses (more : list (Token * ChainTokens)) :
  forall l rst,
    wf l ->
    Forall (fun oc => Literal (fst oc) = "+" /\ chainLits (snd oc)) more ->
    remaining l
    = flat_map
        (fun oc => " "%char :: chars (Literal (fst oc))
                     ++ " "%char
                        :: chars (PermissionExpression_String
                                    (chainTree (snd oc)))) more
      ++ rst ->
    isIdentChar (hd NUL rst) = false ->
    exists more' l',
      lexes l (flat_map (fun oc => fst oc :: chainTokens (snd oc)) more') l' /\
      wf l' /\ input l' = input l /\ remaining l' = rst /\
      Forall (fun oc => Type_ (fst oc) = PLUS /\ chainTyped (snd oc)) more' /\
      Forall2 (fun oc oc' => Literal (fst oc) = Literal (fst oc')
                             /\ sameChain (snd oc) (snd oc'))
        more more'.
Proof.
  induction more as [|[o c] more IH]; intros l rst Hwf Hlits Hr Hend.
  - exists [], l. simpl in *.
    exact (conj (lexes_nil l)
             (conj Hwf (conj eq_refl (conj Hr
                (conj (Forall_nil _) (Forall2_nil _)))))).
  - inversion Hlits as [|? ? [Ho Hc] Hlits']; subst.
    cbn [fst snd] in Ho, Hc. cbn [flat_map fst snd] in Hr.
    rewrite Ho in Hr. simpl in Hr. rewrite <- app_assoc in Hr.
    destruct (NextToken_plus l [" "%char] _ Hwf Hr)
      as (to & l1 & N1 & T1 & L1 & W1 & I1 & R1).
    { repeat constructor. }
    pose proof (fun rst' H1 H2 => lexes_chain c l1 [" "%char] rst' W1 Hc H1 H2)
      as LC.
    specialize (LC _ ltac:(repeat constructor) R1).
    destruct LC as (c' & l2 & Y1 & Y2 & Y3 & Y4 & Y5 & Y6).
    { destruct more as [|[o' c''] more']; simpl; auto. }
    destruct (IH l2 rst Y2 Hlits' Y4 Hend)
      as (more' & l' & X1 & X2 & X3 & X4 & X5 & X6).
    exists ((to, c') :: more'), l'. cbn [flat_map fst snd].
    split.
    { econstructor; [exact N1|rewrite T1; discriminate|].
      eapply lexes_app; eassumption. }
    split; [exact X2|]. split; [congruence|]. split; [exact X4|].
    split; [constructor; auto|].
    constructor; [|exact X6]. cbn [fst snd]. split; [congruence|exact Y6].
Qed.

Lemma sameAdditive_tree (c0 c0' : ChainTokens)
  (more more' : list (Token * ChainTokens)) :
  sameChain c0 c0' ->
  Forall2 (fun oc oc' => Literal (fst oc) = Literal (fst oc')
                         /\ sameChain (snd oc) (snd oc')) more more' ->
  additiveTree c0 more = additiveTree c0' more'.
Proof.
  intros H0 Hm. unfold additiveTree. rewrite (sameChain_tree _ _ H0).
  generalize (chainTree c0') as left.
  induction Hm as [|oc oc' more more' [Ho Hc] _ IH]; intros left; simpl.
  - reflexivity.
  - unfold binaryNode at 2 4. rewrite Ho, (sameChain_tree _ _ Hc). apply IH.
Qed.

(** The lexer on the text of a permission expression: it returns the
    tokens of an expression with the same tree, then end-of-input. *)
Lemma lexes_additive (c0 : ChainTokens) (more : list (Token * ChainTokens))
  (l : Lexer) :
  wf l -> additiveLits c0 more ->
  remaining l = chars (PermissionExpression_String (additiveTree c0 more)) ->
  exists c0' more' l',
    lexes l (additiveTokens c0' more') l' /\
    wf l' /\ remaining l' = [] /\
    additiveTyped c0' more' /\
    additiveTree c0' more' = additiveTree c0 more.
Proof.
  intros Hwf [H0 Hmore] Hr. unfold additiveTree in Hr.
  rewrite (chars_fold_left chainTree) in Hr.
  destruct (lexes_chain c0 l [] _ Hwf H0 (Forall_nil _) Hr)
    as (c0' & l1 & Y1 & Y2 & Y3 & Y4 & Y5 & Y6).
  { destruct more as [|[o' c''] more']; simpl; auto. }
  rewrite <- (app_nil_r (flat_map _ more)) in Y4.
  destruct (lexes_pluses more l1 [] Y2 Hmore Y4 eq_refl)
    as (more' & l' & X1 & X2 & X3 & X4 & X5 & X6).
  exists c0', more', l'. unfold additiveTokens.
  split; [eapply lexes_app; eassumption|].
  split; [exact X2|]. split; [exact X4|].
  split; [split; assumption|].
  symmetry. now apply sameAdditive_tree.
Qed.

Lemma tokenOK_identifier (t : Token) :
  tokenOK t -> Type_ t = IDENTIFIER -> identLit (Literal t).
Proof. unfold tokenOK. intros H E. now rewrite E in H. Qed.

Lemma tokenOK_arrow (t : Token) :
  tokenOK t -> Type_ t = MINUS_ARROW -> Literal t = "->".
Proof. unfold tokenOK. intros H E. now rewrite E in H. Qed.

Lemma tokenOK_plus (t : Token) :
  tokenOK t -> Type_ t = PLUS -> Literal t = "+".
Proof. unfold tokenOK. intros H E. now rewrite E in H. Qed.

Lemma chainTyped_lits (c : ChainTokens) :
  chainTyped c -> Forall tokenOK (chainTokens c) -> chainLits c.
Proof.
  destruct c as [i more]. unfold chainTyped, chainTokens, chainLits.
  cbn [fst snd]. intros [Hi Hm] Hok. inversion Hok as [|? ? Oi Om]; subst.
  split; [now apply tokenOK_identifier|].
  clear Hi Oi Hok. induction Hm as [|[o a] more [Ho Ha] _ IH]; simpl in *.
  - constructor.
  - inversion Om as [|? ? Oo Om']; subst.
    inversion Om' as [|? ? Oa Om'']; subst.
    constructor; [|now apply IH]. cbn [fst snd] in *.
    split; [now apply tokenOK_arrow|now apply tokenOK_identifier].
Qed.

Lemma additiveTyped_lits (c0 : ChainTokens)
  (more : list (Token * ChainTokens)) :
  additiveTyped c0 more -> Forall tokenOK (additiveTokens c0 more) ->
  additiveLits c0 more.
Proof.
  unfold additiveTyped, additiveTokens, additiveLits.
  intros [H0 Hm] Hok. apply Forall_app in Hok as [O0 Om].
  split; [now apply chainTyped_lits|].
  clear H0 O0.
  induction Hm as [|[o c] more [Ho Hc] _ IH]; cbn [flat_map fst snd] in *.
  - constructor.
  - inversion Om as [|? ? Oo Om']; subst.
    change (Forall tokenOK
              (chainTokens c
               ++ flat_map (fun oc : Token * ChainTokens =>
                              fst oc :: chainTokens (snd oc)) more)) in Om'.
    apply Forall_app in Om' as [Oc Om''].
    constructor; [|now apply IH]. cbn [fst snd] in *.
    split; [now apply tokenOK_plus|now apply chainTyped_lits].
Qed.

Lemma reparse_additive (c0 : ChainTokens) (more : list (Token * ChainTokens)) :
  additiveLits c0 more ->
  reparse (additiveTree c0 more) = Some (Ok (additiveTree c0 more), EOF).
Proof.
  intros Hlits. unfold reparse.
  set (text := PermissionExpression_String (additiveTree c0 more)).
  destruct (lexes_additive c0 more (NewLexer text) (NewLexer_wf text) Hlits
              (NewLexer_remaining text))
    as (c0' & more' & l' & L1 & L2 & L3 & L4 & L5).
  destruct (NextToken_end l' [] L2 L3 (Forall_nil _)) as (eof & l'' & N & E).
  destruct (TokenizeAll_total text) as (body & t & T & _).
  pose proof (TokenizeAll_fuel_lexes _ _ _ L1 eof l'' _ [] _ N E T) as R.
  rewrite app_nil_l in R. rewrite T, R. cbn [obind].
  destruct (parsePermissionExpression_yields c0' more'
              (NewParser (additiveTokens c0' more' ++ [eof])) [eof]
              eq_refl L4)
    as (p' & P1 & P2 & P3).
  { unfold stopsAt. simpl. rewrite E. discriminate. }
  { unfold stopsAt. simpl. rewrite E. discriminate. }
  rewrite P1. cbn [obind fst snd]. rewrite peek_rest, P3. simpl.
  now rewrite E, L5.
Qed.

(* ================================================================== *)
(** * Lines and columns *)
(* ================================================================== *)

Lemma readCharWhile_stop (cond : ascii -> bool) (fuel : nat) (l : Lexer) :
  cond (ch l) = false -> readCharWhile cond fuel l = Some l.
Proof. intros H. destruct fuel; simpl; now rewrite H. Qed.

Lemma readChar_line (l : Lexer) :
  line (readChar l)
  = (if Ascii.eqb (ch (readChar l)) LF then line l + 1 else line l)%Z.
Proof. reflexivity. Qed.

Lemma readChar_linePosition (l : Lexer) :
  linePosition (readChar l)
  = (if Ascii.eqb (ch (readChar l)) LF then 0 else linePosition l + 1)%Z.
Proof. reflexivity. Qed.

(** The line and the position after a scanning loop that has read at
    least one byte and none of whose bytes is a newline: the loop stops
    at the first byte that fails the condition, and [readChar] has
    already counted that byte. *)
Lemma readCharWhile_lines (cond : ascii -> bool) :
  cond NUL = false -> cond LF = false ->
  forall fuel l l',
    wf l -> cond (ch l) = true ->
    readCharWhile cond fuel l = Some l' ->
    line l' = (if Ascii.eqb (ch l') LF then line l + 1 else line l)%Z /\
    linePosition l'
    = (if Ascii.eqb (ch l') LF then 0
       else linePosition l
            + Z.of_nat (List.length (takeWhile cond (remaining l))))%Z.
Proof.
  intros HNUL HLF. induction fuel as [|fuel IH]; intros l l' Hwf Hc Hrun.
  - simpl in Hrun. rewrite Hc in Hrun. discriminate.
  - simpl in Hrun. rewrite Hc in Hrun.
    pose proof Hwf as [_ Hch].
    destruct (remaining l) as [|c r] eqn:Er.
    { simpl in Hch. rewrite Hch, HNUL in Hc. discriminate. }
    simpl in Hch. rewrite Hch in Hc. cbn [takeWhile]. rewrite Hc.
    pose proof (readChar_wf l) as W1.
    pose proof (readChar_remaining l Hwf) as R1. rewrite Er in R1.
    simpl in R1.
    destruct (cond (ch (readChar l))) eqn:C1.
    + assert (Ascii.eqb (ch (readChar l)) LF = false) as NL.
      { destruct (Ascii.eqb_spec (ch (readChar l)) LF) as [K|K]; auto.
        rewrite K, HLF in C1. discriminate. }
      destruct (IH (readChar l) l' W1 C1 Hrun) as [L P].
      rewrite readChar_line, readChar_linePosition, NL, R1 in *.
      split; [exact L|]. rewrite P.
      destruct (Ascii.eqb (ch l') LF); [reflexivity|].
      cbn [List.length]. lia.
    + rewrite (readCharWhile_stop cond fuel _ C1) in Hrun.
      injection Hrun as <-.
      rewrite readChar_line, readChar_linePosition.
      split; [reflexivity|].
      destruct W1 as [_ Hc1]. rewrite R1 in Hc1.
      assert (takeWhile cond r = []) as ->.
      { destruct r as [|d r']; [reflexivity|]. cbn [hd] in Hc1.
        cbn [takeWhile]. now rewrite <- Hc1, C1. }
      reflexivity.
Qed.

Lemma NewLexer_line (s : string) :
  line (NewLexer s)
  = (if Ascii.eqb (ch (NewLexer s)) LF then 2 else 1)%Z.
Proof. reflexivity. Qed.

Lemma NewLexer_linePosition (s : string) :
  linePosition (NewLexer s)
  = (if Ascii.eqb (ch (NewLexer s)) LF then 0 else 1)%Z.
Proof. reflexivity. Qed.

(** An identifier at the start of the input and a newline directly after
    it: the token records line 2 and a negative position. *)
Lemma NextToken_identifier_before_newline (x rst : string) :
  isIdentifierText x = true ->
  exists l',
    NextToken (NewLexer (x ++ String LF rst))
    = Some ({| Type_ := lookupIdent x; Literal := x; Line := 2;
               Position := - Z.of_nat (String.length x) |}, l').
Proof.
  intros Hx.
  destruct (isIdentifierText_chars x Hx) as (c & r & Ex & Hc & Hall).
  destruct (isLetter_tests c Hc) as [Hnw Htests].
  set (l := NewLexer (x ++ String LF rst)).
  pose proof (NewLexer_wf (x ++ String LF rst)) as Hwf. fold l in Hwf.
  assert (Hr : remaining l = (c :: r) ++ LF :: chars rst).
  { unfold l. rewrite NewLexer_remaining. fold (chars (x ++ String LF rst)).
    rewrite chars_app. unfold chars at 1. rewrite Ex. reflexivity. }
  pose proof Hwf as [_ Hch]. rewrite Hr in Hch. change (ch l = c) in Hch.
  assert (Hline : line l = 1%Z /\ linePosition l = 1%Z).
  { unfold l. rewrite NewLexer_line, NewLexer_linePosition. fold l.
    rewrite Hch, (Htests LF eq_refl). split; reflexivity. }
  destruct Hline as [Hline Hpos].
  destruct (readCharWhile_spec isIdentChar isIdentChar_NUL (scanFuel l) l
              Hwf (remaining_le_scanFuel l)) as (l' & H1 & H2 & H3 & H4 & H5).
  assert (Hic : isIdentChar (ch l) = true)
    by (rewrite Hch; unfold isIdentChar; now rewrite Hc).
  destruct (readCharWhile_lines isIdentChar isIdentChar_NUL eq_refl
              (scanFuel l) l l' Hwf Hic H1) as [L P].
  rewrite Hr in H4, P.
  rewrite (dropWhile_app isIdentChar (c :: r) (LF :: chars rst) Hall eq_refl)
    in H4.
  pose proof H2 as [_ Hch']. rewrite H4 in Hch'. change (ch l' = LF) in Hch'.
  rewrite Hch' in L, P. change (Ascii.eqb LF LF) with true in L, P.
  cbv iota in L, P. rewrite Hline in L.
  assert (Hlit : readIdentifier l = Some (x, l')).
  { destruct (readIdentifier_spec l Hwf) as (l2 & I1 & _).
    unfold readIdentifier in *. rewrite H1 in *. cbn [obind] in *.
    injection I1 as Ea _. do 2 f_equal. etransitivity; [exact Ea|].
    rewrite Hr.
    rewrite (takeWhile_app isIdentChar (c :: r) (LF :: chars rst) Hall
               eq_refl).
    now rewrite <- Ex, string_of_list_ascii_of_string. }
  exists l'. unfold NextToken. rewrite NextToken_fuel_eq.
  unfold skipWhitespace. rewrite readCharWhile_stop by (now rewrite Hch).
  cbn [obind]. rewrite skipComments_id.
  2:{ unfold atComment. rewrite Hch, (Htests "/"%char eq_refl). reflexivity. }
  cbn [obind]. unfold switchToken. rewrite Hch.
  repeat match goal with
         | |- context [Ascii.eqb c ?d] => rewrite (Htests d) by reflexivity
         end.
  rewrite Hc, Hlit. cbn [obind]. rewrite L, P. reflexivity.
Qed.

(* ================================================================== *)
(** * Properties of the specification *)
(* ================================================================== *)

(** C1: the document [definition d { permission p = a + b -> c }] parses
    to one definition with exactly one permission, named [p], whose
    expression tree is [BinaryOp("+", a, BinaryOp("->", b, c))], and the
    serialized text of that expression is exactly [a + b -> c]. *)
Theorem C1_permission_plus_arrow :
  let expr :=
    BinaryOpNode "+" (IdentifierNode "a")
      (BinaryOpNode "->" (IdentifierNode "b") (IdentifierNode "c")) in
  parseDocument "definition d { permission p = a + b -> c }"
  = Some (Ok [ {| dn_ObjectType := {| ot_Name := "d"; ot_Prefix := "" |};
                  dn_Relations := [];
                  dn_Permissions :=
                    [ {| pn_Name := "p"; pn_Expression := expr |} ] |} ])
  /\ PermissionExpression_String expr = "a + b -> c"
  /\ convertPermission {| pn_Name := "p"; pn_Expression := expr |}
     = {| perm_Name := "p"; perm_Expression := "a + b -> c" |}.
Proof. vm_compute. auto. Qed.

(** C2: the types of a relation are the rendered [SingleRelation] leaves
    of its expression in left-to-right order, for every relation
    expression and so for the left-nested ones the parser builds;
    [a | b | c] gives [[a; b; c]] and a union, [a] gives [[a]] and no
    union; and [IsUnion] holds exactly when there is more than one type. *)
Theorem C2_types_are_leaves_left_to_right :
  (forall e,
      extractTypesFromRelationExpression e = map renderLeaf (leaves e)) /\
  (forall s0 more,
      extractTypesFromRelationExpression (unionTree s0 more)
      = map (fun s => RelationExpression_String (singleTree s))
          (s0 :: map snd more)) /\
  (forall astRel,
      rel_Types (convertRelation astRel)
      = map renderLeaf (leaves (rn_Expression astRel)) /\
      (rel_IsUnion (convertRelation astRel) = true
       <-> 1 < List.length (rel_Types (convertRelation astRel)))) /\
  (forall env g,
      os_ReadFile env (schemaFile g)
      = Ok "definition d { relation r: a | b | c }" ->
      option_map fst (parseSchema env g)
      = Some (Ok {| sch_Definitions :=
                      [ {| def_Name := "d"; def_Package := "authz";
                           def_Relations :=
                             [ {| rel_Name := "r";
                                  rel_Types := ["a"; "b"; "c"];
                                  rel_IsUnion := true |} ];
                           def_Permissions := [] |} ] |})) /\
  (forall env g,
      os_ReadFile env (schemaFile g) = Ok "definition d { relation r: a }" ->
      option_map fst (parseSchema env g)
      = Some (Ok {| sch_Definitions :=
                      [ {| def_Name := "d"; def_Package := "authz";
                           def_Relations :=
                             [ {| rel_Name := "r";
                                  rel_Types := ["a"];
                                  rel_IsUnion := false |} ];
                           def_Permissions := [] |} ] |})).
Proof.
  split; [exact extractTypes_leaves|].
  split.
  { intros s0 more. rewrite extractTypes_leaves. unfold unionTree.
    rewrite leaves_fold_union. simpl. f_equal.
    induction more as [|os more IH]; simpl; auto.
    now rewrite IH. }
  split.
  { intros astRel. split.
    - apply extractTypes_leaves.
    - unfold convertRelation. simpl. apply Nat.ltb_lt. }
  split; intros env g H; unfold parseSchema; rewrite H; vm_compute;
    reflexivity.
Qed.

(** C2 at a schema file that holds [definition d { relation r: a | b | c }]. *)
Lemma C2_types_are_leaves_left_to_right_witness :
  option_map fst
    (parseSchema
       (exampleEnv (fun _ => Ok "definition d { relation r: a | b | c }") Ok)
       {| schemaFile := "schema.zed"; outputDir := "." |})
  = Some (Ok {| sch_Definitions :=
                  [ {| def_Name := "d"; def_Package := "authz";
                       def_Relations :=
                         [ {| rel_Name := "r";
                              rel_Types := ["a"; "b"; "c"];
                              rel_IsUnion := true |} ];
                       def_Permissions := [] |} ] |}).
Proof.
  apply (proj1 (proj2 (proj2 (proj2 C2_types_are_leaves_left_to_right)))).
  reflexivity.
Defined.

(** C3: for a schema with at least one definition, one run writes one
    file, named after one package, rendered from one template value that
    holds all the definitions; the package is the prefix of the first
    definition when it has one and [authz] otherwise, whatever the
    prefixes of the other definitions. *)
Theorem C3_one_package_from_first_definition :
  forall (env : Env) (g : Generator) (content : string)
         (d : DefinitionNode) (ds : list DefinitionNode) (buf : string),
    sortContract (sort_Slice env) ->
    os_ReadFile env (schemaFile g) = Ok content ->
    parseDocument content = Some (Ok (d :: ds)) ->
    os_MkdirAll env (outputDir g) = None ->
    template_Parse env = None ->
    let pkg := if String.eqb (ot_Prefix (dn_ObjectType d)) "" then "authz"
               else ot_Prefix (dn_ObjectType d) in
    let data :=
      {| td_Package := pkg;
         td_Definitions :=
           sort_Slice env lessByName (map convertDefinition (d :: ds)) |} in
    template_Execute env data = Ok buf ->
    exists out text,
      Generate env g = Some out /\
      out_writes out
      = [(filepath_Join env (outputDir g) (pkg ++ ".gen.go")%string, text)] /\
      (format_Source env buf = Ok text
       \/ (text = buf /\ exists e, format_Source env buf = Err e)) /\
      Permutation (map convertDefinition (d :: ds)) (td_Definitions data).
Proof.
  intros env g content d ds buf Hsort Hread Hparse Hdir Htmpl pkg data Hexec.
  pose proof (Generate_parsed env g content (d :: ds) Hread Hparse) as HG.
  change (packageNameOf (d :: ds)) with pkg in HG.
  rewrite (generateCode_rendered env g pkg _ buf Hdir Htmpl Hexec) in HG.
  eexists _, _. split; [exact HG|]. split; [reflexivity|]. split.
  - destruct (format_Source env buf) as [text|e]; [now left|right].
    split; [reflexivity|now exists e].
  - apply Hsort.
Qed.

(** C3 at a document of two definitions with the prefixes [t] and [u]. *)
Lemma C3_one_package_from_first_definition_witness :
  exists out text,
    Generate
      (exampleEnv (fun _ => Ok "definition t/a {} definition u/b {}") Ok)
      {| schemaFile := "schema.zed"; outputDir := "out" |} = Some out /\
    out_writes out = [("out/t.gen.go", text)].
Proof.
  destruct (C3_one_package_from_first_definition
              (exampleEnv (fun _ => Ok "definition t/a {} definition u/b {}")
                 Ok)
              {| schemaFile := "schema.zed"; outputDir := "out" |}
              "definition t/a {} definition u/b {}"
              {| dn_ObjectType := {| ot_Name := "a"; ot_Prefix := "t" |};
                 dn_Relations := []; dn_Permissions := [] |}
              [ {| dn_ObjectType := {| ot_Name := "b"; ot_Prefix := "u" |};
                   dn_Relations := []; dn_Permissions := [] |} ]
              (renderTemplate
                 {| td_Package := "t";
                    td_Definitions :=
                      insertionSort lessByName
                        (map convertDefinition
                           [ {| dn_ObjectType :=
                                  {| ot_Name := "a"; ot_Prefix := "t" |};
                                dn_Relations := []; dn_Permissions := [] |};
                             {| dn_ObjectType :=
                                  {| ot_Name := "b"; ot_Prefix := "u" |};
                                dn_Relations := []; dn_Permissions := [] |} ])
                 |})
              insertionSort_contract eq_refl)
    as (out & text & H1 & H2 & _).
  - vm_compute. reflexivity.
  - reflexivity.
  - reflexivity.
  - reflexivity.
  - exists out, text. split; [exact H1|exact H2].
Defined.

(** C4 as stated fails.  Two documents hold the same two definitions,
    [a/x] and [b/y], in the two orders: the generated texts differ,
    because the package is that of the definition that comes first in the
    document.  And two documents hold the same three definitions with the
    same one first, two of them named [x]: the generated texts differ,
    because the sort leaves definitions of one name in document order. *)
Lemma C4_source_order_shows :
  (exists defs1 defs2,
      parseDocument "definition a/x {} definition b/y {}" = Some (Ok defs1) /\
      parseDocument "definition b/y {} definition a/x {}" = Some (Ok defs2) /\
      Permutation defs1 defs2 /\
      generatedText
        (exampleEnv (fun _ => Ok "definition a/x {} definition b/y {}") Ok)
        exampleGenerator
      <> generatedText
           (exampleEnv (fun _ => Ok "definition b/y {} definition a/x {}") Ok)
           exampleGenerator) /\
  (exists defs1 defs2,
      parseDocument
        "definition a/y {} definition a/x { relation r: u } definition b/x { relation s: u }"
      = Some (Ok defs1) /\
      parseDocument
        "definition a/y {} definition b/x { relation s: u } definition a/x { relation r: u }"
      = Some (Ok defs2) /\
      Permutation defs1 defs2 /\
      generatedText
        (exampleEnv
           (fun _ => Ok "definition a/y {} definition a/x { relation r: u } definition b/x { relation s: u }")
           Ok)
        exampleGenerator
      <> generatedText
           (exampleEnv
              (fun _ => Ok "definition a/y {} definition b/x { relation s: u } definition a/x { relation r: u }")
              Ok)
           exampleGenerator).
Proof.
  split.
  - eexists _, _. split; [vm_compute; reflexivity|].
    split; [vm_compute; reflexivity|].
    split; [apply perm_swap|].
    vm_compute. discriminate.
  - eexists _, _. split; [vm_compute; reflexivity|].
    split; [vm_compute; reflexivity|].
    split; [apply perm_skip, perm_swap|].
    vm_compute. discriminate.
Qed.

(** C4, amended: two documents that hold the same definitions in
    different orders, with pairwise distinct definition names and with
    the same package for the definition that comes first, give the same
    run: the same files with the same text, the same error, the same log.
    The definitions are handed to the template sorted by name ascending,
    in an order that does not depend on the document order. *)
Theorem C4_same_text_for_distinct_names_and_same_package :
  forall (env : Env) (g1 g2 : Generator) (s1 s2 : string)
         (defs1 defs2 : list DefinitionNode),
    sortContract (sort_Slice env) ->
    os_ReadFile env (schemaFile g1) = Ok s1 ->
    os_ReadFile env (schemaFile g2) = Ok s2 ->
    outputDir g1 = outputDir g2 ->
    parseDocument s1 = Some (Ok defs1) ->
    parseDocument s2 = Some (Ok defs2) ->
    Permutation defs1 defs2 ->
    NoDup (map (fun d => ot_Name (dn_ObjectType d)) defs1) ->
    packageNameOf defs1 = packageNameOf defs2 ->
    Generate env g1 = Generate env g2 /\
    sort_Slice env lessByName (map convertDefinition defs1)
    = sort_Slice env lessByName (map convertDefinition defs2) /\
    StronglySorted
      (fun a b => String.ltb (def_Name b) (def_Name a) = false)
      (sort_Slice env lessByName (map convertDefinition defs1)).
Proof.
  intros env g1 g2 s1 s2 defs1 defs2 Hsort R1 R2 Hdir P1 P2 Hperm Hnd Hpkg.
  assert (sort_Slice env lessByName (map convertDefinition defs1)
          = sort_Slice env lessByName (map convertDefinition defs2)) as Heq.
  { destruct (Hsort (map convertDefinition defs1)) as [Pa Sa].
    destruct (Hsort (map convertDefinition defs2)) as [Pb Sb].
    apply sorted_by_name_unique; auto.
    - eapply perm_trans; [apply Permutation_sym; exact Pa|].
      eapply perm_trans; [|exact Pb]. now apply Permutation_map.
    - eapply Permutation_NoDup; [apply Permutation_map; exact Pa|].
      now rewrite map_map. }
  split; [|split; [exact Heq|apply Hsort]].
  rewrite (Generate_parsed env g1 s1 defs1 R1 P1).
  rewrite (Generate_parsed env g2 s2 defs2 R2 P2).
  rewrite Hpkg. do 2 f_equal.
  unfold generateCode. now rewrite Hdir, Heq.
Qed.

(** C4, amended, at two documents that hold [a/x] and [a/y] in the two
    orders. *)
Lemma C4_same_text_for_distinct_names_and_same_package_witness :
  let read file :=
    if String.eqb file "1.zed" then Ok "definition a/x {} definition a/y {}"
    else Ok "definition a/y {} definition a/x {}" in
  Generate (exampleEnv read Ok) {| schemaFile := "1.zed"; outputDir := "out" |}
  = Generate (exampleEnv read Ok) {| schemaFile := "2.zed"; outputDir := "out" |}.
Proof.
  intros read.
  refine (proj1 (C4_same_text_for_distinct_names_and_same_package
                   (exampleEnv read Ok)
                   {| schemaFile := "1.zed"; outputDir := "out" |}
                   {| schemaFile := "2.zed"; outputDir := "out" |}
                   "definition a/x {} definition a/y {}"
                   "definition a/y {} definition a/x {}"
                   [ {| dn_ObjectType := {| ot_Name := "x"; ot_Prefix := "a" |};
                        dn_Relations := []; dn_Permissions := [] |};
                     {| dn_ObjectType := {| ot_Name := "y"; ot_Prefix := "a" |};
                        dn_Relations := []; dn_Permissions := [] |} ]
                   [ {| dn_ObjectType := {| ot_Name := "y"; ot_Prefix := "a" |};
                        dn_Relations := []; dn_Permissions := [] |};
                     {| dn_ObjectType := {| ot_Name := "x"; ot_Prefix := "a" |};
                        dn_Relations := []; dn_Permissions := [] |} ]
                   insertionSort_contract eq_refl eq_refl eq_refl
                   _ _ _ _ _)).
  - vm_compute. reflexivity.
  - vm_compute. reflexivity.
  - apply perm_swap.
  - repeat constructor; simpl; intuition discriminate.
  - reflexivity.
Defined.

(** C5: serializing a permission expression the parser has built and
    parsing the text again as a permission expression gives the same
    tree, and the second parse stops at the end of the text. *)
Theorem C5_permission_expression_round_trip :
  forall (s : string) (defs : list DefinitionNode)
         (d : DefinitionNode) (perm : PermissionNode),
    parseDocument s = Some (Ok defs) ->
    In d defs -> In perm (dn_Permissions d) ->
    reparse (pn_Expression perm) = Some (Ok (pn_Expression perm), EOF).
Proof.
  intros s defs d perm Hparse Hd Hperm. unfold parseDocument in Hparse.
  destruct (TokenizeAll_total s) as (body & t & T & Et & _ & Hok).
  rewrite T in Hparse. cbn [obind] in Hparse.
  destruct (ParseDefinitions (NewParser (body ++ [t]))) as [[r p']|] eqn:P;
    [|discriminate].
  cbn [obind fst] in Hparse. injection Hparse as ->.
  pose proof (parsed_permissions_shape _ _ _ P) as Hshape.
  rewrite Forall_forall in Hshape. specialize (Hshape d Hd).
  unfold definitionShape in Hshape. rewrite Forall_forall in Hshape.
  destruct (Hshape perm Hperm) as (c0 & more & He & Hty & Hin).
  rewrite He. apply reparse_additive. apply additiveTyped_lits; [exact Hty|].
  assert (Forall tokenOK (body ++ [t])) as Hall.
  { apply Forall_app. split; [exact Hok|]. constructor; [|constructor].
    unfold tokenOK. now rewrite Et. }
  rewrite Forall_forall in Hall, Hin. apply Forall_forall.
  intros x Hx. apply Hall. now apply Hin.
Qed.

(** C5 at the document [definition d { permission p = a + b -> c }]. *)
Lemma C5_permission_expression_round_trip_witness :
  let expr :=
    BinaryOpNode "+" (IdentifierNode "a")
      (BinaryOpNode "->" (IdentifierNode "b") (IdentifierNode "c")) in
  reparse expr = Some (Ok expr, EOF).
Proof.
  intros expr.
  apply (C5_permission_expression_round_trip
           "definition d { permission p = a + b -> c }"
           [ {| dn_ObjectType := {| ot_Name := "d"; ot_Prefix := "" |};
                dn_Relations := [];
                dn_Permissions :=
                  [ {| pn_Name := "p"; pn_Expression := expr |} ] |} ]
           {| dn_ObjectType := {| ot_Name := "d"; ot_Prefix := "" |};
              dn_Relations := [];
              dn_Permissions :=
                [ {| pn_Name := "p"; pn_Expression := expr |} ] |}
           {| pn_Name := "p"; pn_Expression := expr |}).
  - vm_compute. reflexivity.
  - left. reflexivity.
  - left. reflexivity.
Defined.

(** C6: a pipe chain, a plus chain and an arrow chain each parse to the
    left fold of their operands.  For the tokens of subject types
    separated by pipes the result is [unionTree], the left fold of
    [UnionRelationNode]; for the tokens of primaries separated by plus
    signs it is [additiveTree], the left fold of [BinaryOpNode] over the
    primaries, each primary being [chainTree], the left fold of the arrow
    over its identifiers.  So [a | b | c] is [Union(Union(a, b), c)]. *)
Theorem C6_chains_fold_left :
  (forall s0 more p r,
      rest p = unionTokens s0 more ++ r ->
      unionTyped s0 more ->
      stopsAt PIPE r -> stopsAt SLASH r -> stopsAt HASH r ->
      yields parseRelationExpression p (unionTree s0 more) r) /\
  (forall c0 more p r,
      rest p = additiveTokens c0 more ++ r ->
      additiveTyped c0 more ->
      stopsAt PLUS r -> stopsAt MINUS_ARROW r ->
      yields parsePermissionExpression p (additiveTree c0 more) r) /\
  (forall c p r,
      rest p = chainTokens c ++ r ->
      chainTyped c -> stopsAt MINUS_ARROW r ->
      yields parseIdentifierChain p (chainTree c) r) /\
  parseDocument "definition d { relation r: a | b | c }"
  = Some (Ok [ {| dn_ObjectType := {| ot_Name := "d"; ot_Prefix := "" |};
                  dn_Relations :=
                    [ {| rn_Name := "r";
                         rn_Expression :=
                           UnionRelationNode
                             (UnionRelationNode (SingleRelationNode "a" "")
                                (SingleRelationNode "b" ""))
                             (SingleRelationNode "c" "") |} ];
                  dn_Permissions := [] |} ]) /\
  parseDocument "definition d { permission p = a -> b -> c + d + e }"
  = Some (Ok [ {| dn_ObjectType := {| ot_Name := "d"; ot_Prefix := "" |};
                  dn_Relations := [];
                  dn_Permissions :=
                    [ {| pn_Name := "p";
                         pn_Expression :=
                           BinaryOpNode "+"
                             (BinaryOpNode "+"
                                (BinaryOpNode "->"
                                   (BinaryOpNode "->" (IdentifierNode "a")
                                      (IdentifierNode "b"))
                                   (IdentifierNode "c"))
                                (IdentifierNode "d"))
                             (IdentifierNode "e") |} ] |} ]).
Proof.
  split; [exact parseRelationExpression_yields|].
  split; [exact parsePermissionExpression_yields|].
  split; [exact parseIdentifierChain_yields|].
  split; vm_compute; reflexivity.
Qed.

(** C6 at the tokens of [a | b | c]. *)
Lemma C6_chains_fold_left_witness :
  let ident x := {| Type_ := IDENTIFIER; Literal := x; Line := 1;
                    Position := 1 |} in
  let pipe := {| Type_ := PIPE; Literal := "|"; Line := 1; Position := 1 |} in
  let single x := {| st_type := ident x; st_name := None;
                     st_fragment := None |} in
  yields parseRelationExpression
    (NewParser [ident "a"; pipe; ident "b"; pipe; ident "c"; eofToken])
    (UnionRelationNode
       (UnionRelationNode (SingleRelationNode "a" "")
          (SingleRelationNode "b" ""))
       (SingleRelationNode "c" ""))
    [eofToken].
Proof.
  intros ident pipe single.
  apply (proj1 C6_chains_fold_left (single "a")
           [(pipe, single "b"); (pipe, single "c")]
           (NewParser [ident "a"; pipe; ident "b"; pipe; ident "c"; eofToken])
           [eofToken]).
  - reflexivity.
  - split; [repeat split|]. repeat constructor.
  - discriminate.
  - discriminate.
  - discriminate.
Defined.

(** C7 as stated fails in its second half.  With a formatter that fails
    on the rendered text, [Generate] writes the unformatted text, returns
    no error and logs no error: the run is the same as with a formatter
    that succeeds and returns the text unchanged, so nothing reports the
    formatting error to the caller. *)
Lemma C7_format_error_not_reported :
  let read := fun _ : string => Ok "definition d { permission p = a + b }" in
  let failing := fun _ : string => Err (ErrExternal "format.Source") in
  exists text,
    Generate (exampleEnv read failing) exampleGenerator
    = Some {| out_error := None;
              out_writes := [("out/authz.gen.go", text)];
              out_log := generateLog false |} /\
    format_Source (exampleEnv read failing) text
    = Err (ErrExternal "format.Source") /\
    Forall (fun rec => fst rec <> LevelError) (generateLog false) /\
    Generate (exampleEnv read failing) exampleGenerator
    = Generate (exampleEnv read Ok) exampleGenerator.
Proof.
  intros read failing. eexists. split; [vm_compute; reflexivity|].
  split; [reflexivity|]. split; [|vm_compute; reflexivity].
  repeat constructor; discriminate.
Qed.

(** C7, amended: when formatting the rendered text fails, [generateCode]
    writes the unformatted text instead of returning, and the formatting
    error is dropped: what the caller gets back is the result of writing
    the file, and the log holds no record of the failure. *)
Theorem C7_format_failure_writes_unformatted :
  forall (env : Env) (g : Generator) (content : string)
         (defs : list DefinitionNode) (buf : string) (e : error),
    os_ReadFile env (schemaFile g) = Ok content ->
    parseDocument content = Some (Ok defs) ->
    os_MkdirAll env (outputDir g) = None ->
    template_Parse env = None ->
    let pkg := packageNameOf defs in
    let filename := filepath_Join env (outputDir g) (pkg ++ ".gen.go")%string in
    template_Execute env
      {| td_Package := pkg;
         td_Definitions :=
           sort_Slice env lessByName (map convertDefinition defs) |}
    = Ok buf ->
    format_Source env buf = Err e ->
    generateCode env g pkg (map convertDefinition defs)
    = (os_WriteFile env filename buf, [(filename, buf)]) /\
    exists out,
      Generate env g = Some out /\
      out_writes out = [(filename, buf)] /\
      out_error out
      = option_map (ErrWrap "failed to generate code for package %s" [pkg])
          (os_WriteFile env filename buf) /\
      (os_WriteFile env filename buf = None ->
       out_error out = None /\ out_log out = generateLog false).
Proof.
  intros env g content defs buf e Hread Hparse Hdir Htmpl pkg filename
    Hexec Hfmt.
  pose proof (generateCode_rendered env g pkg _ buf Hdir Htmpl Hexec) as HC.
  cbv zeta in HC. rewrite Hfmt in HC. fold filename in HC.
  split; [exact HC|].
  pose proof (Generate_parsed env g content defs Hread Hparse) as HG.
  fold pkg in HG. rewrite HC in HG.
  eexists. split; [exact HG|]. cbn [outcomeOf out_writes out_error out_log fst snd].
  split; [reflexivity|]. split.
  - now destruct (os_WriteFile env filename buf).
  - intros ->. split; reflexivity.
Qed.

(** C7, amended, at a formatter that fails on every text. *)
Lemma C7_format_failure_writes_unformatted_witness :
  let env :=
    exampleEnv (fun _ => Ok "definition d { permission p = a + b }")
      (fun _ => Err (ErrExternal "format.Source")) in
  exists buf,
    generateCode env exampleGenerator "authz"
      (map convertDefinition
         [ {| dn_ObjectType := {| ot_Name := "d"; ot_Prefix := "" |};
              dn_Relations := [];
              dn_Permissions :=
                [ {| pn_Name := "p";
                     pn_Expression :=
                       BinaryOpNode "+" (IdentifierNode "a")
                         (IdentifierNode "b") |} ] |} ])
    = (None, [("out/authz.gen.go", buf)]).
Proof.
  intros env. eexists.
  refine (proj1 (C7_format_failure_writes_unformatted
                   env exampleGenerator
                   "definition d { permission p = a + b }"
                   [ {| dn_ObjectType := {| ot_Name := "d"; ot_Prefix := "" |};
                        dn_Relations := [];
                        dn_Permissions :=
                          [ {| pn_Name := "p";
                               pn_Expression :=
                                 BinaryOpNode "+" (IdentifierNode "a")
                                   (IdentifierNode "b") |} ] |} ]
                   _ (ErrExternal "format.Source")
                   eq_refl _ eq_refl eq_refl eq_refl eq_refl)).
  vm_compute. reflexivity.
Defined.

(** C8: tokenization returns for every input; the sequence it returns ends
    in an end-of-input token and holds no other one; and it cannot fail:
    from every state of the lexer [NextToken] returns a token, and when
    the byte it stands at after white space and comments is one that no
    case recognizes, the token is [ILLEGAL] and carries that byte. *)
Theorem C8_tokenization_returns :
  (forall s : string,
      exists body t,
        TokenizeAll (NewLexer s) = Some (body ++ [t]) /\
        Type_ t = EOF /\
        Forall (fun t => Type_ t <> EOF) body) /\
  (forall l : Lexer,
      wf l ->
      exists l0 l1 tok l',
        skipWhitespace l = Some l0 /\
        skipComments (scanFuel l0) l0 = Some l1 /\
        NextToken l = Some (tok, l') /\
        (unrecognized (ch l1) = true ->
         Type_ tok = ILLEGAL /\ Literal tok = string_of_byte (ch l1))).
Proof.
  split.
  - intros s. destruct (TokenizeAll_total s) as (body & t & H1 & H2 & H3 & _).
    exists body, t. auto.
  - intros l Hwf.
    destruct (NextToken_fuel_spec (scanFuel l) l Hwf)
      as (l0 & l1 & tok & l' & A & B & N & _ & _ & _ & _ & U).
    exists l0, l1, tok, l'. repeat (split; [assumption|]).
    intros Hu. destruct (U Hu) as [-> _]. split; reflexivity.
Qed.

(** C8 at the input [a $ b], whose [$] no case recognizes. *)
Lemma C8_tokenization_returns_witness :
  exists l0 l1 tok l',
    skipWhitespace (readChar (NewLexer "a $ b")) = Some l0 /\
    skipComments (scanFuel l0) l0 = Some l1 /\
    NextToken (readChar (NewLexer "a $ b")) = Some (tok, l') /\
    (unrecognized (ch l1) = true ->
     Type_ tok = ILLEGAL /\ Literal tok = string_of_byte (ch l1)).
Proof.
  apply (proj2 C8_tokenization_returns). apply readChar_wf.
Defined.

(** C9: the recorded line and position of a token are the line and the
    column of its first character.  The lexer breaks this for an
    identifier or keyword that is directly followed by a newline: in
    [viewerSchema] the identifier [user] starts at offset 36, on line 2 in
    column 20, and the token records line 3 and position -4; every other
    token of the document records the line and column of its first
    character.  And every input that starts with an identifier or a
    keyword [x] directly followed by a newline gives a first token with
    line 2 and position [- len(x)], where line 1 and column 1 are due. *)
Theorem C9_identifier_before_newline_misplaced :
  (forall x rst : string,
      isIdentifierText x = true ->
      lineOfOffset (x ++ String LF rst) 0 = 1%Z /\
      columnOfOffset (x ++ String LF rst) 0 = 1%Z /\
      exists l',
        NextToken (NewLexer (x ++ String LF rst))
        = Some ({| Type_ := lookupIdent x; Literal := x; Line := 2;
                   Position := - Z.of_nat (String.length x) |}, l')) /\
  exists ts t,
    TokenizeAll (NewLexer viewerSchema) = Some ts /\
    nth_error ts 6 = Some t /\
    Type_ t = IDENTIFIER /\ Literal t = "user" /\
    slice (list_ascii_of_string viewerSchema) 36 40 = "user" /\
    lineOfOffset viewerSchema 36 = 2%Z /\
    columnOfOffset viewerSchema 36 = 20%Z /\
    Line t = 3%Z /\ Position t = (-4)%Z /\
    map (fun t => (Literal t, Line t, Position t)) (firstn 6 ts)
    = map (fun oi => (fst oi, lineOfOffset viewerSchema (snd oi),
                      columnOfOffset viewerSchema (snd oi)))
        [("definition", 0); ("doc", 11); ("{", 15); ("relation", 19);
         ("viewer", 28); (":", 34)].
Proof.
  split.
  { intros x rst Hx. split; [reflexivity|]. split; [reflexivity|].
    now apply NextToken_identifier_before_newline. }
  eexists _, _. split; [vm_compute; reflexivity|].
  split; [reflexivity|]. vm_compute. repeat split; reflexivity.
Qed.

(** C10: no successful parse passes a [WILDCARD] or [MINUS] token.  When
    [ParseDefinitions] returns definitions, every token it has passed is
    of neither type; and when the token sequence the lexer returns for a
    document holds a token of either type, [ParseDefinitions] returns an
    error. *)
Theorem C10_wildcard_and_minus_rejected :
  (forall (s : string) (ts : list Token),
      TokenizeAll (NewLexer s) = Some ts ->
      (exists t, In t ts /\ (Type_ t = WILDCARD \/ Type_ t = MINUS)) ->
      exists e p', ParseDefinitions (NewParser ts) = Some (Err e, p')) /\
  (forall (ts : list Token) (defs : list DefinitionNode) (p' : Parser),
      ParseDefinitions (NewParser ts) = Some (Ok defs, p') ->
      exists pre,
        ts = pre ++ rest p' /\
        Forall (fun t => Type_ t <> WILDCARD /\ Type_ t <> MINUS) pre).
Proof.
  split.
  - intros s ts Hts (w & Hin & Hw).
    destruct (returnsAll_ParseDefinitions (fun _ _ => True)
                (fun p => runs_weaken _ _ _ _ _ _ (runs_parseDefinition p)
                            (fun _ _ _ => I) (fun H => H)) ts)
      as (r & p' & E & _ & _ & _).
    destruct r as [defs|e]; [|now exists e, p'].
    exfalso.
    destruct (ParseDefinitions_consumed ts defs p' E) as (pre & R & F & Q).
    destruct (TokenizeAll_total s) as (body & t & H1 & H2 & H3 & _).
    rewrite Hts in H1. injection H1 as ->.
    pose proof (consumed_prefix body pre (rest p') t R H2 H3 F Q) as ->.
    apply in_app_or in Hin as [Hin|[<-|[]]].
    + rewrite Forall_forall in F. specialize (F w Hin).
      destruct Hw as [Hw|Hw]; rewrite Hw in F; discriminate.
    + destruct Hw as [Hw|Hw]; rewrite Hw in H2; discriminate.
  - intros ts defs p' E.
    destruct (ParseDefinitions_consumed ts defs p' E) as (pre & R & F & _).
    exists pre. split; [exact R|].
    eapply Forall_impl; [|exact F]. intros a Ha. cbv beta in Ha.
    split; intros Hw; rewrite Hw in Ha; discriminate.
Qed.

(** C10 at the document [definition d { relation r: * }]. *)
Lemma C10_wildcard_and_minus_rejected_witness :
  TokenizeAll (NewLexer "definition d { relation r: * }")
  = Some wildcardTokens /\
  exists e p', ParseDefinitions (NewParser wildcardTokens) = Some (Err e, p').
Proof.
  assert (E : TokenizeAll (NewLexer "definition d { relation r: * }")
              = Some wildcardTokens) by (vm_compute; reflexivity).
  split; [exact E|].
  apply (proj1 C10_wildcard_and_minus_rejected _ _ E).
  exists {| Type_ := WILDCARD; Literal := "*"; Line := 1; Position := 28 |}.
  split; [|left; reflexivity].
  do 6 right. left. reflexivity.
Defined.

(* ################################################################## *)
(** * Part III: further properties of the code *)
(* ################################################################## *)

(* ================================================================== *)
(** * Validation errors *)
(* ================================================================== *)

Lemma append_nonempty_r (a b : string) : b <> "" -> (a ++ b)%string <> "".
Proof.
  intros Hb H. destruct a; simpl in H; [contradiction|discriminate].
Qed.

(** X1: the message of a collection of validation errors is empty exactly
    when the collection holds no error; and after [Add] the collection
    has errors and a message. *)
Theorem validation_errors_message_empty_iff_none :
  forall e : ValidationErrors,
    (ValidationErrors_Error e = "" <-> ValidationErrors_HasErrors e = false) /\
    (forall field message,
        ValidationErrors_HasErrors (ValidationErrors_Add e field message)
        = true /\
        ValidationErrors_Error (ValidationErrors_Add e field message) <> "").
Proof.
  assert (forall e : ValidationErrors,
             ValidationErrors_Error e = ""
             <-> ValidationErrors_HasErrors e = false) as Hiff.
  { intros e. unfold ValidationErrors_Error, ValidationErrors_HasErrors.
    destruct e as [|x [|y e]]; simpl.
    - split; reflexivity.
    - split; [|discriminate]. intros H. exfalso. revert H.
      unfold ValidationError_Error. apply append_nonempty_r. discriminate.
    - split; [|discriminate]. intros H. exfalso. revert H.
      apply append_nonempty_r. discriminate. }
  intros e. split; [apply Hiff|]. intros field message.
  assert (ValidationErrors_HasErrors (ValidationErrors_Add e field message)
          = true) as Hh.
  { unfold ValidationErrors_HasErrors, ValidationErrors_Add.
    rewrite length_app. simpl. apply Nat.ltb_lt. lia. }
  split; [exact Hh|]. intros H. apply Hiff in H. congruence.
Qed.

(* ================================================================== *)
(** * The types and the text of a relation *)
(* ================================================================== *)

Lemma extractTypes_nonempty (e : RelationExpressionNode) :
  1 <= List.length (extractTypesFromRelationExpression e).
Proof.
  induction e as [v f|l IHl r IHr]; simpl.
  - destruct (negb (String.eqb f "")); simpl; lia.
  - rewrite length_app. lia.
Qed.

(** X2: a relation always has at least one type, so the first type
    exists; and it is marked as a union exactly when its expression is a
    union node, a single subject type giving exactly one type. *)
Theorem relation_types_nonempty_union_iff :
  forall astRel : RelationNode,
    rel_Types (convertRelation astRel) <> [] /\
    (rel_IsUnion (convertRelation astRel) = true
     <-> exists l r, rn_Expression astRel = UnionRelationNode l r) /\
    (forall v f,
        rn_Expression astRel = SingleRelationNode v f ->
        rel_Types (convertRelation astRel) = [renderLeaf (v, f)] /\
        rel_IsUnion (convertRelation astRel) = false).
Proof.
  intros [name e]. unfold convertRelation. cbn [rn_Expression rn_Name
    rel_Types rel_IsUnion].
  split; [|split].
  - pose proof (extractTypes_nonempty e) as H.
    destruct (extractTypesFromRelationExpression e); simpl in H; [lia|].
    discriminate.
  - split.
    + intros H. apply Nat.ltb_lt in H. destruct e as [v f|l r].
      * simpl in H. destruct (negb (String.eqb f "")); simpl in H; lia.
      * now exists l, r.
    + intros (l & r & ->). apply Nat.ltb_lt. simpl. rewrite length_app.
      pose proof (extractTypes_nonempty l).
      pose proof (extractTypes_nonempty r). lia.
  - intros v f ->. rewrite extractTypes_leaves. simpl. auto.
Qed.

Lemma append_assoc (a b c : string) :
  ((a ++ b) ++ c)%string = (a ++ b ++ c)%string.
Proof. induction a as [|x a IH]; simpl; [reflexivity|now rewrite IH]. Qed.

Lemma concat_app_nonempty (sep : string) (a b : list string) :
  a <> [] -> b <> [] ->
  String.concat sep (a ++ b)
  = (String.concat sep a ++ sep ++ String.concat sep b)%string.
Proof.
  intros Ha Hb. induction a as [|x a IH]; [contradiction|].
  destruct a as [|y a].
  - simpl. destruct b; [contradiction|reflexivity].
  - change ((x :: y :: a) ++ b) with (x :: (y :: a) ++ b).
    change (String.concat sep (x :: (y :: a) ++ b))
      with (x ++ sep ++ String.concat sep ((y :: a) ++ b))%string.
    rewrite IH by discriminate.
    change (String.concat sep (x :: y :: a))
      with (x ++ sep ++ String.concat sep (y :: a))%string.
    now rewrite !append_assoc.
Qed.

(** X3: the text of a relation expression is the list of its types
    joined by [" | "]: what [String] prints and what the extractor
    collects agree on every expression. *)
Theorem relation_text_is_types_joined :
  forall e : RelationExpressionNode,
    RelationExpression_String e
    = String.concat " | " (extractTypesFromRelationExpression e).
Proof.
  induction e as [v f|l IHl r IHr]; simpl.
  - now destruct (String.eqb f "").
  - rewrite concat_app_nonempty, IHl, IHr; [reflexivity| |].
    + pose proof (extractTypes_nonempty l) as H.
      destruct (extractTypesFromRelationExpression l); simpl in H; [lia|].
      discriminate.
    + pose proof (extractTypes_nonempty r) as H.
      destruct (extractTypesFromRelationExpression r); simpl in H; [lia|].
      discriminate.
Qed.

(* ================================================================== *)
(** * The text of an expression forgets its grouping *)
(* ================================================================== *)

(** X4: [String] writes no parentheses, so regrouping a chain of
    operators does not change the text, for permission and for relation
    expressions alike; and the text of a right-nested sum of identifiers
    parses back to the left-nested sum, a different tree. *)
Theorem expression_text_forgets_grouping :
  (forall o1 o2 l m r,
      PermissionExpression_String (BinaryOpNode o1 l (BinaryOpNode o2 m r))
      = PermissionExpression_String (BinaryOpNode o2 (BinaryOpNode o1 l m) r))
  /\
  (forall l m r,
      RelationExpression_String (UnionRelationNode l (UnionRelationNode m r))
      = RelationExpression_String (UnionRelationNode (UnionRelationNode l m) r))
  /\
  (forall a b c : string,
      identLit a -> identLit b -> identLit c ->
      let nestedRight :=
        BinaryOpNode "+" (IdentifierNode a)
          (BinaryOpNode "+" (IdentifierNode b) (IdentifierNode c)) in
      let nestedLeft :=
        BinaryOpNode "+"
          (BinaryOpNode "+" (IdentifierNode a) (IdentifierNode b))
          (IdentifierNode c) in
      reparse nestedRight = Some (Ok nestedLeft, EOF) /\
      nestedRight <> nestedLeft).
Proof.
  split; [|split].
  - intros. simpl. repeat (rewrite !append_assoc; simpl). reflexivity.
  - intros. simpl. repeat (rewrite !append_assoc; simpl). reflexivity.
  - intros a b c Ha Hb Hc nestedRight nestedLeft. split; [|discriminate].
    set (tok := fun ty lit =>
                  {| Type_ := ty; Literal := lit; Line := 0; Position := 0 |}).
    assert (reparse nestedLeft = Some (Ok nestedLeft, EOF)) as H.
    { apply (reparse_additive (tok IDENTIFIER a, [])
               [ (tok PLUS "+", (tok IDENTIFIER b, []));
                 (tok PLUS "+", (tok IDENTIFIER c, [])) ]).
      unfold additiveLits, chainLits. cbn [fst snd Literal tok].
      split; [split; [exact Ha|constructor]|].
      constructor; [split; [reflexivity|split; [exact Hb|constructor]]|].
      constructor; [split; [reflexivity|split; [exact Hc|constructor]]|].
      constructor. }
    unfold reparse in *.
    replace (PermissionExpression_String nestedRight)
      with (PermissionExpression_String nestedLeft)
      by (unfold nestedRight, nestedLeft; simpl;
          repeat (rewrite !append_assoc; simpl); reflexivity).
    exact H.
Qed.

Lemma expression_text_forgets_grouping_witness :
  reparse
    (BinaryOpNode "+" (IdentifierNode "a")
       (BinaryOpNode "+" (IdentifierNode "b") (IdentifierNode "c")))
  = Some (Ok (BinaryOpNode "+"
                (BinaryOpNode "+" (IdentifierNode "a") (IdentifierNode "b"))
                (IdentifierNode "c")), EOF).
Proof.
  apply (proj2 (proj2 expression_text_forgets_grouping) "a" "b" "c");
    split; reflexivity.
Defined.

(* ================================================================== *)
(** * What a run of the generator leaves behind *)
(* ================================================================== *)

Lemma parseDocument_returns (s : string) : exists r, parseDocument s = Some r.
Proof.
  unfold parseDocument.
  destruct (TokenizeAll_total s) as (body & t & E & _). rewrite E.
  cbn [obind].
  destruct (returnsAll_ParseDefinitions (fun _ _ => True)
              (fun p => runs_weaken _ _ _ _ _ _ (runs_parseDefinition p)
                          (fun _ _ _ => I) (fun H => H)) (body ++ [t]))
    as (r & p' & E' & _).
  rewrite E'. cbn [obind fst]. now exists r.
Qed.

Lemma parseSchema_failed (env : Env) (g : Generator) (content : string)
  (e : error) :
  os_ReadFile env (schemaFile g) = Ok content ->
  parseDocument content = Some (Err e) ->
  parseSchema env g
  = Some (Err (ErrWrap "failed to parse schema" [] e),
          [ (LevelDebug, "Schema file read successfully");
            (LevelDebug, "Lexical analysis complete") ]).
Proof.
  intros Hread Hparse. unfold parseSchema. rewrite Hread.
  unfold parseDocument in Hparse.
  destruct (TokenizeAll (NewLexer content)) as [ts|]; [|discriminate].
  cbn [obind] in *.
  destruct (ParseDefinitions (NewParser ts)) as [[r p']|]; [|discriminate].
  cbn [obind fst] in *. injection Hparse as ->. reflexivity.
Qed.

Lemma Generate_read_failed (env : Env) (g : Generator) (e : error) :
  os_ReadFile env (schemaFile g) = Err e ->
  Generate env g
  = Some {| out_error :=
              Some (ErrWrap "failed to parse schema" []
                      (ErrWrap "failed to read schema file" [] e));
            out_writes := [];
            out_log := [ (LevelInfo, "Starting schema parsing");
                         (LevelError, "Schema parsing failed") ] |}.
Proof. intros H. unfold Generate, parseSchema. now rewrite H. Qed.

Lemma Generate_parse_failed (env : Env) (g : Generator) (content : string)
  (e : error) :
  os_ReadFile env (schemaFile g) = Ok content ->
  parseDocument content = Some (Err e) ->
  Generate env g
  = Some {| out_error :=
              Some (ErrWrap "failed to parse schema" []
                      (ErrWrap "failed to parse schema" [] e));
            out_writes := [];
            out_log := [ (LevelInfo, "Starting schema parsing");
                         (LevelDebug, "Schema file read successfully");
                         (LevelDebug, "Lexical analysis complete");
                         (LevelError, "Schema parsing failed") ] |}.
Proof.
  intros Hread Hparse. unfold Generate.
  now rewrite (parseSchema_failed env g content e Hread Hparse).
Qed.

(** X5: [Generate] always returns.  It writes nothing, or it writes
    exactly one file, and that only after the schema was read and parsed,
    the directory made, the template parsed and executed; the error it
    then returns is the wrapped result of writing that file.  When it
    returns no error the file has been written. *)
Theorem Generate_writes_only_after_every_stage :
  forall (env : Env) (g : Generator),
    exists out,
      Generate env g = Some out /\
      (out_writes out = [] \/
       exists content defs buf,
         os_ReadFile env (schemaFile g) = Ok content /\
         parseDocument content = Some (Ok defs) /\
         os_MkdirAll env (outputDir g) = None /\
         template_Parse env = None /\
         template_Execute env
           {| td_Package := packageNameOf defs;
              td_Definitions :=
                sort_Slice env lessByName (map convertDefinition defs) |}
         = Ok buf /\
         let file :=
           filepath_Join env (outputDir g)
             (packageNameOf defs ++ ".gen.go")%string in
         let text := match format_Source env buf with
                     | Ok formatted => formatted
                     | Err _ => buf
                     end in
         out_writes out = [(file, text)] /\
         out_error out
         = option_map
             (ErrWrap "failed to generate code for package %s"
                [packageNameOf defs])
             (os_WriteFile env file text)) /\
      (out_error out = None -> out_writes out <> []).
Proof.
  intros env g.
  destruct (os_ReadFile env (schemaFile g)) as [content|e] eqn:Hread.
  2:{ eexists. split; [exact (Generate_read_failed env g e Hread)|].
      split; [now left|discriminate]. }
  destruct (parseDocument_returns content) as ([defs|e] & Hparse).
  2:{ eexists.
      split; [exact (Generate_parse_failed env g content e Hread Hparse)|].
      split; [now left|discriminate]. }
  eexists. split; [exact (Generate_parsed env g content defs Hread Hparse)|].
  unfold outcomeOf. cbn [out_writes out_error].
  set (pkg := packageNameOf defs).
  destruct (os_MkdirAll env (outputDir g)) as [err|] eqn:Hdir.
  { unfold generateCode. rewrite Hdir. cbn [fst snd].
    split; [now left|discriminate]. }
  destruct (template_Parse env) as [err|] eqn:Htmpl.
  { unfold generateCode. rewrite Hdir, Htmpl. cbn [fst snd].
    split; [now left|discriminate]. }
  destruct (template_Execute env
              {| td_Package := pkg;
                 td_Definitions :=
                   sort_Slice env lessByName (map convertDefinition defs) |})
    as [buf|err] eqn:Hexec.
  2:{ unfold generateCode. rewrite Hdir, Htmpl, Hexec. cbn [fst snd].
      split; [now left|discriminate]. }
  rewrite (generateCode_rendered env g pkg _ buf Hdir Htmpl Hexec).
  cbn [fst snd]. split; [|discriminate].
  right. exists content, defs, buf. cbv zeta.
  repeat (split; [assumption || reflexivity|]).
  now destruct (os_WriteFile env _ _).
Qed.

(** X6: when the schema file cannot be read, or its content does not
    parse, [Generate] writes nothing, logs [Schema parsing failed] and
    returns the error wrapped in [failed to parse schema]; a parse error
    carries that prefix twice, once from [parseSchema] and once from
    [Generate]. *)
Theorem Generate_schema_failure :
  forall (env : Env) (g : Generator),
    (forall e,
        os_ReadFile env (schemaFile g) = Err e ->
        Generate env g
        = Some {| out_error :=
                    Some (ErrWrap "failed to parse schema" []
                            (ErrWrap "failed to read schema file" [] e));
                  out_writes := [];
                  out_log := [ (LevelInfo, "Starting schema parsing");
                               (LevelError, "Schema parsing failed") ] |}) /\
    (forall content e,
        os_ReadFile env (schemaFile g) = Ok content ->
        parseDocument content = Some (Err e) ->
        Generate env g
        = Some {| out_error :=
                    Some (ErrWrap "failed to parse schema" []
                            (ErrWrap "failed to parse schema" [] e));
                  out_writes := [];
                  out_log := [ (LevelInfo, "Starting schema parsing");
                               (LevelDebug, "Schema file read successfully");
                               (LevelDebug, "Lexical analysis complete");
                               (LevelError, "Schema parsing failed") ] |}).
Proof.
  intros env g. split.
  - intros e. apply Generate_read_failed.
  - intros content e. apply Generate_parse_failed.
Qed.

(** X6 at a schema file that holds only the word [relation]. *)
Lemma Generate_schema_failure_witness :
  exists e,
    Generate (exampleEnv (fun _ => Ok "relation") Ok) exampleGenerator
    = Some {| out_error :=
                Some (ErrWrap "failed to parse schema" []
                        (ErrWrap "failed to parse schema" [] e));
              out_writes := [];
              out_log := [ (LevelInfo, "Starting schema parsing");
                           (LevelDebug, "Schema file read successfully");
                           (LevelDebug, "Lexical analysis complete");
                           (LevelError, "Schema parsing failed") ] |}.
Proof.
  eexists.
  apply (proj2 (Generate_schema_failure
                  (exampleEnv (fun _ => Ok "relation") Ok) exampleGenerator)
           "relation").
  - reflexivity.
  - vm_compute. reflexivity.
Defined.
Lemma Generate_returns (env : Env) (g : Generator) :
  exists out, Generate env g = Some out.
Proof.
  destruct (os_ReadFile env (schemaFile g)) as [content|e] eqn:Hread.
  2:{ eexists. exact (Generate_read_failed env g e Hread). }
  destruct (parseDocument_returns content) as ([defs|e] & Hparse).
  2:{ eexists. exact (Generate_parse_failed env g content e Hread Hparse). }
  eexists. exact (Generate_parsed env g content defs Hread Hparse).
Qed.

(** X7: the command [authz-codegen] takes the schema file from the
    flag [-schema] and only when that is empty from the first argument;
    it takes the output directory from the second argument whenever
    there is one, also when the first argument was not used, and
    otherwise from the flag [-output].  Without a schema file it stops
    before a generator is made; with one, [NewGenerator] cannot fail,
    [Generate] is run on that file and directory, and the command fails
    exactly when [Generate] returns an error. *)
Theorem main_takes_flags_before_arguments :
  forall (env : Env) (output schema : string) (args : list string),
    let file := if String.eqb schema "" then nth 0 args "" else schema in
    let dir := match args with
               | _ :: d :: _ => d
               | _ => output
               end in
    main env output schema args <> Some ExitNoGenerator /\
    (file = "" -> main env output schema args = Some ExitNoSchema) /\
    (file <> "" ->
     exists out,
       Generate env {| schemaFile := file; outputDir := dir |} = Some out /\
       main env output schema args
       = Some (match out_error out with
               | Some _ => ExitFailed out
               | None => ExitCompleted out
               end)).
Proof.
  intros env output schema args file dir.
  assert (main env output schema args
          = if String.eqb file "" then Some ExitNoSchema
            else out <-- Generate env {| schemaFile := file;
                                         outputDir := dir |} ;;
                 match out_error out with
                 | Some _ => Some (ExitFailed out)
                 | None => Some (ExitCompleted out)
                 end) as E.
  { unfold main, NewGenerator, file, dir.
    destruct args as [|a0 [|a1 args]]; cbn [List.length Nat.ltb Nat.leb nth];
      destruct (String.eqb schema "") eqn:Hs;
      cbn [andb fold_left WithSchemaFile WithOutputDir WithLogger
           schemaFile outputDir];
      rewrite ?Hs; try reflexivity;
      destruct (String.eqb a0 "") eqn:Ha; reflexivity. }
  rewrite E. clear E.
  destruct (String.eqb_spec file "") as [Hf|Hf].
  - split; [discriminate|]. split; [reflexivity|contradiction].
  - destruct (Generate_returns env {| schemaFile := file; outputDir := dir |})
      as [out Hout].
    rewrite Hout. cbn [obind].
    split; [now destruct (out_error out)|].
    split; [contradiction|].
    intros _. exists out. split; [reflexivity|].
    now destruct (out_error out).
Qed.

(* ================================================================== *)
(** * The parser accepts the grammar and nothing else *)
(* ================================================================== *)

Lemma moves_refl (p : Parser) : moves p [] p.
Proof. repeat split. Qed.

Lemma moves_trans (p p1 p2 : Parser) (a b : list Token) :
  moves p a p1 -> moves p1 b p2 -> moves p (a ++ b) p2.
Proof.
  intros (R1 & T1 & D1) (R2 & T2 & D2). split; [|split]; try congruence.
  now rewrite R1, R2, app_assoc.
Qed.

Lemma bind_Ok {A B : Type} (m : M A) (k : A -> M B) (p p' : Parser) (b : B) :
  bind m k p = Some (Ok b, p') ->
  exists a p1, m p = Some (Ok a, p1) /\ k a p1 = Some (Ok b, p').
Proof.
  unfold bind. destruct (m p) as [[[a|e] p1]|]; try discriminate.
  intros H. now exists a, p1.
Qed.

Lemma wrapping_Ok {A : Type} (format : string) (args : list string)
  (m : M A) (p p' : Parser) (a : A) :
  wrapping format args m p = Some (Ok a, p') -> m p = Some (Ok a, p').
Proof.
  unfold wrapping. destruct (m p) as [[[a0|e] p1]|]; try discriminate.
  auto.
Qed.

Lemma ret_Ok {A : Type} (a b : A) (p p' : Parser) :
  ret a p = Some (Ok b, p') -> a = b /\ p = p'.
Proof. unfold ret. intros H. injection H as <- <-. auto. Qed.

Lemma consume_Ok (t : TokenType) (p p' : Parser) (tok : Token) :
  t <> EOF ->
  consume t p = Some (Ok tok, p') ->
  Type_ tok = t /\ moves p [tok] p'.
Proof.
  intros Ht. unfold consume.
  destruct (TokenType_eqb (Type_ (peek p)) t) eqn:E; [|discriminate].
  intros H. injection H as <- <-. apply TokenType_eqb_eq in E.
  split; [exact E|]. rewrite peek_rest in *.
  split; [|split; [apply advance_tokens|apply advance_Definitions]].
  rewrite advance_rest.
  destruct (rest p) as [|t0 r]; [|reflexivity].
  simpl in E. congruence.
Qed.

(** One statement [x, err := p.consume(t)] of a method that returned no
    error. *)
Ltac inv_consume H tok q Ty Mv :=
  let C := fresh "C" in
  apply bind_Ok in H as (tok & q & C & H);
  try apply wrapping_Ok in C;
  apply consume_Ok in C as (Ty & Mv); [|discriminate].

Lemma exact_parseSingleRelation (p p' : Parser) (e : RelationExpressionNode) :
  parseSingleRelation p = Some (Ok e, p') ->
  exists s, e = singleTree s /\ singleTyped s /\ moves p (singleTokens s) p'.
Proof.
  unfold parseSingleRelation. intros H.
  inv_consume H identToken p1 Ty1 M1.
  apply bind_Ok in H as (relationType & p2 & H2 & H). cbv beta in H2, H.
  destruct (peekIs SLASH p1) eqn:ES.
  - inv_consume H2 slash q1 Ty2 M2. inv_consume H2 nameToken q2 Ty3 M3.
    apply ret_Ok in H2 as [<- <-].
    destruct (peekIs HASH q2) eqn:EH.
    + inv_consume H hash q3 Ty4 M4. inv_consume H fragment q4 Ty5 M5.
      apply ret_Ok in H as [<- <-].
      exists {| st_type := identToken; st_name := Some (slash, nameToken);
                st_fragment := Some (hash, fragment) |}.
      split; [reflexivity|]. split; [repeat split; assumption|].
      exact (moves_trans _ _ _ _ _ M1
               (moves_trans _ _ _ _ _ M2
                  (moves_trans _ _ _ _ _ M3 (moves_trans _ _ _ _ _ M4 M5)))).
    + apply ret_Ok in H as [<- <-].
      exists {| st_type := identToken; st_name := Some (slash, nameToken);
                st_fragment := None |}.
      split; [reflexivity|]. split; [repeat split; assumption|].
      exact (moves_trans _ _ _ _ _ M1 (moves_trans _ _ _ _ _ M2 M3)).
  - apply ret_Ok in H2 as [<- <-].
    destruct (peekIs HASH p1) eqn:EH.
    + inv_consume H hash q3 Ty4 M4. inv_consume H fragment q4 Ty5 M5.
      apply ret_Ok in H as [<- <-].
      exists {| st_type := identToken; st_name := None;
                st_fragment := Some (hash, fragment) |}.
      split; [reflexivity|]. split; [repeat split; assumption|].
      exact (moves_trans _ _ _ _ _ M1 (moves_trans _ _ _ _ _ M4 M5)).
    + apply ret_Ok in H as [<- <-].
      exists {| st_type := identToken; st_name := None;
                st_fragment := None |}.
      split; [reflexivity|]. split; [repeat split; assumption|].
      exact M1.
Qed.

Lemma exact_parseRelationExpression_loop (fuel : nat) :
  forall left p e p',
    parseRelationExpression_loop fuel left p = Some (Ok e, p') ->
    exists more,
      e = fold_left (fun l os => UnionRelationNode l (singleTree (snd os)))
            more left /\
      Forall (fun os => Type_ (fst os) = PIPE /\ singleTyped (snd os)) more /\
      moves p (flat_map (fun os => fst os :: singleTokens (snd os)) more) p'.
Proof.
  induction fuel as [|fuel IH]; intros left p e p' H; simpl in H;
    destruct (peekIs PIPE p) eqn:E; try discriminate.
  - apply ret_Ok in H as [<- <-]. exists []. simpl.
    auto using moves_refl.
  - inv_consume H pipe p1 Ty1 M1.
    apply bind_Ok in H as (right & p2 & H2 & H).
    apply exact_parseSingleRelation in H2 as (s & -> & Hs & M2).
    apply IH in H as (more & -> & Hmore & M3).
    exists ((pipe, s) :: more). split; [reflexivity|].
    split; [constructor; auto|].
    cbn [flat_map fst snd].
    exact (moves_trans _ _ _ _ _ M1 (moves_trans _ _ _ _ _ M2 M3)).
  - apply ret_Ok in H as [<- <-]. exists []. simpl.
    auto using moves_refl.
Qed.

Lemma exact_parseRelationExpression (p p' : Parser)
  (e : RelationExpressionNode) :
  parseRelationExpression p = Some (Ok e, p') ->
  exists s0 more,
    e = unionTree s0 more /\ unionTyped s0 more /\
    moves p (unionTokens s0 more) p'.
Proof.
  unfold parseRelationExpression. intros H.
  apply bind_Ok in H as (left & p1 & H1 & H). cbv beta in H.
  apply exact_parseSingleRelation in H1 as (s0 & -> & Hs & M1).
  apply exact_parseRelationExpression_loop in H as (more & -> & Hmore & M2).
  exists s0, more. split; [reflexivity|]. split; [split; assumption|].
  exact (moves_trans _ _ _ _ _ M1 M2).
Qed.

Lemma exact_parseRelation (p p' : Parser) (rel : RelationNode) :
  parseRelation p = Some (Ok rel, p') ->
  exists r, rel = relationTree r /\ relationTyped r /\
            moves p (relationTokens r) p'.
Proof.
  unfold parseRelation. intros H.
  inv_consume H kw p1 Ty1 M1. inv_consume H name p2 Ty2 M2.
  inv_consume H colon p3 Ty3 M3.
  apply bind_Ok in H as (expr & p4 & H4 & H). apply wrapping_Ok in H4.
  apply exact_parseRelationExpression in H4 as (s0 & more & -> & Hty & M4).
  apply ret_Ok in H as [<- <-].
  exists {| rt_keyword := kw; rt_name := name; rt_colon := colon;
            rt_first := s0; rt_more := more |}.
  split; [reflexivity|]. split; [repeat split; try assumption; apply Hty|].
  exact (moves_trans _ _ _ _ _ M1
           (moves_trans _ _ _ _ _ M2 (moves_trans _ _ _ _ _ M3 M4))).
Qed.

Lemma exact_parseIdentifierChain_loop (fuel : nat) :
  forall left p e p',
    parseIdentifierChain_loop fuel left p = Some (Ok e, p') ->
    exists more,
      e = fold_left (fun l oa => binaryNode (fst oa) l (identLeaf (snd oa)))
            more left /\
      Forall (fun oa => Type_ (fst oa) = MINUS_ARROW
                        /\ Type_ (snd oa) = IDENTIFIER) more /\
      moves p (flat_map (fun oa => [fst oa; snd oa]) more) p'.
Proof.
  induction fuel as [|fuel IH]; intros left p e p' H; simpl in H;
    destruct (peekIs MINUS_ARROW p) eqn:E; try discriminate.
  - apply ret_Ok in H as [<- <-]. exists []. simpl.
    auto using moves_refl.
  - inv_consume H op p1 Ty1 M1. inv_consume H rtok p2 Ty2 M2.
    apply IH in H as (more & -> & Hmore & M3).
    exists ((op, rtok) :: more). split; [reflexivity|].
    split; [constructor; auto|].
    cbn [flat_map fst snd].
    exact (moves_trans _ _ _ _ _ (moves_trans _ _ _ _ _ M1 M2) M3).
  - apply ret_Ok in H as [<- <-]. exists []. simpl.
    auto using moves_refl.
Qed.

Lemma exact_parseIdentifierChain (p p' : Parser)
  (e : PermissionExpressionNode) :
  parseIdentifierChain p = Some (Ok e, p') ->
  exists c, e = chainTree c /\ chainTyped c /\ moves p (chainTokens c) p'.
Proof.
  unfold parseIdentifierChain. intros H.
  inv_consume H ident p1 Ty1 M1. cbv beta in H.
  apply exact_parseIdentifierChain_loop in H as (more & -> & Hmore & M2).
  exists (ident, more). split; [reflexivity|]. split; [split; assumption|].
  exact (moves_trans _ _ _ _ _ M1 M2).
Qed.

Lemma exact_parseAdditiveExpression_loop (fuel : nat) :
  forall left p e p',
    parseAdditiveExpression_loop fuel left p = Some (Ok e, p') ->
    exists more,
      e = fold_left (fun l oc => binaryNode (fst oc) l (chainTree (snd oc)))
            more left /\
      Forall (fun oc => Type_ (fst oc) = PLUS /\ chainTyped (snd oc)) more /\
      moves p (flat_map (fun oc => fst oc :: chainTokens (snd oc)) more) p'.
Proof.
  induction fuel as [|fuel IH]; intros left p e p' H; simpl in H;
    destruct (peekIs PLUS p) eqn:E; try discriminate.
  - apply ret_Ok in H as [<- <-]. exists []. simpl.
    auto using moves_refl.
  - inv_consume H op p1 Ty1 M1.
    apply bind_Ok in H as (right & p2 & H2 & H).
    apply exact_parseIdentifierChain in H2 as (c & -> & Hc & M2).
    apply IH in H as (more & -> & Hmore & M3).
    exists ((op, c) :: more). split; [reflexivity|].
    split; [constructor; auto|].
    cbn [flat_map fst snd].
    exact (moves_trans _ _ _ _ _ M1 (moves_trans _ _ _ _ _ M2 M3)).
  - apply ret_Ok in H as [<- <-]. exists []. simpl.
    auto using moves_refl.
Qed.

Lemma exact_parsePermissionExpression (p p' : Parser)
  (e : PermissionExpressionNode) :
  parsePermissionExpression p = Some (Ok e, p') ->
  exists c0 more,
    e = additiveTree c0 more /\ additiveTyped c0 more /\
    moves p (additiveTokens c0 more) p'.
Proof.
  unfold parsePermissionExpression, parseAdditiveExpression. intros H.
  apply bind_Ok in H as (left & p1 & H1 & H). cbv beta in H.
  apply exact_parseIdentifierChain in H1 as (c0 & -> & Hc & M1).
  apply exact_parseAdditiveExpression_loop in H as (more & -> & Hmore & M2).
  exists c0, more. split; [reflexivity|]. split; [split; assumption|].
  exact (moves_trans _ _ _ _ _ M1 M2).
Qed.

Lemma exact_parsePermission (p p' : Parser) (perm : PermissionNode) :
  parsePermission p = Some (Ok perm, p') ->
  exists r, perm = permissionTree r /\ permissionTyped r /\
            moves p (permissionTokens r) p'.
Proof.
  unfold parsePermission. intros H.
  inv_consume H kw p1 Ty1 M1. inv_consume H name p2 Ty2 M2.
  inv_consume H equal p3 Ty3 M3.
  apply bind_Ok in H as (expr & p4 & H4 & H). apply wrapping_Ok in H4.
  apply exact_parsePermissionExpression in H4 as (c0 & more & -> & Hty & M4).
  apply ret_Ok in H as [<- <-].
  exists {| pt_keyword := kw; pt_name := name; pt_equal := equal;
            pt_first := c0; pt_more := more |}.
  split; [reflexivity|]. split; [repeat split; try assumption; apply Hty|].
  exact (moves_trans _ _ _ _ _ M1
           (moves_trans _ _ _ _ _ M2 (moves_trans _ _ _ _ _ M3 M4))).
Qed.

Lemma exact_parseDefinition_loop (fuel : nat) :
  forall def p def' p',
    parseDefinition_loop fuel def p = Some (Ok def', p') ->
    exists members,
      def' = fold_left addMember members def /\
      Forall memberTyped members /\
      moves p (flat_map memberTokens members) p'.
Proof.
  induction fuel as [|fuel IH]; intros def p def' p' H; simpl in H;
    destruct (peekIs RELATION p || peekIs PERMISSION p) eqn:E;
    try discriminate.
  - apply ret_Ok in H as [<- <-]. exists []. simpl.
    auto using moves_refl.
  - destruct (peekIs RELATION p) eqn:ER.
    + apply bind_Ok in H as (rel & p1 & H1 & H).
      apply exact_parseRelation in H1 as (r & -> & Hr & M1).
      apply IH in H as (members & -> & Hm & M2).
      exists (RelationMember r :: members). split; [reflexivity|].
      split; [constructor; auto|].
      exact (moves_trans _ _ _ _ _ M1 M2).
    + destruct (peekIs PERMISSION p) eqn:EP; [|discriminate].
      apply bind_Ok in H as (perm & p1 & H1 & H).
      apply exact_parsePermission in H1 as (r & -> & Hr & M1).
      apply IH in H as (members & -> & Hm & M2).
      exists (PermissionMember r :: members). split; [reflexivity|].
      split; [constructor; auto|].
      exact (moves_trans _ _ _ _ _ M1 M2).
  - apply ret_Ok in H as [<- <-]. exists []. simpl.
    auto using moves_refl.
Qed.

Lemma exact_parseDefinition (p p' : Parser) (def : DefinitionNode) :
  parseDefinition p = Some (Ok def, p') ->
  exists d, def = definitionTree d /\ definitionTyped d /\
            moves p (definitionTokens d) p'.
Proof.
  unfold parseDefinition. intros H.
  inv_consume H kw p1 Ty1 M1. inv_consume H firstTok p2 Ty2 M2.
  apply bind_Ok in H as ([ot objectTypeName] & p3 & H3 & H).
  cbv beta in H3.
  assert (exists name,
             optTyped SLASH name /\ moves p2 (optTokens name) p3 /\
             ot = match name with
                  | Some (_, n) =>
                      {| ot_Name := Literal n; ot_Prefix := Literal firstTok |}
                  | None => {| ot_Name := Literal firstTok; ot_Prefix := "" |}
                  end) as (name & Hname & M3 & Hot).
  { destruct (peekIs SLASH p2) eqn:ES.
    - inv_consume H3 slash q1 Ty3 M3. inv_consume H3 nameToken q2 Ty4 M4.
      apply ret_Ok in H3 as [H3 <-]. injection H3 as <- _.
      exists (Some (slash, nameToken)). split; [split; assumption|].
      split; [exact (moves_trans _ _ _ _ _ M3 M4)|reflexivity].
    - destruct (peekIs LBRACE p2) eqn:EL; [|discriminate].
      apply ret_Ok in H3 as [H3 <-]. injection H3 as <- _.
      exists None. split; [exact I|]. split; [apply moves_refl|reflexivity]. }
  inv_consume H lbrace p4 Ty5 M5.
  apply bind_Ok in H as (def0 & p5 & H5 & H). cbv beta in H5.
  apply exact_parseDefinition_loop in H5 as (members & -> & Hm & M6).
  inv_consume H rbrace p6 Ty7 M7.
  apply ret_Ok in H as [<- <-].
  exists {| dt_keyword := kw; dt_first := firstTok; dt_name := name;
            dt_lbrace := lbrace; dt_members := members;
            dt_rbrace := rbrace |}.
  split; [unfold definitionTree, objectTypeOf; cbn; now rewrite Hot|].
  split; [repeat split; assumption|].
  unfold definitionTokens. cbn [dt_keyword dt_first dt_name dt_lbrace
                                 dt_members dt_rbrace].
  pose proof (moves_trans _ _ _ _ _ M1
                (moves_trans _ _ _ _ _ M2
                   (moves_trans _ _ _ _ _ M3
                      (moves_trans _ _ _ _ _ M5
                         (moves_trans _ _ _ _ _ M6 M7))))) as Mv.
  simpl in Mv. exact Mv.
Qed.

Lemma exact_ParseDefinitions_loop (fuel : nat) :
  forall p defs p',
    ParseDefinitions_loop fuel p = Some (Ok defs, p') ->
    exists ds,
      defs = Definitions p ++ map definitionTree ds /\
      Forall definitionTyped ds /\
      rest p = flat_map definitionTokens ds ++ rest p' /\
      tokens p' = tokens p /\
      Type_ (hd eofToken (rest p')) = EOF.
Proof.
  induction fuel as [|fuel IH]; intros p defs p' H; simpl in H;
    destruct (negb (peekIs EOF p)) eqn:E; try discriminate.
  - apply ret_Ok in H as [<- <-]. exists []. simpl.
    rewrite app_nil_r. repeat split; auto.
    apply negb_false_iff in E. rewrite peekIs_rest in E.
    now apply TokenType_eqb_eq.
  - destruct (negb (peekIs DEFINITION p)); [discriminate|].
    apply bind_Ok in H as (def & p1 & H1 & H). cbv beta in H.
    apply exact_parseDefinition in H1 as (d & -> & Hd & (R1 & T1 & D1)).
    apply IH in H as (ds & -> & Hds & R2 & T2 & He).
    cbn [Definitions tokens] in *.
    exists (d :: ds). split; [rewrite D1; simpl; now rewrite <- app_assoc|].
    split; [constructor; auto|].
    split; [|split; [congruence|exact He]].
    rewrite R1. cbn [flat_map]. rewrite <- app_assoc. f_equal. exact R2.
  - apply ret_Ok in H as [<- <-]. exists []. simpl.
    rewrite app_nil_r. repeat split; auto.
    apply negb_false_iff in E. rewrite peekIs_rest in E.
    now apply TokenType_eqb_eq.
Qed.
Lemma parseRelation_yields (r : RelationTokens) (p : Parser)
  (rst : list Token) :
  rest p = relationTokens r ++ rst -> relationTyped r ->
  stopsAt PIPE rst -> stopsAt SLASH rst -> stopsAt HASH rst ->
  yields parseRelation p (relationTree r) rst.
Proof.
  destruct r as [kw name colon s0 more].
  unfold relationTokens, relationTree, relationTyped.
  cbn [rt_keyword rt_name rt_colon rt_first rt_more].
  intros Hr (Hk & Hn & Hc & Hu) HP HS HH. unfold parseRelation.
  rewrite <- !app_comm_cons in Hr.
  eapply yields_bind;
    [apply yields_wrapping; now apply (yields_consume _ _ _ _ Hr)|].
  intros p1 T1 R1.
  eapply yields_bind;
    [apply yields_wrapping; now apply (yields_consume _ _ _ _ R1)|].
  intros p2 T2 R2.
  eapply yields_bind;
    [apply yields_wrapping; now apply (yields_consume _ _ _ _ R2)|].
  intros p3 T3 R3.
  eapply yields_bind;
    [apply yields_wrapping;
     apply (parseRelationExpression_yields s0 more p3 rst R3 Hu HP HS HH)|].
  intros p4 T4 R4. rewrite <- R4. apply yields_ret.
Qed.

Lemma parsePermission_yields (r : PermissionTokens) (p : Parser)
  (rst : list Token) :
  rest p = permissionTokens r ++ rst -> permissionTyped r ->
  stopsAt PLUS rst -> stopsAt MINUS_ARROW rst ->
  yields parsePermission p (permissionTree r) rst.
Proof.
  destruct r as [kw name equal c0 more].
  unfold permissionTokens, permissionTree, permissionTyped.
  cbn [pt_keyword pt_name pt_equal pt_first pt_more].
  intros Hr (Hk & Hn & Hc & Hu) HP HA. unfold parsePermission.
  rewrite <- !app_comm_cons in Hr.
  eapply yields_bind;
    [apply yields_wrapping; now apply (yields_consume _ _ _ _ Hr)|].
  intros p1 T1 R1.
  eapply yields_bind;
    [apply yields_wrapping; now apply (yields_consume _ _ _ _ R1)|].
  intros p2 T2 R2.
  eapply yields_bind;
    [apply yields_wrapping; now apply (yields_consume _ _ _ _ R2)|].
  intros p3 T3 R3.
  eapply yields_bind;
    [apply yields_wrapping;
     apply (parsePermissionExpression_yields c0 more p3 rst R3 Hu HP HA)|].
  intros p4 T4 R4. rewrite <- R4. apply yields_ret.
Qed.

(** What follows a member of a block: the keyword of the next member, or
    the closing brace. *)
Lemma members_head (members : list MemberTokens) (rst : list Token) :
  Forall memberTyped members ->
  Type_ (hd eofToken rst) = RBRACE ->
  Type_ (hd eofToken (flat_map memberTokens members ++ rst)) = RELATION \/
  Type_ (hd eofToken (flat_map memberTokens members ++ rst)) = PERMISSION \/
  Type_ (hd eofToken (flat_map memberTokens members ++ rst)) = RBRACE.
Proof.
  intros Hm Hr. destruct Hm as [|m members Hm _]; simpl; auto.
  destruct m as [r|r]; simpl in *.
  - left. apply Hm.
  - right. left. apply Hm.
Qed.

Lemma members_stop (ty : TokenType) (members : list MemberTokens)
  (rst : list Token) :
  Forall memberTyped members ->
  Type_ (hd eofToken rst) = RBRACE ->
  ty <> RELATION -> ty <> PERMISSION -> ty <> RBRACE ->
  stopsAt ty (flat_map memberTokens members ++ rst).
Proof.
  intros Hm Hr N1 N2 N3. unfold stopsAt.
  destruct (members_head members rst Hm Hr) as [H|[H|H]]; rewrite H;
    congruence.
Qed.

Lemma flat_map_length_members (members : list MemberTokens) :
  List.length members <= List.length (flat_map memberTokens members).
Proof.
  induction members as [|m members IH]; simpl; [lia|].
  rewrite length_app. destruct m; simpl; lia.
Qed.

Lemma parseDefinition_loop_yields (members : list MemberTokens) :
  forall fuel def p rst,
    List.length members < fuel ->
    rest p = flat_map memberTokens members ++ rst ->
    Forall memberTyped members ->
    Type_ (hd eofToken rst) = RBRACE ->
    yields (parseDefinition_loop fuel def) p
      (fold_left addMember members def) rst.
Proof.
  induction members as [|m members IH];
    intros fuel def p rst Hf Hr Hty Hrb.
  - simpl in *. destruct fuel; [lia|]. simpl.
    eapply yields_ext.
    { rewrite !peekIs_rest, Hr, Hrb. reflexivity. }
    rewrite <- Hr. apply yields_ret.
  - destruct fuel; [simpl in Hf; lia|].
    inversion Hty as [|? ? Hm Hty']; subst.
    cbn [flat_map] in Hr. rewrite <- app_assoc in Hr.
    cbn [parseDefinition_loop fold_left].
    destruct m as [r|r]; cbn [memberTokens memberTyped addMember] in *.
    + assert (Type_ (hd eofToken (rest p)) = RELATION) as Hk.
      { rewrite Hr. destruct r; simpl. apply Hm. }
      eapply yields_ext.
      { rewrite !peekIs_rest, Hk. reflexivity. }
      eapply yields_bind.
      { apply (parseRelation_yields r p _ Hr Hm);
          apply members_stop; auto; discriminate. }
      intros p1 T1 R1. apply IH; auto. simpl in Hf. lia.
    + assert (Type_ (hd eofToken (rest p)) = PERMISSION) as Hk.
      { rewrite Hr. destruct r; simpl. apply Hm. }
      eapply yields_ext.
      { rewrite !peekIs_rest, Hk. reflexivity. }
      eapply yields_bind.
      { apply (parsePermission_yields r p _ Hr Hm);
          apply members_stop; auto; discriminate. }
      intros p1 T1 R1. apply IH; auto. simpl in Hf. lia.
Qed.

Lemma parseDefinition_yields (d : DefinitionTokens) (p : Parser)
  (rst : list Token) :
  rest p = definitionTokens d ++ rst -> definitionTyped d ->
  yields parseDefinition p (definitionTree d) rst.
Proof.
  destruct d as [kw firstTok name lbrace members rbrace].
  unfold definitionTokens, definitionTree, definitionTyped, objectTypeOf.
  cbn [dt_keyword dt_first dt_name dt_lbrace dt_members dt_rbrace].
  intros Hr0 (Hk & Hf & Hn & Hl & Hm & Hrb). unfold parseDefinition.
  assert (rest p
          = kw :: firstTok
              :: optTokens name
              ++ lbrace :: flat_map memberTokens members ++ rbrace :: rst)
    as Hr.
  { rewrite Hr0. simpl. rewrite <- !app_assoc. simpl.
    now rewrite <- app_assoc. }
  clear Hr0.
  eapply yields_bind;
    [apply yields_wrapping; now apply (yields_consume _ _ _ _ Hr)|].
  intros p1 T1 R1.
  eapply yields_bind;
    [apply yields_wrapping; now apply (yields_consume _ _ _ _ R1)|].
  intros p2 T2 R2.
  eapply yields_bind
    with (a := (match name with
                | Some (_, n) =>
                    {| ot_Name := Literal n; ot_Prefix := Literal firstTok |}
                | None =>
                    {| ot_Name := Literal firstTok; ot_Prefix := "" |}
                end,
                match name with
                | Some (_, n) =>
                    (Literal firstTok ++ "/" ++ Literal n)%string
                | None => Literal firstTok
                end))
         (r1 := lbrace :: flat_map memberTokens members ++ rbrace :: rst).
  - destruct name as [[sl n]|]; simpl in Hn, R2.
    + destruct Hn as [Hsl Hn].
      eapply yields_ext.
      { cbv beta. rewrite peekIs_rest, R2. simpl. rewrite Hsl. reflexivity. }
      eapply yields_bind;
        [apply yields_wrapping; now apply (yields_consume _ _ _ _ R2)|].
      intros p3 T3 R3.
      eapply yields_bind;
        [apply yields_wrapping; now apply (yields_consume _ _ _ _ R3)|].
      intros p4 T4 R4. rewrite <- R4. apply yields_ret.
    + eapply yields_ext.
      { cbv beta. rewrite !peekIs_rest, R2. simpl. rewrite Hl. reflexivity. }
      rewrite <- R2. apply yields_ret.
  - intros p5 T5 R5. cbv beta iota.
    eapply yields_bind;
      [apply yields_wrapping; now apply (yields_consume _ _ _ _ R5)|].
    intros p6 T6 R6.
    eapply yields_bind.
    { eapply yields_ext; [reflexivity|].
      apply (parseDefinition_loop_yields members) with (rst := rbrace :: rst);
        auto.
      pose proof (rest_lt_loopFuel p6) as L. rewrite R6, length_app in L.
      pose proof (flat_map_length_members members). lia. }
    intros p7 T7 R7.
    eapply yields_bind;
      [apply yields_wrapping; now apply (yields_consume _ _ _ _ R7)|].
    intros p8 T8 R8. rewrite <- R8. apply yields_ret.
Qed.

Lemma parseDefinition_Definitions (p p' : Parser) (def : DefinitionNode) :
  parseDefinition p = Some (Ok def, p') -> Definitions p' = Definitions p.
Proof.
  intros H. apply exact_parseDefinition in H as (d & _ & _ & M). apply M.
Qed.

Lemma definitionTokens_nonempty (d : DefinitionTokens) :
  1 <= List.length (definitionTokens d).
Proof. unfold definitionTokens. simpl. lia. Qed.

Lemma ParseDefinitions_loop_complete (ds : list DefinitionTokens) :
  forall fuel p rst,
    List.length ds < fuel ->
    rest p = flat_map definitionTokens ds ++ rst ->
    Forall definitionTyped ds ->
    Type_ (hd eofToken rst) = EOF ->
    exists p',
      ParseDefinitions_loop fuel p
      = Some (Ok (Definitions p ++ map definitionTree ds), p') /\
      tokens p' = tokens p /\ rest p' = rst.
Proof.
  induction ds as [|d ds IH]; intros fuel p rst Hf Hr Hty He.
  - simpl in *. destruct fuel; [lia|]. simpl.
    rewrite peekIs_rest, Hr, He. simpl. rewrite app_nil_r.
    exists p. auto.
  - destruct fuel; [simpl in Hf; lia|].
    inversion Hty as [|? ? Hd Hty']; subst.
    cbn [flat_map] in Hr. rewrite <- app_assoc in Hr.
    assert (Type_ (hd eofToken (rest p)) = DEFINITION) as Hk.
    { rewrite Hr. destruct d; simpl. apply Hd. }
    cbn [ParseDefinitions_loop]. rewrite !peekIs_rest, Hk. cbn [negb TokenType_eqb].
    destruct (parseDefinition_yields d p _ Hr Hd) as (p1 & E1 & T1 & R1).
    unfold bind. rewrite E1.
    pose proof (parseDefinition_Definitions _ _ _ E1) as D1.
    set (p2 := {| tokens := tokens p1; current := current p1;
                  Definitions := Definitions p1 ++ [definitionTree d] |}).
    destruct (IH fuel p2 rst) as (p' & E' & T' & R'); auto.
    { simpl in Hf. lia. }
    exists p'. split; [|split; [now rewrite T'|exact R']].
    rewrite E'. cbn [Definitions p2]. rewrite D1. simpl.
    now rewrite <- app_assoc.
Qed.

Lemma flat_map_length_definitions (ds : list DefinitionTokens) :
  List.length ds <= List.length (flat_map definitionTokens ds).
Proof.
  induction ds as [|d ds IH]; simpl; [lia|].
  rewrite length_app. pose proof (definitionTokens_nonempty d). lia.
Qed.

Lemma ParseDefinitions_yields (ds : list DefinitionTokens)
  (rst : list Token) :
  Forall definitionTyped ds ->
  Type_ (hd eofToken rst) = EOF ->
  exists p',
    ParseDefinitions (NewParser (flat_map definitionTokens ds ++ rst))
    = Some (Ok (map definitionTree ds), p') /\
    rest p' = rst.
Proof.
  intros Hty He. unfold ParseDefinitions.
  destruct (ParseDefinitions_loop_complete ds
              (loopFuel (NewParser (flat_map definitionTokens ds ++ rst)))
              (NewParser (flat_map definitionTokens ds ++ rst)) rst)
    as (p' & E & _ & R); auto.
  { unfold loopFuel. cbn [tokens NewParser]. rewrite length_app.
    pose proof (flat_map_length_definitions ds). lia. }
  exists p'. split; [exact E|exact R].
Qed.

Lemma ParseDefinitions_exact (ts : list Token) (defs : list DefinitionNode)
  (p' : Parser) :
  ParseDefinitions (NewParser ts) = Some (Ok defs, p') ->
  exists ds,
    Forall definitionTyped ds /\
    ts = flat_map definitionTokens ds ++ rest p' /\
    Type_ (hd eofToken (rest p')) = EOF /\
    defs = map definitionTree ds.
Proof.
  unfold ParseDefinitions. intros H.
  apply exact_ParseDefinitions_loop in H as (ds & -> & Hds & R & _ & He).
  exists ds. auto.
Qed.

(** X8: when [ParseDefinitions] returns definitions, the tokens it
    has passed are exactly the tokens of a sequence of definition blocks
    of the grammar, each [definition name {] or [definition prefix/name {],
    relations and permissions, [}]; the definitions returned are the ones
    these blocks stand for, in order; and the parser stands at a token of
    type end of input. *)
Theorem ParseDefinitions_accepts_only_the_grammar :
  forall (ts : list Token) (defs : list DefinitionNode) (p' : Parser),
    ParseDefinitions (NewParser ts) = Some (Ok defs, p') ->
    exists ds,
      Forall definitionTyped ds /\
      ts = flat_map definitionTokens ds ++ rest p' /\
      Type_ (hd eofToken (rest p')) = EOF /\
      defs = map definitionTree ds.
Proof. exact ParseDefinitions_exact. Qed.

(** X8 at the tokens of [memberSchema]. *)
Lemma ParseDefinitions_accepts_only_the_grammar_witness :
  exists ds defs p',
    ParseDefinitions (NewParser memberSchemaTokens) = Some (Ok defs, p') /\
    Forall definitionTyped ds /\
    memberSchemaTokens = flat_map definitionTokens ds ++ rest p' /\
    defs = map definitionTree ds.
Proof.
  assert (exists defs p',
             ParseDefinitions (NewParser memberSchemaTokens)
             = Some (Ok defs, p')) as (defs & p' & E)
    by (vm_compute; do 2 eexists; reflexivity).
  destruct (ParseDefinitions_accepts_only_the_grammar _ _ _ E)
    as (ds & H1 & H2 & _ & H3).
  exists ds, defs, p'. auto.
Defined.

(** X9: every sequence of definition blocks of the grammar,
    followed by a token of type end of input, is accepted:
    [ParseDefinitions] returns the definitions the blocks stand for, in
    order, and stands at what follows the blocks. *)
Theorem ParseDefinitions_accepts_the_grammar :
  forall (ds : list DefinitionTokens) (rst : list Token),
    Forall definitionTyped ds ->
    Type_ (hd eofToken rst) = EOF ->
    exists p',
      ParseDefinitions (NewParser (flat_map definitionTokens ds ++ rst))
      = Some (Ok (map definitionTree ds), p') /\
      rest p' = rst.
Proof. exact ParseDefinitions_yields. Qed.

(** X9 at the tokens of [definition d { relation r: a }]. *)
Lemma ParseDefinitions_accepts_the_grammar_witness :
  exists p',
    ParseDefinitions
      (NewParser (definitionTokens viewerDefinitionTokens ++ [eofToken]))
    = Some (Ok [definitionTree viewerDefinitionTokens], p') /\
    rest p' = [eofToken].
Proof.
  destruct (ParseDefinitions_accepts_the_grammar
              [viewerDefinitionTokens] [eofToken]) as (p' & E & R).
  - constructor; [|constructor].
    unfold definitionTyped, viewerDefinitionTokens. simpl.
    repeat split; try reflexivity.
    constructor; [|constructor]. simpl.
    unfold relationTyped, unionTyped, singleTyped. simpl.
    repeat split; try reflexivity. constructor.
  - reflexivity.
  - exists p'. split; [|exact R].
    cbn [flat_map map] in E. now rewrite app_nil_r in E.
Defined.

(* ================================================================== *)
(** * The names of a parsed document *)
(* ================================================================== *)

Lemma singleTree_named (s : SingleTokens) :
  singleTyped s -> Forall tokenOK (singleTokens s) ->
  Forall leafNamed (leaves (singleTree s)).
Proof.
  destruct s as [t nm fr]. unfold singleTyped, singleTokens, singleTree.
  cbn [st_type st_name st_fragment leaves].
  intros (Ht & Hn & Hf) Hok.
  inversion Hok as [|? ? Hokt Hok']; subst.
  apply Forall_app in Hok' as [Hokn Hokf].
  pose proof (tokenOK_identifier t Hokt Ht) as It.
  constructor; [|constructor]. split; cbn [fst snd].
  - destruct nm as [[sl n]|]; [|now left].
    right. exists (Literal t), (Literal n). split; [reflexivity|].
    split; [exact It|]. simpl in Hn, Hokn.
    inversion Hokn as [|? ? _ Hn']; subst.
    inversion Hn' as [|? ? Hokn0 _]; subst.
    apply tokenOK_identifier; [exact Hokn0|apply Hn].
  - destruct fr as [[h f]|]; [right|now left]. simpl in Hf, Hokf.
    inversion Hokf as [|? ? _ Hf']; subst.
    inversion Hf' as [|? ? Hokf0 _]; subst.
    apply tokenOK_identifier; [exact Hokf0|apply Hf].
Qed.

Lemma unionTree_named (s0 : SingleTokens)
  (more : list (Token * SingleTokens)) :
  unionTyped s0 more -> Forall tokenOK (unionTokens s0 more) ->
  Forall leafNamed (leaves (unionTree s0 more)).
Proof.
  unfold unionTyped, unionTokens, unionTree. intros [H0 Hmore] Hok.
  apply Forall_app in Hok as [Hok0 Hokm].
  rewrite leaves_fold_union. apply Forall_app.
  split; [now apply singleTree_named|].
  induction Hmore as [|[o s] more [_ Hs] _ IH]; cbn [flat_map];
    [constructor|].
  change (Forall tokenOK
            (o :: singleTokens s
               ++ flat_map
                    (fun os : Token * SingleTokens =>
                       fst os :: singleTokens (snd os)) more)) in Hokm.
  apply Forall_cons_iff in Hokm as [_ Hokm'].
  apply Forall_app in Hokm' as [Hoks Hokm'].
  apply Forall_app. split; [now apply singleTree_named|now apply IH].
Qed.

Lemma chain_fold_named (more : list (Token * Token)) :
  forall left,
    Forall identLit (identifiersOf left) ->
    Forall (fun o => o = "+" \/ o = "->") (operatorsOf left) ->
    Forall (fun oa => Literal (fst oa) = "->" /\ identLit (Literal (snd oa)))
      more ->
    let e := fold_left
               (fun l oa => binaryNode (fst oa) l (identLeaf (snd oa)))
               more left in
    Forall identLit (identifiersOf e) /\
    Forall (fun o => o = "+" \/ o = "->") (operatorsOf e).
Proof.
  induction more as [|[o a] more IH]; intros left Hi Ho Hm; simpl; [auto|].
  inversion Hm as [|? ? [Ho' Ha] Hm']; subst. cbn [fst snd] in *.
  apply IH; auto; unfold binaryNode, identLeaf; simpl.
  - apply Forall_app. split; auto.
  - apply Forall_app. split; auto.
Qed.

Lemma chainTree_named (c : ChainTokens) :
  chainLits c ->
  Forall identLit (identifiersOf (chainTree c)) /\
  Forall (fun o => o = "+" \/ o = "->") (operatorsOf (chainTree c)).
Proof.
  destruct c as [t more]. unfold chainLits, chainTree. cbn [fst snd].
  intros [Ht Hmore]. apply chain_fold_named; auto.
  unfold identLeaf. simpl. auto.
Qed.

Lemma additive_fold_named (more : list (Token * ChainTokens)) :
  forall left,
    Forall identLit (identifiersOf left) ->
    Forall (fun o => o = "+" \/ o = "->") (operatorsOf left) ->
    Forall (fun oc => Literal (fst oc) = "+" /\ chainLits (snd oc)) more ->
    let e := fold_left
               (fun l oc => binaryNode (fst oc) l (chainTree (snd oc)))
               more left in
    Forall identLit (identifiersOf e) /\
    Forall (fun o => o = "+" \/ o = "->") (operatorsOf e).
Proof.
  induction more as [|[o c] more IH]; intros left Hi Ho Hm; simpl; [auto|].
  inversion Hm as [|? ? [Ho' Hc] Hm']; subst. cbn [fst snd] in *.
  destruct (chainTree_named c Hc) as [Ci Co].
  apply IH; auto; unfold binaryNode; simpl.
  - apply Forall_app. split; auto.
  - apply Forall_app. split; auto.
Qed.

Lemma relationTree_named (r : RelationTokens) :
  relationTyped r -> Forall tokenOK (relationTokens r) ->
  relationNamed (relationTree r).
Proof.
  destruct r as [kw name colon s0 more].
  unfold relationTyped, relationTokens, relationTree, relationNamed.
  cbn [rt_keyword rt_name rt_colon rt_first rt_more rn_Name rn_Expression].
  intros (_ & Hn & _ & Hu) Hok.
  inversion Hok as [|? ? _ Hok1]; subst.
  inversion Hok1 as [|? ? Hokn Hok2]; subst.
  inversion Hok2 as [|? ? _ Hok3]; subst.
  split; [now apply tokenOK_identifier|now apply unionTree_named].
Qed.

Lemma permissionTree_named (r : PermissionTokens) :
  permissionTyped r -> Forall tokenOK (permissionTokens r) ->
  permissionNamed (permissionTree r).
Proof.
  destruct r as [kw name equal c0 more].
  unfold permissionTyped, permissionTokens, permissionTree, permissionNamed.
  cbn [pt_keyword pt_name pt_equal pt_first pt_more pn_Name pn_Expression].
  intros (_ & Hn & _ & Hu) Hok.
  inversion Hok as [|? ? _ Hok1]; subst.
  inversion Hok1 as [|? ? Hokn Hok2]; subst.
  inversion Hok2 as [|? ? _ Hok3]; subst.
  split; [now apply tokenOK_identifier|].
  destruct (additiveTyped_lits c0 more Hu Hok3) as [L0 Lmore].
  destruct (chainTree_named c0 L0) as [Ci Co].
  unfold additiveTree. now apply additive_fold_named.
Qed.

Lemma members_named (members : list MemberTokens) :
  forall def,
    wellNamed def -> Forall memberTyped members ->
    Forall tokenOK (flat_map memberTokens members) ->
    wellNamed (fold_left addMember members def).
Proof.
  induction members as [|m members IH]; intros def Hdef Hty Hok; simpl;
    [exact Hdef|].
  inversion Hty as [|? ? Hm Hty']; subst.
  cbn [flat_map] in Hok. apply Forall_app in Hok as [Hokm Hok'].
  apply IH; auto.
  destruct Hdef as (N1 & N2 & N3 & N4).
  destruct m as [r|r]; cbn [addMember memberTyped memberTokens] in *;
    unfold wellNamed; cbn [dn_ObjectType dn_Relations dn_Permissions].
  - refine (conj N1 (conj N2 (conj _ N4))). apply Forall_app. split; auto.
    constructor; [|constructor]. now apply relationTree_named.
  - refine (conj N1 (conj N2 (conj N3 _))). apply Forall_app. split; auto.
    constructor; [|constructor]. now apply permissionTree_named.
Qed.

Lemma definitionTree_named (d : DefinitionTokens) :
  definitionTyped d -> Forall tokenOK (definitionTokens d) ->
  wellNamed (definitionTree d).
Proof.
  destruct d as [kw firstTok name lbrace members rbrace].
  unfold definitionTyped, definitionTokens, definitionTree, objectTypeOf.
  cbn [dt_keyword dt_first dt_name dt_lbrace dt_members dt_rbrace].
  intros (_ & Hf & Hn & _ & Hm & _) Hok.
  inversion Hok as [|? ? _ Hok1]; subst.
  inversion Hok1 as [|? ? Hokf Hok2]; subst.
  apply Forall_app in Hok2 as [Hokn Hok3].
  inversion Hok3 as [|? ? _ Hok4]; subst.
  apply Forall_app in Hok4 as [Hokm _].
  pose proof (tokenOK_identifier firstTok Hokf Hf) as If.
  apply members_named; auto.
  unfold wellNamed. cbn [dn_ObjectType dn_Relations dn_Permissions].
  destruct name as [[sl n]|]; cbn [ot_Name ot_Prefix].
  - simpl in Hn, Hokn.
    inversion Hokn as [|? ? _ Hn']; subst.
    inversion Hn' as [|? ? Hokn0 _]; subst.
    refine (conj _ (conj (or_intror If) (conj (Forall_nil _) (Forall_nil _)))).
    apply tokenOK_identifier; [exact Hokn0|apply Hn].
  - exact (conj If (conj (or_introl eq_refl)
                      (conj (Forall_nil _) (Forall_nil _)))).
Qed.

Lemma parsed_wellNamed (s : string) (defs : list DefinitionNode) :
  parseDocument s = Some (Ok defs) -> Forall wellNamed defs.
Proof.
  unfold parseDocument. intros H.
  destruct (TokenizeAll_total s) as (body & t & T & Et & _ & Hok).
  rewrite T in H. cbn [obind] in H.
  destruct (ParseDefinitions (NewParser (body ++ [t]))) as [[r p']|] eqn:P;
    [|discriminate].
  cbn [obind fst] in H. injection H as ->.
  apply ParseDefinitions_exact in P as (ds & Hds & Hts & _ & ->).
  assert (Forall tokenOK (flat_map definitionTokens ds)) as Hall.
  { assert (Forall tokenOK (body ++ [t])) as Hbt.
    { apply Forall_app. split; [exact Hok|]. constructor; [|constructor].
      unfold tokenOK. now rewrite Et. }
    rewrite Hts in Hbt. now apply Forall_app in Hbt as [Hbt _]. }
  clear Hts. induction Hds as [|d ds Hd _ IH]; simpl; [constructor|].
  cbn [flat_map] in Hall. apply Forall_app in Hall as [Hd' Hall].
  constructor; [now apply definitionTree_named|now apply IH].
Qed.

(** X10: in every document that parses, each name is an identifier of
    the lexer, a letter followed by letters, digits and underscores, and
    no keyword: the name and the prefix of each definition, the names of
    its relations and permissions, the identifiers of its permission
    expressions, and the parts of each subject type ([type], [type/name],
    with an optional fragment); the operators of a permission expression
    are [+] and [->].  The package name [Generate] picks is such an
    identifier too, so the file it names lies in the output directory. *)
Theorem parsed_names_are_identifiers :
  forall (s : string) (defs : list DefinitionNode),
    parseDocument s = Some (Ok defs) ->
    Forall wellNamed defs /\ identLit (packageNameOf defs).
Proof.
  intros s defs H. pose proof (parsed_wellNamed s defs H) as Hn.
  split; [exact Hn|].
  destruct Hn as [|d ds (_ & Hp & _) _]; simpl; [split; reflexivity|].
  unfold packageOf.
  destruct (String.eqb (ot_Prefix (dn_ObjectType d)) "") eqn:E;
    [split; reflexivity|].
  destruct Hp as [Hp|Hp]; [|exact Hp].
  rewrite Hp in E. discriminate.
Qed.

(** X10 at [memberSchema]. *)
Lemma parsed_names_are_identifiers_witness :
  exists defs,
    parseDocument memberSchema = Some (Ok defs) /\
    Forall wellNamed defs /\ identLit (packageNameOf defs).
Proof.
  assert (exists defs, parseDocument memberSchema = Some (Ok defs))
    as (defs & E) by (vm_compute; eexists; reflexivity).
  exists defs. split; [exact E|].
  exact (parsed_names_are_identifiers memberSchema defs E).
Defined.

(* ================================================================== *)
(** * The template helper on the types of a parsed document *)
(* ================================================================== *)

Lemma isIdentChar_separators (c : ascii) :
  isIdentChar c = true ->
  Ascii.eqb c "/" = false /\ Ascii.eqb c "#" = false.
Proof.
  intros H. split.
  - destruct (Ascii.eqb c "/") eqn:E; [|reflexivity].
    apply Ascii.eqb_eq in E. subst c. discriminate.
  - destruct (Ascii.eqb c "#") eqn:E; [|reflexivity].
    apply Ascii.eqb_eq in E. subst c. discriminate.
Qed.

Lemma identLit_chars (x : string) :
  identLit x ->
  Forall (fun c => Ascii.eqb c "/" = false /\ Ascii.eqb c "#" = false)
    (chars x).
Proof.
  intros [H _]. apply isIdentifierText_chars in H as (c & r & E & _ & F).
  unfold chars. rewrite E. eapply Forall_impl; [|exact F].
  intros a. apply isIdentChar_separators.
Qed.

Lemma strings_Split_plain (x : string) (sep : ascii) :
  Forall (fun c => Ascii.eqb c sep = false) (chars x) ->
  strings_Split x sep = [x].
Proof.
  induction x as [|c x IH]; simpl; intros H; [reflexivity|].
  inversion H as [|? ? Hc Hx]; subst. rewrite Hc, (IH Hx). reflexivity.
Qed.

Lemma strings_Split_at (a b : string) (sep : ascii) :
  Forall (fun c => Ascii.eqb c sep = false) (chars a) ->
  strings_Split (a ++ String sep b) sep = a :: strings_Split b sep.
Proof.
  induction a as [|c a IH]; simpl; intros H.
  - now rewrite Ascii.eqb_refl.
  - inversion H as [|? ? Hc Ha]; subst. rewrite Hc, (IH Ha). reflexivity.
Qed.

Lemma strings_Index_plain (x : string) (c : ascii) :
  Forall (fun d => Ascii.eqb d c = false) (chars x) ->
  strings_Index x c = None.
Proof.
  induction x as [|d x IH]; simpl; intros H; [reflexivity|].
  inversion H as [|? ? Hd Hx]; subst. rewrite Hd, (IH Hx). reflexivity.
Qed.

Lemma strings_Index_at (a b : string) (c : ascii) :
  Forall (fun d => Ascii.eqb d c = false) (chars a) ->
  strings_Index (a ++ String c b) c = Some (String.length a).
Proof.
  induction a as [|d a IH]; simpl; intros H.
  - now rewrite Ascii.eqb_refl.
  - inversion H as [|? ? Hd Ha]; subst. rewrite Hd, (IH Ha). reflexivity.
Qed.

Lemma substring_prefix (a b : string) :
  substring 0 (String.length a) (a ++ b) = a.
Proof.
  induction a as [|c a IH]; simpl; [now destruct b|]. now rewrite IH.
Qed.

Lemma chars_no (x : string) (P Q : ascii -> Prop) :
  Forall (fun c => P c /\ Q c) (chars x) ->
  Forall P (chars x) /\ Forall Q (chars x).
Proof.
  intros H. split; eapply Forall_impl; try exact H; intros a [? ?]; auto.
Qed.

Lemma extractType_cases (a b f : string) :
  identLit a -> identLit b -> identLit f ->
  extractType a = a /\
  extractType (a ++ "/" ++ b) = b /\
  extractType (a ++ "#" ++ f) = a /\
  extractType (a ++ "/" ++ b ++ "#" ++ f) = b.
Proof.
  intros Ha Hb Hf.
  destruct (chars_no _ _ _ (identLit_chars a Ha)) as [As Ah].
  destruct (chars_no _ _ _ (identLit_chars b Hb)) as [Bs Bh].
  destruct (chars_no _ _ _ (identLit_chars f Hf)) as [Fs Fh].
  unfold extractType. repeat split.
  - rewrite (strings_Split_plain a "/" As). simpl.
    now rewrite (strings_Index_plain a "#" Ah).
  - change (a ++ "/" ++ b)%string with (a ++ String "/" b)%string.
    rewrite (strings_Split_at a b "/" As), (strings_Split_plain b "/" Bs).
    simpl. now rewrite (strings_Index_plain b "#" Bh).
  - change (a ++ "#" ++ f)%string with (a ++ String "#" f)%string.
    rewrite strings_Split_plain.
    + simpl. rewrite (strings_Index_at a f "#" Ah).
      apply substring_prefix.
    + rewrite chars_app. apply Forall_app. split; [exact As|].
      constructor; [reflexivity|exact Fs].
  - change (a ++ "/" ++ b ++ "#" ++ f)%string
      with (a ++ String "/" (b ++ String "#" f))%string.
    rewrite (strings_Split_at a _ "/" As), strings_Split_plain.
    + simpl. rewrite (strings_Index_at b f "#" Bh).
      apply substring_prefix.
    + rewrite chars_app. apply Forall_app. split; [exact Bs|].
      constructor; [reflexivity|exact Fs].
Qed.

Lemma extractType_leaf (vf : string * string) :
  leafNamed vf -> identLit (extractType (renderLeaf vf)).
Proof.
  destruct vf as [v f]. unfold leafNamed, renderLeaf. cbn [fst snd].
  assert (identLit "x") as Hx by (split; reflexivity).
  intros [[Hv|(a & b & -> & Ha & Hb)] [->|Hf]].
  - rewrite String.eqb_refl.
    now rewrite (proj1 (extractType_cases v "x" "x" Hv Hx Hx)).
  - assert (String.eqb f "" = false) as ->.
    { destruct f; [destruct Hf; discriminate|reflexivity]. }
    now rewrite (proj1 (proj2 (proj2 (extractType_cases v "x" f Hv Hx Hf)))).
  - rewrite String.eqb_refl.
    now rewrite (proj1 (proj2 (extractType_cases a b "x" Ha Hb Hx))).
  - assert (String.eqb f "" = false) as ->.
    { destruct f; [destruct Hf; discriminate|reflexivity]. }
    rewrite append_assoc.
    change (("/" ++ b) ++ "#" ++ f)%string with ("/" ++ b ++ "#" ++ f)%string.
    now rewrite (proj2 (proj2 (proj2 (extractType_cases a b f Ha Hb Hf)))).
Qed.

(** X11: on the four forms of a subject type, [type], [type/name],
    [type#fragment] and [type/name#fragment], the template helper
    [extractType] returns the name after the slash, or the type when
    there is no slash, without the fragment; and on every type of every
    relation of a document that parses it returns an identifier. *)
Theorem extractType_gives_the_type_name :
  (forall a b f : string,
      identLit a -> identLit b -> identLit f ->
      extractType a = a /\
      extractType (a ++ "/" ++ b) = b /\
      extractType (a ++ "#" ++ f) = a /\
      extractType (a ++ "/" ++ b ++ "#" ++ f) = b) /\
  (forall (s : string) (defs : list DefinitionNode) (d : DefinitionNode)
          (r : Relation) (ty : string),
      parseDocument s = Some (Ok defs) ->
      In d defs -> In r (def_Relations (convertDefinition d)) ->
      In ty (rel_Types r) ->
      identLit (extractType ty)).
Proof.
  split; [exact extractType_cases|].
  intros s defs d r ty Hparse Hd Hr Hty.
  pose proof (parsed_wellNamed s defs Hparse) as Hn.
  rewrite Forall_forall in Hn. destruct (Hn d Hd) as (_ & _ & Hrels & _).
  unfold convertDefinition in Hr. cbn [def_Relations] in Hr.
  apply in_map_iff in Hr as (astRel & <- & Hin).
  rewrite Forall_forall in Hrels. destruct (Hrels astRel Hin) as [_ Hleaves].
  unfold convertRelation in Hty. cbn [rel_Types] in Hty.
  rewrite extractTypes_leaves in Hty.
  apply in_map_iff in Hty as (vf & <- & Hvf).
  rewrite Forall_forall in Hleaves. apply extractType_leaf. now apply Hleaves.
Qed.

(** X11 at the subject type [t/d#member]. *)
Lemma extractType_gives_the_type_name_witness :
  extractType "t" = "t" /\ extractType "t/d" = "d" /\
  extractType "t#member" = "t" /\ extractType "t/d#member" = "d".
Proof.
  apply (proj1 extractType_gives_the_type_name "t" "d" "member");
    split; reflexivity.
Defined.

(* ================================================================== *)
(** * Documents one after the other, and what a parse consumes *)
(* ================================================================== *)

Lemma definitionTokens_consumable (d : DefinitionTokens) :
  definitionTyped d ->
  Forall (fun t => Type_ t <> EOF) (definitionTokens d).
Proof.
  intros Hd.
  destruct (ParseDefinitions_yields [d] [eofToken]) as (p' & E & R);
    [constructor; auto|reflexivity|].
  destruct (ParseDefinitions_consumed _ _ _ E) as (pre & Hpre & F & _).
  rewrite R in Hpre. cbn [flat_map] in Hpre. rewrite app_nil_r in Hpre.
  apply app_inj_tail in Hpre as [-> _].
  eapply Forall_impl; [|exact F]. intros t Ht Heq. cbv beta in Ht.
  rewrite Heq in Ht. discriminate.
Qed.

Lemma definitions_no_EOF (ds : list DefinitionTokens) :
  Forall definitionTyped ds ->
  Forall (fun t => Type_ t <> EOF) (flat_map definitionTokens ds).
Proof.
  induction 1 as [|d ds Hd _ IH]; cbn [flat_map]; [constructor|].
  apply Forall_app. split; [now apply definitionTokens_consumable|exact IH].
Qed.

(** Two ways to cut one list before its first token of type end of
    input cut it at the same place. *)
Lemma cut_at_EOF (a b c d : list Token) :
  a ++ b = c ++ d ->
  Forall (fun t => Type_ t <> EOF) a ->
  Forall (fun t => Type_ t <> EOF) c ->
  Type_ (hd eofToken b) = EOF -> Type_ (hd eofToken d) = EOF ->
  a = c /\ b = d.
Proof.
  revert c. induction a as [|x a IH]; intros c H Ha Hc Hb Hd.
  - destruct c as [|y c]; [auto|]. simpl in H. subst b. simpl in Hb.
    inversion Hc; subst. contradiction.
  - destruct c as [|y c].
    + simpl in H. subst d. simpl in Hd. inversion Ha; subst. contradiction.
    + simpl in H. injection H as -> H.
      inversion Ha; subst. inversion Hc; subst.
      destruct (IH c H) as [-> ->]; auto.
Qed.

(** X12: the tokens of one document that parses, without its final
    end-of-input token, followed by the tokens of another document that
    parses, parse to the definitions of the first followed by those of
    the second: no state of the parser passes from one definition to the
    next. *)
Theorem ParseDefinitions_of_documents_in_sequence :
  forall (body1 : list Token) (e1 : Token) (ts2 : list Token)
         (defs1 defs2 : list DefinitionNode) (p1 p2 : Parser),
    Forall (fun t => Type_ t <> EOF) body1 -> Type_ e1 = EOF ->
    ParseDefinitions (NewParser (body1 ++ [e1])) = Some (Ok defs1, p1) ->
    ParseDefinitions (NewParser ts2) = Some (Ok defs2, p2) ->
    exists p',
      ParseDefinitions (NewParser (body1 ++ ts2))
      = Some (Ok (defs1 ++ defs2), p') /\
      rest p' = rest p2.
Proof.
  intros body1 e1 ts2 defs1 defs2 p1 p2 Hb He P1 P2.
  apply ParseDefinitions_exact in P1 as (ds1 & T1 & E1 & H1 & ->).
  apply ParseDefinitions_exact in P2 as (ds2 & T2 & E2 & H2 & ->).
  destruct (cut_at_EOF _ _ _ _ E1 Hb (definitions_no_EOF ds1 T1))
    as [-> _]; auto.
  destruct (ParseDefinitions_yields (ds1 ++ ds2) (rest p2)) as (p' & E & R).
  { apply Forall_app. auto. }
  { exact H2. }
  exists p'. split; [|exact R].
  rewrite <- map_app, <- E. do 2 f_equal.
  rewrite E2 at 1. rewrite flat_map_app. now rewrite app_assoc.
Qed.

(** X12 at the tokens of [memberSchema], twice. *)
Lemma ParseDefinitions_of_documents_in_sequence_witness :
  exists defs p',
    ParseDefinitions
      (NewParser (removelast memberSchemaTokens ++ memberSchemaTokens))
    = Some (Ok (defs ++ defs), p').
Proof.
  assert (exists defs p,
             ParseDefinitions (NewParser memberSchemaTokens)
             = Some (Ok defs, p)) as (defs & p & E)
    by (vm_compute; do 2 eexists; reflexivity).
  assert (memberSchemaTokens
          = removelast memberSchemaTokens
            ++ [last memberSchemaTokens eofToken]) as Hsplit
    by (vm_compute; reflexivity).
  destruct (ParseDefinitions_of_documents_in_sequence
              (removelast memberSchemaTokens)
              (last memberSchemaTokens eofToken)
              memberSchemaTokens defs defs p p) as (p' & E' & _).
  - vm_compute. repeat constructor; discriminate.
  - reflexivity.
  - rewrite <- Hsplit. exact E.
  - exact E.
  - exists defs, p'. exact E'.
Defined.

(** X13: when the tokens the lexer returns for a document parse,
    the parser has passed every token before the final end-of-input
    token and stands at that token, so nothing at the end of a document
    is left unread; each token passed has a type the grammar uses; and a
    document for which the lexer returns an [ILLEGAL] token does not
    parse. *)
Theorem successful_parse_reads_every_token :
  (forall (s : string) (ts : list Token) (defs : list DefinitionNode)
          (p' : Parser),
      TokenizeAll (NewLexer s) = Some ts ->
      ParseDefinitions (NewParser ts) = Some (Ok defs, p') ->
      exists body t,
        ts = body ++ [t] /\ Type_ t = EOF /\ rest p' = [t] /\
        Forall (fun t => consumable (Type_ t) = true) body) /\
  (forall (s : string) (ts : list Token),
      TokenizeAll (NewLexer s) = Some ts ->
      (exists t, In t ts /\ Type_ t = ILLEGAL) ->
      exists e p', ParseDefinitions (NewParser ts) = Some (Err e, p')).
Proof.
  assert (forall s ts defs p',
             TokenizeAll (NewLexer s) = Some ts ->
             ParseDefinitions (NewParser ts) = Some (Ok defs, p') ->
             exists body t,
               ts = body ++ [t] /\ Type_ t = EOF /\ rest p' = [t] /\
               Forall (fun t => consumable (Type_ t) = true) body) as Hall.
  { intros s ts defs p' Hts E.
    destruct (ParseDefinitions_consumed ts defs p' E) as (pre & R & F & Q).
    destruct (TokenizeAll_total s) as (body & t & H1 & H2 & H3 & _).
    rewrite Hts in H1. injection H1 as ->.
    pose proof (consumed_prefix body pre (rest p') t R H2 H3 F Q) as ->.
    apply app_inv_head in R. exists body, t. auto. }
  split; [exact Hall|].
  intros s ts Hts (w & Hin & Hw).
  destruct (returnsAll_ParseDefinitions (fun _ _ => True)
              (fun p => runs_weaken _ _ _ _ _ _ (runs_parseDefinition p)
                          (fun _ _ _ => I) (fun H => H)) ts)
    as (r & p' & E & _ & _ & _).
  destruct r as [defs|e]; [|now exists e, p'].
  exfalso.
  destruct (Hall s ts defs p' Hts E) as (body & t & -> & Ht & _ & F).
  apply in_app_or in Hin as [Hin|[<-|[]]].
  - rewrite Forall_forall in F. specialize (F w Hin).
    rewrite Hw in F. discriminate.
  - rewrite Hw in Ht. discriminate.
Qed.

(** X13 at the document [definition d { relation r: a $ }]. *)
Lemma successful_parse_reads_every_token_witness :
  exists ts e p',
    TokenizeAll (NewLexer "definition d { relation r: a $ }") = Some ts /\
    ParseDefinitions (NewParser ts) = Some (Err e, p').
Proof.
  assert (exists ts,
             TokenizeAll (NewLexer "definition d { relation r: a $ }")
             = Some ts /\
             In {| Type_ := ILLEGAL; Literal := "$"; Line := 1;
                   Position := 30 |} ts) as (ts & E & Hin).
  { vm_compute. eexists. split; [reflexivity|]. do 7 right. now left. }
  destruct (proj2 successful_parse_reads_every_token _ ts E) as (e & p' & P).
  - eexists. split; [exact Hin|reflexivity].
  - exists ts, e, p'. auto.
Defined.

(* ================================================================== *)
(** * Parse errors name the token at which the parser stands *)
(* ================================================================== *)

Lemma stopping_ret {A : Type} (a : A) : stopping (ret a).
Proof. intros p e p' H. discriminate. Qed.

Lemma stopping_consume (t : TokenType) : stopping (consume t).
Proof.
  intros p e p'. unfold consume.
  destruct (TokenType_eqb (Type_ (peek p)) t); [discriminate|].
  intros H. injection H as <- <-. reflexivity.
Qed.

Lemma stopping_wrapping {A : Type} (format : string) (args : list string)
  (m : M A) :
  stopping m -> stopping (wrapping format args m).
Proof.
  intros Hm p e p'. unfold wrapping.
  destruct (m p) as [[[a|e0] p1]|] eqn:E; try discriminate.
  intros H. injection H as <- <-. simpl. exact (Hm p e0 p1 E).
Qed.

Lemma stopping_bind {A B : Type} (m : M A) (k : A -> M B) :
  stopping m -> (forall a, stopping (k a)) -> stopping (bind m k).
Proof.
  intros Hm Hk p e p'. unfold bind.
  destruct (m p) as [[[a|e0] p1]|] eqn:E; try discriminate.
  - apply Hk.
  - intros H. injection H as <- <-. exact (Hm p e0 p1 E).
Qed.

Lemma stopping_if {A : Type} (c : Parser -> bool) (m1 m2 : M A) :
  stopping m1 -> stopping m2 ->
  stopping (fun p => if c p then m1 p else m2 p).
Proof.
  intros H1 H2 p e p'. cbv beta. destruct (c p); [apply H1|apply H2].
Qed.

Lemma stopping_fun {A : Type} (m : Parser -> M A) :
  (forall q, stopping (m q)) -> stopping (fun p => m p p).
Proof. intros H p e p'. apply H. Qed.

Lemma stopping_parseSingleRelation : stopping parseSingleRelation.
Proof.
  unfold parseSingleRelation.
  repeat first [ apply stopping_consume
               | apply stopping_ret
               | apply stopping_bind; [|intros ?]
               | apply stopping_if ].
Qed.

Lemma stopping_parseRelationExpression_loop (fuel : nat) :
  forall left, stopping (parseRelationExpression_loop fuel left).
Proof.
  induction fuel as [|fuel IH]; intros left p e p'; simpl;
    destruct (peekIs PIPE p); try discriminate.
  revert p e p'.
  repeat first [ apply stopping_consume
               | apply stopping_parseSingleRelation
               | apply IH
               | apply stopping_bind; [|intros ?] ].
Qed.

Lemma stopping_parseRelationExpression : stopping parseRelationExpression.
Proof.
  unfold parseRelationExpression.
  apply stopping_bind; [apply stopping_parseSingleRelation|intros left].
  apply (stopping_fun (fun q => parseRelationExpression_loop (loopFuel q) left)).
  intros q. apply stopping_parseRelationExpression_loop.
Qed.

Lemma stopping_parseRelation : stopping parseRelation.
Proof.
  unfold parseRelation.
  repeat first [ apply stopping_wrapping
               | apply stopping_consume
               | apply stopping_parseRelationExpression
               | apply stopping_ret
               | apply stopping_bind; [|intros ?] ].
Qed.

Lemma stopping_parseIdentifierChain_loop (fuel : nat) :
  forall left, stopping (parseIdentifierChain_loop fuel left).
Proof.
  induction fuel as [|fuel IH]; intros left p e p'; simpl;
    destruct (peekIs MINUS_ARROW p); try discriminate.
  revert p e p'.
  repeat first [ apply stopping_consume
               | apply IH
               | apply stopping_bind; [|intros ?] ].
Qed.

Lemma stopping_parseIdentifierChain : stopping parseIdentifierChain.
Proof.
  unfold parseIdentifierChain.
  apply stopping_bind; [apply stopping_consume|intros identToken].
  apply (stopping_fun
           (fun q => parseIdentifierChain_loop (loopFuel q)
                       (IdentifierNode (Literal identToken)))).
  intros q. apply stopping_parseIdentifierChain_loop.
Qed.

Lemma stopping_parseAdditiveExpression_loop (fuel : nat) :
  forall left, stopping (parseAdditiveExpression_loop fuel left).
Proof.
  induction fuel as [|fuel IH]; intros left p e p'; simpl;
    destruct (peekIs PLUS p); try discriminate.
  revert p e p'.
  repeat first [ apply stopping_consume
               | apply stopping_parseIdentifierChain
               | apply IH
               | apply stopping_bind; [|intros ?] ].
Qed.

Lemma stopping_parsePermissionExpression :
  stopping parsePermissionExpression.
Proof.
  unfold parsePermissionExpression, parseAdditiveExpression.
  apply stopping_bind; [apply stopping_parseIdentifierChain|intros left].
  apply (stopping_fun (fun q => parseAdditiveExpression_loop (loopFuel q) left)).
  intros q. apply stopping_parseAdditiveExpression_loop.
Qed.

Lemma stopping_parsePermission : stopping parsePermission.
Proof.
  unfold parsePermission.
  repeat first [ apply stopping_wrapping
               | apply stopping_consume
               | apply stopping_parsePermissionExpression
               | apply stopping_ret
               | apply stopping_bind; [|intros ?] ].
Qed.

Lemma stopping_parseDefinition_loop (fuel : nat) :
  forall def, stopping (parseDefinition_loop fuel def).
Proof.
  induction fuel as [|fuel IH]; intros def p e p'; simpl;
    destruct (peekIs RELATION p || peekIs PERMISSION p); try discriminate.
  destruct (peekIs RELATION p).
  - revert p e p'.
    apply stopping_bind; [apply stopping_parseRelation|intros rel; apply IH].
  - destruct (peekIs PERMISSION p); [|apply IH].
    revert p e p'.
    apply stopping_bind; [apply stopping_parsePermission|intros rel; apply IH].
Qed.

Lemma stopping_parseDefinition : stopping parseDefinition.
Proof.
  unfold parseDefinition.
  apply stopping_bind;
    [apply stopping_wrapping, stopping_consume|intros defToken].
  apply stopping_bind;
    [apply stopping_wrapping, stopping_consume|intros firstToken].
  apply stopping_bind.
  - apply stopping_if.
    + repeat first [ apply stopping_wrapping
               | apply stopping_consume
               | apply stopping_ret
               | apply stopping_bind; [|intros ?] ].
    + apply stopping_if; [apply stopping_ret|].
      intros p e p' H. unfold fail in H. injection H as <- <-. reflexivity.
  - intros [ot objectTypeName].
    apply stopping_bind;
      [apply stopping_wrapping, stopping_consume|intros lbrace].
    apply stopping_bind.
    + apply (stopping_fun
               (fun q => parseDefinition_loop (loopFuel q)
                           {| dn_ObjectType := ot; dn_Relations := [];
                              dn_Permissions := [] |})).
      intros q. apply stopping_parseDefinition_loop.
    + intros def.
      apply stopping_bind;
        [apply stopping_wrapping, stopping_consume|intros rbrace].
      apply stopping_ret.
Qed.

Lemma stopping_ParseDefinitions_loop (fuel : nat) :
  stopping (ParseDefinitions_loop fuel).
Proof.
  induction fuel as [|fuel IH]; intros p e p'; simpl;
    destruct (negb (peekIs EOF p)); try discriminate.
  destruct (negb (peekIs DEFINITION p)).
  - intros H. unfold fail in H. injection H as <- <-. reflexivity.
  - revert p e p'.
    apply stopping_bind; [apply stopping_parseDefinition|intros def].
    intros p e p' H. cbv beta in H. apply IH in H. exact H.
Qed.

(** X14: every error [ParseDefinitions] returns names the token at
    which the parser stands when it returns (the message prints the type,
    the literal and the line of that token): the parser has not moved
    past the token that did not fit, and each token before it has a type
    the grammar uses. *)
Theorem parse_error_names_the_token_where_parsing_stopped :
  forall (ts : list Token) (e : error) (p' : Parser),
    ParseDefinitions (NewParser ts) = Some (Err e, p') ->
    errorToken e = Some (peek p') /\
    tokens p' = ts /\
    exists pre,
      ts = pre ++ rest p' /\
      Forall (fun t => consumable (Type_ t) = true) pre.
Proof.
  intros ts e p' H. split.
  - exact (stopping_ParseDefinitions_loop _ _ _ _ H).
  - destruct (returnsAll_ParseDefinitions (fun _ _ => True)
                (fun p => runs_weaken _ _ _ _ _ _ (runs_parseDefinition p)
                            (fun _ _ _ => I) (fun H => H)) ts)
      as (r & q & E & T & (pre & R & F) & _).
    rewrite H in E. injection E as <- <-.
    split; [exact T|]. exists pre. split; [exact R|exact F].
Qed.

(** X14 at the document [definition d { relation r: a $ }]: the error
    names the token of the [$]. *)
Lemma parse_error_names_the_token_where_parsing_stopped_witness :
  exists ts e p',
    TokenizeAll (NewLexer "definition d { relation r: a $ }") = Some ts /\
    ParseDefinitions (NewParser ts) = Some (Err e, p') /\
    errorToken e
    = Some {| Type_ := ILLEGAL; Literal := "$"; Line := 1; Position := 30 |}.
Proof.
  assert (exists ts e p',
             TokenizeAll (NewLexer "definition d { relation r: a $ }")
             = Some ts /\
             ParseDefinitions (NewParser ts) = Some (Err e, p') /\
             peek p' = {| Type_ := ILLEGAL; Literal := "$"; Line := 1;
                          Position := 30 |}) as (ts & e & p' & T & P & K)
    by (vm_compute; do 3 eexists; repeat split; reflexivity).
  exists ts, e, p'. split; [exact T|]. split; [exact P|].
  rewrite <- K.
  exact (proj1 (parse_error_names_the_token_where_parsing_stopped ts e p' P)).
Defined.

(* ================================================================== *)
(** * The lexer: the recursive call, and blank documents *)
(* ================================================================== *)

Lemma switchToken_recur (r1 r2 : Lexer -> option (Token * Lexer))
  (l : Lexer) :
  atComment l = false -> switchToken r1 l = switchToken r2 l.
Proof.
  unfold atComment, switchToken. intros H.
  destruct (Ascii.eqb (ch l) "/") eqn:E; simpl in H; [rewrite H|];
    reflexivity.
Qed.

(** X15: the recursive call of [NextToken] in its ['/'] case is never
    reached: the loop before the [switch] leaves the lexer at no comment,
    so the result of [NextToken] is that of the [switch] with any
    function at all in place of the recursive call. *)
Theorem NextToken_never_recurses :
  forall l : Lexer,
    wf l ->
    exists l0 l1,
      skipWhitespace l = Some l0 /\
      skipComments (scanFuel l0) l0 = Some l1 /\
      atComment l1 = false /\
      forall recur, NextToken l = switchToken recur l1.
Proof.
  intros l Hwf.
  destruct (skipWhitespace_spec l Hwf) as (l0 & A1 & A2 & A3 & A4).
  destruct (skipComments_spec (scanFuel l0) l0 A2 (remaining_le_scanFuel l0))
    as (l1 & B1 & B2 & B3 & B4 & B5).
  exists l0, l1. repeat (split; [assumption|]).
  intros recur. unfold NextToken. rewrite NextToken_fuel_eq, A1.
  cbn [obind]. rewrite B1. cbn [obind]. now apply switchToken_recur.
Qed.

(** X15 at the text [/ b], which starts with a slash that opens no
    comment. *)
Lemma NextToken_never_recurses_witness :
  exists l0 l1,
    skipWhitespace (NewLexer "/ b") = Some l0 /\
    skipComments (scanFuel l0) l0 = Some l1 /\
    atComment l1 = false /\
    forall recur, NextToken (NewLexer "/ b") = switchToken recur l1.
Proof. exact (NextToken_never_recurses (NewLexer "/ b") (NewLexer_wf _)). Defined.

Lemma blank_dropWhile_space (x : list ascii) :
  blank x -> blank (dropWhile isWhitespace x).
Proof.
  induction 1 as [|c r Hc _ IH|c r Hc Hr Hb _]; simpl.
  - constructor.
  - now rewrite Hc.
  - now constructor.
Qed.

Lemma blank_after_comment (x : list ascii) :
  blank ("/"%char :: "/"%char :: x) ->
  blank (dropWhile inComment ("/"%char :: "/"%char :: x)).
Proof.
  intros H. inversion H as [|c r Hc _|c r Hc Hr Hb]; subst.
  - discriminate.
  - simpl. now rewrite dropWhile_app.
Qed.

Lemma blank_stuck (l : Lexer) :
  wf l -> blank (remaining l) ->
  isWhitespace (ch l) = false -> atComment l = false ->
  remaining l = [].
Proof.
  intros Hwf Hb Hws Hac. pose proof Hwf as [_ Hc].
  unfold atComment in Hac. rewrite peekChar_remaining in Hac by assumption.
  rewrite Hc in Hws, Hac.
  destruct Hb as [|c r Hcw _|c r _ _ _]; simpl in *; [reflexivity| |].
  - congruence.
  - discriminate.
Qed.

Lemma skipComments_blank (fuel : nat) :
  forall l,
    wf l -> blank (remaining l) -> isWhitespace (ch l) = false ->
    List.length (remaining l) <= fuel ->
    exists l1, skipComments fuel l = Some l1 /\ wf l1 /\ remaining l1 = [].
Proof.
  induction fuel as [|fuel IH]; intros l Hwf Hb Hws Hlen.
  - exists l. destruct (remaining l) eqn:E; [|simpl in Hlen; lia].
    assert (atComment l = false) as Hac.
    { destruct (atComment l) eqn:Hac; [|reflexivity].
      destruct (atComment_remaining l Hwf Hac) as [r Hr]. congruence. }
    simpl. rewrite Hac. auto.
  - simpl. destruct (atComment l) eqn:Hac.
    + destruct (atComment_remaining l Hwf Hac) as [x Hx].
      unfold skipComment. rewrite Hac.
      destruct (readCharWhile_spec inComment inComment_NUL (scanFuel l) l
                  Hwf (remaining_le_scanFuel l))
        as (l2 & A1 & A2 & A3 & A4 & _).
      rewrite A1. cbn [obind].
      destruct (skipWhitespace_spec l2 A2) as (l3 & B1 & B2 & B3 & B4).
      rewrite B1. cbn [obind].
      assert (blank (remaining l2)) as Hb2.
      { rewrite A4, Hx. apply blank_after_comment. now rewrite <- Hx. }
      apply IH.
      * exact B2.
      * rewrite B4. now apply blank_dropWhile_space.
      * destruct B2 as [_ Hc3]. rewrite Hc3, B4.
        apply dropWhile_hd. reflexivity.
      * assert (List.length (remaining l3) <= List.length (remaining l2))
          by (rewrite B4; apply dropWhile_length).
        assert (List.length (remaining l2) < List.length (remaining l)).
        { rewrite A4, Hx. simpl.
          pose proof (dropWhile_length inComment x). lia. }
        lia.
    + exists l. split; [reflexivity|]. split; [exact Hwf|].
      now apply blank_stuck.
Qed.

Lemma NextToken_blank (l : Lexer) :
  wf l -> blank (remaining l) ->
  exists tok l', NextToken l = Some (tok, l') /\ Type_ tok = EOF.
Proof.
  intros Hwf Hb.
  destruct (skipWhitespace_spec l Hwf) as (l0 & A1 & A2 & A3 & A4).
  destruct (skipComments_blank (scanFuel l0) l0) as (l1 & B1 & B2 & B3).
  - exact A2.
  - rewrite A4. now apply blank_dropWhile_space.
  - destruct A2 as [_ Hc]. rewrite Hc, A4. apply dropWhile_hd. reflexivity.
  - apply remaining_le_scanFuel.
  - unfold NextToken. rewrite NextToken_fuel_eq, A1. cbn [obind].
    rewrite B1. cbn [obind].
    pose proof B2 as [_ Hc]. rewrite B3 in Hc. simpl in Hc.
    unfold switchToken. rewrite Hc. simpl. eexists _, _. split; reflexivity.
Qed.

Lemma TokenizeAll_blank (s : string) :
  blank (chars s) ->
  exists t, TokenizeAll (NewLexer s) = Some [t] /\ Type_ t = EOF.
Proof.
  intros Hb.
  destruct (NextToken_blank (NewLexer s) (NewLexer_wf s)) as (t & l' & N & E).
  { now rewrite NewLexer_remaining. }
  exists t. split; [|exact E].
  unfold TokenizeAll. simpl. rewrite N. simpl. now rewrite E.
Qed.

(** X16: a document that holds only white space and comments (the
    empty document among them) is no error: the lexer returns the single
    end-of-input token, the parser returns no definition, and the
    generator goes on to generate the package [authz] from an empty list
    of definitions. *)
Theorem blank_document_has_no_definitions :
  forall s : string,
    blank (chars s) ->
    (exists t, TokenizeAll (NewLexer s) = Some [t] /\ Type_ t = EOF) /\
    parseDocument s = Some (Ok []) /\
    (forall env g,
        os_ReadFile env (schemaFile g) = Ok s ->
        Generate env g
        = Some (outcomeOf "authz" (generateCode env g "authz" []))).
Proof.
  intros s Hb. destruct (TokenizeAll_blank s Hb) as (t & T & E).
  assert (parseDocument s = Some (Ok [])) as P.
  { unfold parseDocument. rewrite T. cbn [obind].
    unfold ParseDefinitions, NewParser, loopFuel. cbn [tokens List.length].
    cbn [ParseDefinitions_loop]. unfold peekIs, peek.
    cbn [tokens current List.length Nat.leb nth]. rewrite E. reflexivity. }
  split; [now exists t|]. split; [exact P|].
  intros env g Hread. exact (Generate_parsed env g s [] Hread P).
Qed.

(** X16 at a document of a comment and an empty line. *)
Lemma blank_document_has_no_definitions_witness :
  parseDocument ("// nothing here" ++ String LF (String LF ""))
  = Some (Ok []).
Proof.
  apply (blank_document_has_no_definitions
           ("// nothing here" ++ String LF (String LF ""))).
  apply (blank_comment (list_ascii_of_string " nothing here")
           [LF; LF]).
  - repeat constructor.
  - reflexivity.
  - repeat constructor.
Defined.

(* ================================================================== *)
(** * The lexer stops at the first NUL byte *)
(* ================================================================== *)

Lemma sameUntilNUL_remaining (tail : list ascii) (a b : Lexer) :
  sameUntilNUL tail a b -> remaining b = remaining a ++ NUL :: tail.
Proof.
  intros (_ & _ & I & P & L & _). unfold remaining. rewrite I, P.
  rewrite skipn_app. replace (position a - List.length (input a)) with 0
    by lia. reflexivity.
Qed.

Lemma sameUntilNUL_ch (tail : list ascii) (a b : Lexer) :
  sameUntilNUL tail a b -> ch b = ch a.
Proof.
  intros H. pose proof (sameUntilNUL_remaining tail a b H) as R.
  destruct H as ([_ Ca] & [_ Cb] & _). rewrite Ca, Cb, R.
  now destruct (remaining a).
Qed.

Lemma sameUntilNUL_readChar (tail : list ascii) (a b : Lexer) :
  sameUntilNUL tail a b -> ch a <> NUL ->
  sameUntilNUL tail (readChar a) (readChar b).
Proof.
  intros H Hn. pose proof (sameUntilNUL_remaining tail a b H) as R.
  pose proof (sameUntilNUL_ch tail a b H) as C.
  destruct H as (Wa & Wb & I & P & L & Ln & Lp).
  assert (position a < List.length (input a)) as Hlt.
  { pose proof (ch_nonNUL_remaining a Wa Hn) as K.
    rewrite remaining_length in K.
    destruct (remaining a) eqn:E; simpl in K; lia. }
  assert (ch (readChar b) = ch (readChar a)) as C'.
  { pose proof (readChar_wf a) as [_ Ca]. pose proof (readChar_wf b) as [_ Cb].
    rewrite Ca, Cb, !readChar_remaining, R by assumption.
    destruct Wa as [_ Ha].
    destruct (remaining a) as [|x [|y r]]; [|reflexivity|reflexivity].
    simpl in Ha. contradiction. }
  refine (conj (readChar_wf a) (conj (readChar_wf b) (conj I (conj _
            (conj _ (conj _ _)))))).
  - rewrite !readChar_position by assumption. now rewrite P.
  - rewrite readChar_position, readChar_input by assumption. lia.
  - rewrite !readChar_line, C', Ln. reflexivity.
  - rewrite !readChar_linePosition, C', Lp. reflexivity.
Qed.

Lemma sameUntilNUL_readCharWhile (tail : list ascii) (cond : ascii -> bool) :
  cond NUL = false ->
  forall fa a b fb,
    sameUntilNUL tail a b ->
    List.length (remaining a) <= fa -> List.length (remaining b) <= fb ->
    exists a' b',
      readCharWhile cond fa a = Some a' /\
      readCharWhile cond fb b = Some b' /\
      sameUntilNUL tail a' b' /\ input a' = input a /\
      List.length (remaining a') <= List.length (remaining a).
Proof.
  intros H0. induction fa as [|fa IH]; intros a b fb H La Lb.
  - assert (remaining a = []) as E
      by (destruct (remaining a); simpl in *; [auto|lia]).
    pose proof (sameUntilNUL_ch tail a b H) as C.
    pose proof H as ([_ Ca] & _). rewrite E in Ca. simpl in Ca.
    exists a, b. rewrite !readCharWhile_stop by congruence. auto.
  - pose proof (sameUntilNUL_ch tail a b H) as C.
    destruct (cond (ch a)) eqn:Ec.
    + assert (ch a <> NUL) as Hn by congruence.
      pose proof H as (Wa & Wb & _).
      pose proof (ch_nonNUL_remaining a Wa Hn) as Ka.
      assert (ch b <> NUL) as Hnb by congruence.
      pose proof (ch_nonNUL_remaining b Wb Hnb) as Kb.
      destruct fb as [|fb]; [lia|].
      destruct (IH (readChar a) (readChar b) fb)
        as (a' & b' & A & B & S' & I' & L').
      * now apply sameUntilNUL_readChar.
      * rewrite readChar_remaining by assumption. lia.
      * rewrite readChar_remaining by assumption. lia.
      * exists a', b'. simpl. rewrite C, Ec.
        refine (conj A (conj B (conj S' (conj I' _)))).
        rewrite readChar_remaining in L' by assumption. lia.
    + exists a, b. rewrite !readCharWhile_stop by congruence. auto.
Qed.

Lemma sameUntilNUL_length (tail : list ascii) (a b : Lexer) :
  sameUntilNUL tail a b ->
  List.length (remaining b)
  = List.length (remaining a) + S (List.length tail).
Proof.
  intros H. rewrite (sameUntilNUL_remaining tail a b H), length_app.
  reflexivity.
Qed.

Lemma sameUntilNUL_skipWhitespace (tail : list ascii) (a b : Lexer) :
  sameUntilNUL tail a b ->
  exists a' b',
    skipWhitespace a = Some a' /\ skipWhitespace b = Some b' /\
    sameUntilNUL tail a' b' /\ input a' = input a /\
    List.length (remaining a') <= List.length (remaining a).
Proof.
  intros H. unfold skipWhitespace.
  apply (sameUntilNUL_readCharWhile tail isWhitespace isWhitespace_NUL);
    auto using remaining_le_scanFuel.
Qed.

Lemma sameUntilNUL_atComment (tail : list ascii) (a b : Lexer) :
  sameUntilNUL tail a b -> atComment b = atComment a.
Proof.
  intros H. pose proof (sameUntilNUL_remaining tail a b H) as R.
  pose proof (sameUntilNUL_ch tail a b H) as C.
  destruct H as (Wa & Wb & _). unfold atComment.
  rewrite !peekChar_remaining, R, C by assumption.
  destruct Wa as [_ Ca].
  destruct (remaining a) as [|x [|y r]]; simpl in *; try reflexivity.
  rewrite Ca. reflexivity.
Qed.

Lemma sameUntilNUL_skipComment (tail : list ascii) (a b : Lexer) :
  sameUntilNUL tail a b ->
  exists a' b',
    skipComment a = Some a' /\ skipComment b = Some b' /\
    sameUntilNUL tail a' b' /\ input a' = input a /\
    List.length (remaining a') <= List.length (remaining a) /\
    (atComment a = true ->
     List.length (remaining a') < List.length (remaining a)).
Proof.
  intros H. unfold skipComment.
  rewrite (sameUntilNUL_atComment tail a b H).
  destruct (atComment a) eqn:E.
  - destruct (sameUntilNUL_readCharWhile tail inComment inComment_NUL
                (scanFuel a) a b (scanFuel b) H
                (remaining_le_scanFuel a) (remaining_le_scanFuel b))
      as (a' & b' & A & B & S' & I' & L').
    exists a', b'. refine (conj A (conj B (conj S' (conj I' (conj L' _))))).
    intros _. pose proof H as (Wa & _).
    destruct (skipComment_spec a Wa) as (a2 & K1 & _ & _ & _ & K5).
    unfold skipComment in K1. rewrite E, A in K1. injection K1 as <-.
    now apply K5.
  - exists a, b. repeat split; auto; try apply H. discriminate.
Qed.

Lemma sameUntilNUL_skipComments (tail : list ascii) :
  forall fa a b fb,
    sameUntilNUL tail a b ->
    List.length (remaining a) <= fa -> List.length (remaining b) <= fb ->
    exists a' b',
      skipComments fa a = Some a' /\ skipComments fb b = Some b' /\
      sameUntilNUL tail a' b' /\ input a' = input a /\
      atComment a' = false /\
      List.length (remaining a') <= List.length (remaining a).
Proof.
  induction fa as [|fa IH]; intros a b fb H La Lb.
  - assert (atComment a = false) as Hac.
    { destruct (atComment a) eqn:Hac; [|reflexivity].
      destruct H as (Wa & _).
      destruct (atComment_remaining a Wa Hac) as [r Hr].
      rewrite Hr in La. simpl in La. lia. }
    assert (atComment b = false) as Hbc
      by now rewrite (sameUntilNUL_atComment tail a b H).
    exists a, b. rewrite !skipComments_id by assumption. auto 10.
  - destruct (atComment a) eqn:Hac.
    + pose proof (sameUntilNUL_length tail a b H) as Len.
      destruct (sameUntilNUL_skipComment tail a b H)
        as (a1 & b1 & A1 & B1 & S1 & I1 & L1 & D1).
      specialize (D1 Hac).
      destruct (sameUntilNUL_skipWhitespace tail a1 b1 S1)
        as (a2 & b2 & A2 & B2 & S2 & I2 & L2).
      pose proof (sameUntilNUL_length tail a2 b2 S2) as Len2.
      destruct fb as [|fb]; [lia|].
      destruct (IH a2 b2 fb S2) as (a' & b' & A & B & S' & I' & C' & L');
        [lia|lia|].
      exists a', b'. simpl.
      rewrite (sameUntilNUL_atComment tail a b H), Hac, A1, B1.
      cbn [obind]. rewrite A2, B2. cbn [obind].
      refine (conj A (conj B (conj S' (conj _ (conj C' _))))).
      * congruence.
      * lia.
    + assert (atComment b = false) as Hbc
        by now rewrite (sameUntilNUL_atComment tail a b H).
      exists a, b. rewrite !skipComments_id by assumption. auto 10.
Qed.
Lemma sameUntilNUL_peekChar (tail : list ascii) (a b : Lexer) :
  sameUntilNUL tail a b -> ch a <> NUL -> peekChar b = peekChar a.
Proof.
  intros H Hn. pose proof (sameUntilNUL_remaining tail a b H) as R.
  destruct H as (Wa & Wb & _).
  rewrite !peekChar_remaining, R by assumption.
  destruct Wa as [_ Ca].
  destruct (remaining a) as [|x [|y r]]; [|reflexivity|reflexivity].
  simpl in Ca. contradiction.
Qed.

Lemma readChar_ch_peekChar (l : Lexer) : wf l -> ch (readChar l) = peekChar l.
Proof.
  intros Hwf. pose proof (readChar_wf l) as [_ C].
  now rewrite C, readChar_remaining, peekChar_remaining.
Qed.

Lemma charToken_sameUntilNUL (tail : list ascii) (t : TokenType)
  (a b : Lexer) :
  sameUntilNUL tail a b -> charToken t b = charToken t a.
Proof.
  intros H. pose proof (sameUntilNUL_ch tail a b H) as C.
  destruct H as (_ & _ & _ & _ & _ & Ln & Lp).
  unfold charToken. now rewrite C, Ln, Lp.
Qed.

Lemma slice_app_l (x y : list ascii) (p q : nat) :
  q <= List.length x -> slice (x ++ y) p q = slice x p q.
Proof.
  intros H. unfold slice. f_equal. rewrite skipn_app, firstn_app.
  rewrite length_skipn.
  replace (q - p - (List.length x - p)) with 0 by lia.
  simpl. now rewrite app_nil_r.
Qed.

Lemma sameUntilNUL_switchToken (tail : list ascii)
  (ra rb : Lexer -> option (Token * Lexer)) (a b : Lexer) :
  sameUntilNUL tail a b -> atComment a = false ->
  exists tok a' b',
    switchToken ra a = Some (tok, a') /\
    switchToken rb b = Some (tok, b') /\
    (Type_ tok <> EOF -> sameUntilNUL tail a' b').
Proof.
  intros H Hac.
  pose proof (sameUntilNUL_ch tail a b H) as C.
  pose proof (sameUntilNUL_atComment tail a b H) as Hbc. rewrite Hac in Hbc.
  pose proof H as (Wa & Wb & I & P & L & Ln & Lp).
  assert (Hsingle : forall t,
             ch a <> NUL ->
             exists tok a' b',
               Some (charToken t a, readChar a) = Some (tok, a') /\
               Some (charToken t b, readChar b) = Some (tok, b') /\
               (Type_ tok <> EOF -> sameUntilNUL tail a' b')).
  { intros t Hn. exists (charToken t a), (readChar a), (readChar b).
    rewrite (charToken_sameUntilNUL tail t a b H).
    split; [reflexivity|]. split; [reflexivity|].
    intros _. now apply sameUntilNUL_readChar. }
  unfold switchToken. rewrite C.
  case_ch a. { apply Hsingle. rewrite E. discriminate. }
  case_ch a. { apply Hsingle. rewrite E0. discriminate. }
  case_ch a. { apply Hsingle. rewrite E1. discriminate. }
  case_ch a. { apply Hsingle. rewrite E2. discriminate. }
  case_ch a. { apply Hsingle. rewrite E3. discriminate. }
  case_ch a. { apply Hsingle. rewrite E4. discriminate. }
  case_ch a. { apply Hsingle. rewrite E5. discriminate. }
  case_ch a.
  { unfold atComment in Hac, Hbc. rewrite C in Hbc. rewrite E6 in Hac, Hbc.
    simpl in Hac, Hbc. rewrite Hac, Hbc.
    apply Hsingle. rewrite E6. discriminate. }
  case_ch a. { apply Hsingle. rewrite E7. discriminate. }
  case_ch a.
  { assert (ch a <> NUL) as Hn by (rewrite E8; discriminate).
    rewrite (sameUntilNUL_peekChar tail a b H Hn).
    destruct (Ascii.eqb (peekChar a) ">") eqn:Ep.
    - apply Ascii.eqb_eq in Ep.
      pose proof (sameUntilNUL_readChar tail a b H Hn) as H1.
      pose proof (sameUntilNUL_ch tail _ _ H1) as C1.
      pose proof H1 as (_ & _ & _ & _ & _ & Ln1 & Lp1).
      eexists _, _, _. split; [reflexivity|].
      split; [rewrite C1, Ln1, Lp1; reflexivity|].
      intros _. apply sameUntilNUL_readChar; [exact H1|].
      rewrite readChar_ch_peekChar, Ep by assumption. discriminate.
    - apply Hsingle. exact Hn. }
  case_ch a.
  { eexists _, _, _. split; [reflexivity|].
    split; [rewrite Ln, Lp; reflexivity|].
    intros K. exfalso. apply K. reflexivity. }
  destruct (isLetter (ch a)) eqn:El.
  - unfold readIdentifier.
    destruct (sameUntilNUL_readCharWhile tail isIdentChar isIdentChar_NUL
                (scanFuel a) a b (scanFuel b) H
                (remaining_le_scanFuel a) (remaining_le_scanFuel b))
      as (a' & b' & A & B & S' & I' & L').
    rewrite A, B. cbn [obind].
    pose proof S' as (_ & _ & _ & P' & Lpos & Ln' & Lp').
    assert (slice (input b) (position b) (position b')
            = slice (input a) (position a) (position a')) as ->.
    { rewrite I, P, P'. apply slice_app_l. now rewrite <- I'. }
    eexists _, _, _. split; [reflexivity|].
    split; [rewrite Ln', Lp'; reflexivity|].
    intros _. exact S'.
  - apply Hsingle. intros K. rewrite K in E9. discriminate.
Qed.

Lemma sameUntilNUL_NextToken (tail : list ascii) (a b : Lexer) :
  sameUntilNUL tail a b ->
  exists tok a' b',
    NextToken a = Some (tok, a') /\ NextToken b = Some (tok, b') /\
    (Type_ tok <> EOF ->
     sameUntilNUL tail a' b' /\
     List.length (remaining a') < List.length (remaining a)).
Proof.
  intros H.
  destruct (sameUntilNUL_skipWhitespace tail a b H)
    as (a0 & b0 & A0 & B0 & S0 & I0 & L0).
  destruct (sameUntilNUL_skipComments tail (scanFuel a0) a0 b0 (scanFuel b0)
              S0 (remaining_le_scanFuel a0) (remaining_le_scanFuel b0))
    as (a1 & b1 & A1 & B1 & S1 & I1 & C1 & L1).
  destruct (sameUntilNUL_switchToken tail
              (match scanFuel a with
               | 0 => fun _ : Lexer => None
               | S fuel' => NextToken_fuel fuel'
               end)
              (match scanFuel b with
               | 0 => fun _ : Lexer => None
               | S fuel' => NextToken_fuel fuel'
               end) a1 b1 S1 C1) as (tok & a' & b' & A & B & S').
  exists tok, a', b'. unfold NextToken.
  rewrite !NextToken_fuel_eq, A0, B0. cbn [obind]. rewrite A1, B1.
  cbn [obind]. split; [exact A|]. split; [exact B|].
  intros Hne. split; [now apply S'|].
  pose proof H as (Wa & _).
  destruct (NextToken_fuel_spec (scanFuel a) a Wa)
    as (x0 & x1 & tok' & x' & _ & _ & N & _ & _ & _ & D & _).
  rewrite NextToken_fuel_eq, A0 in N. cbn [obind] in N. rewrite A1 in N.
  cbn [obind] in N. rewrite A in N. injection N as <- <-. now apply D.
Qed.

Lemma sameUntilNUL_TokenizeAll_fuel (tail : list ascii) :
  forall fa a b fb acc,
    sameUntilNUL tail a b ->
    List.length (remaining a) < fa -> List.length (remaining b) < fb ->
    TokenizeAll_fuel fb b acc = TokenizeAll_fuel fa a acc.
Proof.
  induction fa as [|fa IH]; intros a b fb acc H La Lb; [lia|].
  destruct fb as [|fb]; [lia|].
  destruct (sameUntilNUL_NextToken tail a b H) as (tok & a' & b' & A & B & S').
  simpl. rewrite A, B. cbn [obind].
  destruct (TokenType_eqb (Type_ tok) EOF) eqn:E; [reflexivity|].
  apply TokenType_eqb_neq in E. destruct (S' E) as [S1 D].
  pose proof (sameUntilNUL_length tail a b H).
  pose proof (sameUntilNUL_length tail a' b' S1).
  apply IH; auto; lia.
Qed.

Lemma sameUntilNUL_NewLexer (s1 s2 : string) :
  sameUntilNUL (chars s2) (NewLexer s1) (NewLexer (s1 ++ String NUL s2)).
Proof.
  assert (chars (s1 ++ String NUL s2) = chars s1 ++ NUL :: chars s2) as E
    by apply chars_app.
  assert (ch (NewLexer (s1 ++ String NUL s2)) = ch (NewLexer s1)) as C.
  { pose proof (NewLexer_wf s1) as [_ C1].
    pose proof (NewLexer_wf (s1 ++ String NUL s2)) as [_ C2].
    rewrite C1, C2, !NewLexer_remaining. fold (chars (s1 ++ String NUL s2)).
    rewrite E. fold (chars s1). now destruct (chars s1). }
  refine (conj (NewLexer_wf _) (conj (NewLexer_wf _) (conj _ (conj eq_refl
            (conj (Nat.le_0_l _) (conj _ _)))))).
  - rewrite !NewLexer_input. exact E.
  - rewrite !NewLexer_line, C. reflexivity.
  - rewrite !NewLexer_linePosition, C. reflexivity.
Qed.

(** X17: the lexer reads nothing after the first NUL byte of its input:
    the tokens of a text followed by a NUL byte and anything at all are
    the tokens of the text alone, and so is the result of the parse. *)
Theorem nothing_is_read_after_a_NUL_byte :
  forall s1 s2 : string,
    TokenizeAll (NewLexer (s1 ++ String NUL s2)) = TokenizeAll (NewLexer s1)
    /\ parseDocument (s1 ++ String NUL s2) = parseDocument s1.
Proof.
  intros s1 s2.
  assert (TokenizeAll (NewLexer (s1 ++ String NUL s2))
          = TokenizeAll (NewLexer s1)) as E.
  { unfold TokenizeAll.
    apply (sameUntilNUL_TokenizeAll_fuel (chars s2));
      [apply sameUntilNUL_NewLexer| |].
    - pose proof (remaining_le_scanFuel (NewLexer s1)). lia.
    - pose proof (remaining_le_scanFuel (NewLexer (s1 ++ String NUL s2))).
      lia. }
  split; [exact E|]. unfold parseDocument. now rewrite E.
Qed.

(* ================================================================== *)
(** * The text, the line and the column of a token *)
(* ================================================================== *)

Lemma firstn_S_nth {A : Type} (d : A) (i : nat) (x : list A) :
  i < List.length x -> firstn (S i) x = firstn i x ++ [nth i x d].
Proof.
  revert i. induction x as [|a x IH]; intros i H; simpl in H; [lia|].
  destruct i as [|i]; [reflexivity|].
  rewrite !firstn_cons. cbn [nth]. rewrite (IH i) by lia. reflexivity.
Qed.

Lemma count_occ_LF (c : ascii) :
  count_occ ascii_dec [c] LF = if Ascii.eqb c LF then 1 else 0.
Proof.
  simpl. destruct (ascii_dec c LF) as [->|N].
  - reflexivity.
  - destruct (Ascii.eqb_spec c LF); [contradiction|reflexivity].
Qed.

Lemma lineOfOffset_S (s : string) (i : nat) :
  i < List.length (chars s) ->
  lineOfOffset s (S i)
  = (lineOfOffset s i
     + (if Ascii.eqb (nth i (chars s) NUL) LF then 1 else 0))%Z.
Proof.
  intros H. unfold lineOfOffset. fold (chars s).
  rewrite (firstn_S_nth NUL i (chars s) H), count_occ_app, count_occ_LF.
  destruct (Ascii.eqb (nth i (chars s) NUL) LF); lia.
Qed.

Lemma columnAfter_app (a b : list ascii) (col : Z) :
  columnAfter (a ++ b) col = columnAfter b (columnAfter a col).
Proof.
  revert col. induction a as [|c a IH]; intros col; simpl; [reflexivity|].
  apply IH.
Qed.

Lemma columnOfOffset_S (s : string) (i : nat) :
  i < List.length (chars s) ->
  columnOfOffset s (S i)
  = (if Ascii.eqb (nth i (chars s) NUL) LF then 1
     else columnOfOffset s i + 1)%Z.
Proof.
  intros H. unfold columnOfOffset. fold (chars s).
  rewrite (firstn_S_nth NUL i (chars s) H), columnAfter_app. reflexivity.
Qed.

Lemma wf_ch_nth (l : Lexer) :
  wf l -> ch l = nth (position l) (input l) NUL.
Proof. intros [_ C]. rewrite C. apply hd_skipn_nth. Qed.

Lemma wf_position_lt (l : Lexer) :
  wf l -> ch l <> NUL -> position l < List.length (input l).
Proof.
  intros Hwf Hn. pose proof (ch_nonNUL_remaining l Hwf Hn) as K.
  rewrite remaining_length in K.
  destruct (remaining l); simpl in K; lia.
Qed.

Lemma counted_readChar (s : string) (l : Lexer) :
  wf l -> counted s l -> counted s (readChar l).
Proof.
  intros Hwf [I K]. split; [now rewrite readChar_input|].
  rewrite readChar_position by assumption. intros Hle.
  destruct K as [Kl Kc]; [lia|].
  assert (position l < List.length (chars s)) as Hlt by lia.
  rewrite readChar_line, readChar_linePosition.
  rewrite (lineOfOffset_S s _ Hlt), (columnOfOffset_S s _ Hlt).
  rewrite <- I, <- (wf_ch_nth l Hwf), Kl, Kc.
  destruct (Ascii.eqb (ch (readChar l)) LF), (Ascii.eqb (ch l) LF);
    split; lia.
Qed.

Lemma counted_NewLexer (s : string) : counted s (NewLexer s).
Proof.
  split; [apply NewLexer_input|]. intros _.
  rewrite NewLexer_line, NewLexer_linePosition.
  change (position (NewLexer s)) with 0.
  change (lineOfOffset s 0) with 1%Z. change (columnOfOffset s 0) with 1%Z.
  destruct (Ascii.eqb (ch (NewLexer s)) LF); split; reflexivity.
Qed.

Lemma readCharWhile_counted (s : string) (cond : ascii -> bool) :
  forall fuel l l',
    wf l -> counted s l -> readCharWhile cond fuel l = Some l' ->
    wf l' /\ counted s l' /\ position l <= position l'.
Proof.
  induction fuel as [|fuel IH]; intros l l' Hwf Hc H; simpl in H.
  - destruct (cond (ch l)); [discriminate|]. injection H as <-. auto.
  - destruct (cond (ch l)); [|injection H as <-; auto].
    apply IH in H as (W & C & P);
      [|apply readChar_wf|now apply counted_readChar].
    rewrite readChar_position in P by assumption.
    split; [exact W|]. split; [exact C|]. lia.
Qed.

Lemma skipComment_counted (s : string) (l l' : Lexer) :
  wf l -> counted s l -> skipComment l = Some l' ->
  wf l' /\ counted s l' /\ position l <= position l'.
Proof.
  intros Hwf Hc. unfold skipComment.
  destruct (atComment l); [now apply readCharWhile_counted|].
  intros H. injection H as <-. auto.
Qed.

Lemma skipWhitespace_stops (l l' : Lexer) :
  wf l -> skipWhitespace l = Some l' -> isWhitespace (ch l') = false.
Proof.
  intros Hwf H.
  destruct (skipWhitespace_spec l Hwf) as (l0 & A1 & [_ C] & _ & A4).
  rewrite H in A1. injection A1 as <-. rewrite C, A4.
  apply dropWhile_hd. reflexivity.
Qed.

Lemma skipComments_counted (s : string) :
  forall fuel l l',
    wf l -> counted s l -> isWhitespace (ch l) = false ->
    skipComments fuel l = Some l' ->
    wf l' /\ counted s l' /\ position l <= position l' /\
    isWhitespace (ch l') = false /\ atComment l' = false.
Proof.
  induction fuel as [|fuel IH]; intros l l' Hwf Hc Hws H; simpl in H;
    destruct (atComment l) eqn:Hac; try discriminate.
  - injection H as <-. auto.
  - destruct (skipComment l) as [l1|] eqn:E1; [|discriminate].
    cbn [obind] in H.
    destruct (skipWhitespace l1) as [l2|] eqn:E2; [|discriminate].
    cbn [obind] in H.
    destruct (skipComment_counted s l l1 Hwf Hc E1) as (W1 & C1 & P1).
    destruct (readCharWhile_counted s isWhitespace _ l1 l2 W1 C1 E2)
      as (W2 & C2 & P2).
    pose proof (skipWhitespace_stops l1 l2 W1 E2) as S2.
    destruct (IH l2 l' W2 C2 S2 H) as (W & C & P & S' & A').
    repeat (split; [assumption|]). split; [lia|auto].
  - injection H as <-. auto.
Qed.

Lemma string_length_of_list (x : list ascii) :
  String.length (string_of_list_ascii x) = List.length x.
Proof. induction x as [|c x IH]; simpl; [reflexivity|now rewrite IH]. Qed.

Lemma takeWhile_length (cond : ascii -> bool) (x : list ascii) :
  List.length (takeWhile cond x) <= List.length x.
Proof.
  induction x as [|c x IH]; simpl; [lia|].
  destruct (cond c); simpl; lia.
Qed.

Lemma isWhitespace_LF (c : ascii) :
  isWhitespace c = false -> Ascii.eqb c LF = false.
Proof.
  intros H. destruct (Ascii.eqb_spec c LF) as [->|N]; [|reflexivity].
  discriminate.
Qed.
Lemma lookupIdent_isWord (lit : string) : isWord (lookupIdent lit) = true.
Proof.
  destruct (lookupIdent_cases lit) as [K|[K|[K|K]]]; rewrite K; reflexivity.
Qed.

Lemma lookupIdent_not_ILLEGAL (lit : string) : lookupIdent lit <> ILLEGAL.
Proof.
  destruct (lookupIdent_cases lit) as [K|[K|[K|K]]]; rewrite K; discriminate.
Qed.

(** Case analysis on the current byte in a hypothesis. *)
Ltac case_ch_in H l E :=
  match type of H with
  | context [Ascii.eqb (ch l) ?c] =>
      destruct (Ascii.eqb (ch l) c) eqn:E;
      [apply Ascii.eqb_eq in E|]
  end.

Lemma switchToken_placed (s : string)
  (recur : Lexer -> option (Token * Lexer)) (l l' : Lexer) (tok : Token) :
  wf l -> counted s l -> atComment l = false ->
  isWhitespace (ch l) = false ->
  switchToken recur l = Some (tok, l') -> Type_ tok <> EOF ->
  wf l' /\ counted s l' /\
  textAt s (position l) tok l' /\ recordedAt s (position l) tok l'.
Proof.
  intros Hwf Hc Hac Hws H Hne.
  pose proof Hc as [I K].
  pose proof (isWhitespace_LF _ Hws) as HLF.
  assert (Hsingle : forall t,
             ch l <> NUL -> isWord t = false ->
             (t <> ILLEGAL -> (N_of_ascii (ch l) <? 128)%N = true) ->
             wf (readChar l) /\ counted s (readChar l) /\
             textAt s (position l) (charToken t l) (readChar l) /\
             recordedAt s (position l) (charToken t l) (readChar l)).
  { intros t Hn Hw Hlow.
    pose proof (wf_position_lt l Hwf Hn) as Hlt. rewrite I in Hlt.
    destruct K as [Kl Kc]; [lia|]. rewrite HLF in Kl, Kc.
    split; [apply readChar_wf|]. split; [now apply counted_readChar|].
    assert (remaining l = ch l :: tl (remaining l)) as Hr.
    { destruct Hwf as [_ C]. rewrite C in Hn |- *.
      destruct (remaining l); [contradiction|reflexivity]. }
    split.
    - unfold textAt. rewrite readChar_position by assumption.
      assert (t <> ILLEGAL -> string_of_byte (ch l) = String (ch l) "")
        as Hlit.
      { intros Ht. unfold string_of_byte. now rewrite (Hlow Ht). }
      refine (conj Hlt (conj _ (conj _ (conj _ _)))).
      + unfold tokenWidth, charToken. cbn [Type_ Literal].
        destruct t; try (rewrite Hlit by discriminate); simpl; lia.
      + lia.
      + cbn [Type_ Literal charToken]. intros Ht. rewrite (Hlit Ht).
        unfold slice. replace (S (position l) - position l) with 1 by lia.
        rewrite <- I. fold (remaining l). rewrite Hr. reflexivity.
      + cbn [Type_ Literal charToken]. intros _.
        now rewrite <- I, <- (wf_ch_nth l Hwf).
    - unfold recordedAt. cbn [Type_ charToken]. rewrite Hw. cbn [andb].
      unfold charToken. cbn [Line Position]. split; lia. }
  unfold switchToken in H.
  case_ch_in H l E0.
  { injection H as <- <-. apply Hsingle; try reflexivity;
      rewrite E0; [discriminate|reflexivity]. }
  case_ch_in H l E1.
  { injection H as <- <-. apply Hsingle; try reflexivity;
      rewrite E1; [discriminate|reflexivity]. }
  case_ch_in H l E2.
  { injection H as <- <-. apply Hsingle; try reflexivity;
      rewrite E2; [discriminate|reflexivity]. }
  case_ch_in H l E3.
  { injection H as <- <-. apply Hsingle; try reflexivity;
      rewrite E3; [discriminate|reflexivity]. }
  case_ch_in H l E4.
  { injection H as <- <-. apply Hsingle; try reflexivity;
      rewrite E4; [discriminate|reflexivity]. }
  case_ch_in H l E5.
  { injection H as <- <-. apply Hsingle; try reflexivity;
      rewrite E5; [discriminate|reflexivity]. }
  case_ch_in H l E6.
  { injection H as <- <-. apply Hsingle; try reflexivity;
      rewrite E6; [discriminate|reflexivity]. }
  case_ch_in H l E7.
  { unfold atComment in Hac. rewrite E7 in Hac. simpl in Hac.
    rewrite Hac in H.
    injection H as <- <-. apply Hsingle; try reflexivity;
      rewrite E7; [discriminate|reflexivity]. }
  case_ch_in H l E8.
  { injection H as <- <-. apply Hsingle; try reflexivity;
      rewrite E8; [discriminate|reflexivity]. }
  case_ch_in H l E9.
  { destruct (Ascii.eqb (peekChar l) ">") eqn:Ep.
    - apply Ascii.eqb_eq in Ep. cbv zeta in H.
      remember (readChar l) as l1 eqn:EQ1 in H.
      remember (readChar l1) as l2 eqn:EQ2 in H.
      injection H as <- <-. subst l2 l1.
      assert (ch l <> NUL) as Hn by (rewrite E9; discriminate).
      pose proof (wf_position_lt l Hwf Hn) as Hlt. rewrite I in Hlt.
      destruct K as [Kl Kc]; [lia|]. rewrite HLF in Kl, Kc.
      pose proof (readChar_wf l) as W1.
      pose proof (counted_readChar s l Hwf Hc) as C1.
      assert (ch (readChar l) = ">"%char) as Hc1
        by now rewrite readChar_ch_peekChar.
      assert (ch (readChar l) <> NUL) as Hn1 by (rewrite Hc1; discriminate).
      pose proof (wf_position_lt _ W1 Hn1) as Hlt1.
      rewrite readChar_input, I, readChar_position in Hlt1 by assumption.
      assert (remaining l = "-"%char :: ">"%char
                              :: tl (tl (remaining l))) as Hr.
      { pose proof Hwf as [_ C]. rewrite C in E9.
        pose proof W1 as [_ C']. rewrite Hc1 in C'.
        rewrite readChar_remaining in C' by assumption.
        destruct (remaining l) as [|x [|y r]]; simpl in *; try discriminate.
        now rewrite E9, <- C'. }
      split; [apply readChar_wf|].
      split; [now apply counted_readChar|].
      split.
      + unfold textAt. rewrite !readChar_position by assumption.
        unfold tokenWidth. cbn [Type_ Literal]. rewrite E9, Hc1.
        refine (conj Hlt (conj _ (conj _ (conj _ _)))).
        * simpl. lia.
        * lia.
        * intros _. unfold slice.
          replace (S (S (position l)) - position l) with 2 by lia.
          rewrite <- I. fold (remaining l). rewrite Hr. reflexivity.
        * discriminate.
      + unfold recordedAt. cbn [Type_ isWord andb Line Position].
        destruct C1 as [_ K1].
        rewrite readChar_position in K1 by assumption.
        destruct K1 as [K1l K1c]; [lia|].
        rewrite Hc1 in K1l, K1c.
        change (Ascii.eqb ">" LF) with false in K1l, K1c.
        rewrite (lineOfOffset_S s _ Hlt) in K1l.
        rewrite (columnOfOffset_S s _ Hlt) in K1c.
        rewrite <- I, <- (wf_ch_nth l Hwf), E9 in K1l, K1c.
        change (Ascii.eqb "-" LF) with false in K1l, K1c.
        cbv iota in K1l, K1c. split; lia.
    - injection H as <- <-. apply Hsingle; try reflexivity;
        rewrite E9; [discriminate|reflexivity]. }
  case_ch_in H l E10.
  { injection H as <- _. exfalso. apply Hne. reflexivity. }
  destruct (isLetter (ch l)) eqn:El.
  - assert (ch l <> NUL) as Hn by (intros N; rewrite N in El; discriminate).
    pose proof (wf_position_lt l Hwf Hn) as Hlt. rewrite I in Hlt.
    destruct K as [Kl Kc]; [lia|]. rewrite HLF in Kl, Kc.
    assert (isIdentChar (ch l) = true) as Hic
      by (unfold isIdentChar; now rewrite El).
    destruct (readCharWhile_spec isIdentChar isIdentChar_NUL (scanFuel l) l
                Hwf (remaining_le_scanFuel l))
      as (l2 & A1 & A2 & A3 & A4 & A5).
    destruct (readIdentifier_spec l Hwf) as (l3 & R1 & _).
    pose proof R1 as R1'. unfold readIdentifier in R1'.
    rewrite A1 in R1'. cbn [obind] in R1'. injection R1' as Hslice <-.
    rewrite R1 in H. cbn [obind] in H. injection H as <- <-.
    set (lit := string_of_list_ascii (takeWhile isIdentChar (remaining l)))
      in *.
    assert (String.length lit = List.length (takeWhile isIdentChar (remaining l)))
      as Hlen by apply string_length_of_list.
    destruct (readCharWhile_counted s isIdentChar _ l l2 Hwf Hc A1)
      as (W2 & C2 & _).
    destruct (readCharWhile_lines isIdentChar isIdentChar_NUL eq_refl
                (scanFuel l) l l2 Hwf Hic A1) as [L P].
    pose proof (takeWhile_length isIdentChar (remaining l)) as Htl.
    rewrite remaining_length, I in Htl.
    split; [exact W2|]. split; [exact C2|]. split.
    + unfold textAt, tokenWidth. cbn [Type_ Literal].
      refine (conj Hlt (conj _ (conj _ (conj _ _)))).
      * pose proof (lookupIdent_not_ILLEGAL lit).
        destruct (lookupIdent lit); try contradiction; lia.
      * lia.
      * intros _. rewrite <- I. exact Hslice.
      * intros Hill. now apply lookupIdent_not_ILLEGAL in Hill.
    + unfold recordedAt. cbn [Type_ Literal Line Position].
      rewrite lookupIdent_isWord. cbn [andb].
      rewrite <- I, <- A3, <- (wf_ch_nth l2 W2).
      rewrite L, P, Hlen.
      destruct (Ascii.eqb (ch l2) LF); split; lia.
  - injection H as <- <-. apply Hsingle; try reflexivity.
    + intros N. rewrite N in E10. discriminate.
    + intros N. contradiction.
Qed.
Lemma NextToken_placed (s : string) (l l' : Lexer) (tok : Token) :
  wf l -> counted s l ->
  NextToken l = Some (tok, l') -> Type_ tok <> EOF ->
  wf l' /\ counted s l' /\
  exists start,
    position l <= start /\ textAt s start tok l' /\
    recordedAt s start tok l'.
Proof.
  intros Hwf Hc H Hne. unfold NextToken in H.
  rewrite NextToken_fuel_eq in H.
  destruct (skipWhitespace l) as [l0|] eqn:E0; [|discriminate].
  cbn [obind] in H.
  destruct (skipComments (scanFuel l0) l0) as [l1|] eqn:E1; [|discriminate].
  cbn [obind] in H.
  destruct (readCharWhile_counted s isWhitespace _ l l0 Hwf Hc E0)
    as (W0 & C0 & P0).
  pose proof (skipWhitespace_stops l l0 Hwf E0) as S0.
  destruct (skipComments_counted s _ l0 l1 W0 C0 S0 E1)
    as (W1 & C1 & P1 & S1 & A1).
  destruct (switchToken_placed s _ l1 l' tok W1 C1 A1 S1 H Hne)
    as (W & C & T & R).
  split; [exact W|]. split; [exact C|].
  exists (position l1). split; [lia|]. split; assumption.
Qed.

Lemma lexes_counted (s : string) (l l' : Lexer) (ts : list Token) :
  lexes l ts l' -> wf l -> counted s l -> wf l' /\ counted s l'.
Proof.
  induction 1 as [l|l t l1 ts l' N Hne _ IH]; intros Hwf Hc; [auto|].
  destruct (NextToken_placed s l l1 t Hwf Hc N Hne) as (W & C & _).
  now apply IH.
Qed.

Lemma NextToken_after_tokens (s : string) (ts : list Token) (l l' : Lexer)
  (tok : Token) :
  lexes (NewLexer s) ts l ->
  NextToken l = Some (tok, l') -> Type_ tok <> EOF ->
  position l <= position l' - tokenWidth tok /\
  textAt s (position l' - tokenWidth tok) tok l' /\
  recordedAt s (position l' - tokenWidth tok) tok l'.
Proof.
  intros Hl N Hne.
  destruct (lexes_counted s _ _ _ Hl (NewLexer_wf s) (counted_NewLexer s))
    as [Hwf Hc].
  destruct (NextToken_placed s l l' tok Hwf Hc N Hne)
    as (_ & _ & start & P & T & R).
  pose proof T as (_ & E & _).
  replace (position l' - tokenWidth tok) with start by lia. auto.
Qed.

(** X18: each token other than the end of input stands for a stretch
    of the input that starts at or after the place where the lexer stood
    before and ends where the lexer stands after: tokens come in the
    order of the input and do not overlap.  The literal of the token is
    the text of that stretch; for an [ILLEGAL] token the stretch is one
    byte and the literal is made from that byte. *)
Theorem token_text_is_the_input_text :
  forall (s : string) (ts : list Token) (l l' : Lexer) (tok : Token),
    lexes (NewLexer s) ts l ->
    NextToken l = Some (tok, l') -> Type_ tok <> EOF ->
    position l <= position l' - tokenWidth tok /\
    textAt s (position l' - tokenWidth tok) tok l'.
Proof.
  intros s ts l l' tok Hl N Hne.
  destruct (NextToken_after_tokens s ts l l' tok Hl N Hne) as (P & T & _).
  auto.
Qed.

(** X18 at the first token of [doc {]. *)
Lemma token_text_is_the_input_text_witness :
  let tok := {| Type_ := IDENTIFIER; Literal := "doc"; Line := 1;
                Position := 1 |} in
  let l' := {| input := chars "doc {"; position := 3; readPosition := 4;
               ch := " "%char; line := 1; linePosition := 4 |} in
  NextToken (NewLexer "doc {") = Some (tok, l') /\
  textAt "doc {" 0 tok l'.
Proof.
  intros tok l'.
  assert (NextToken (NewLexer "doc {") = Some (tok, l')) as N
    by (vm_compute; reflexivity).
  split; [exact N|].
  apply (token_text_is_the_input_text "doc {" [] (NewLexer "doc {") l' tok
           (lexes_nil _) N).
  discriminate.
Defined.

(** X19: each token other than the end of input records the line and
    the column of its first byte, columns counted from 1 on each line,
    with one exception: an identifier or keyword directly followed by a
    newline records the line after its own and, as position, the
    negated length of its literal. *)
Theorem token_records_its_start_unless_newline_follows_word :
  forall (s : string) (ts : list Token) (l l' : Lexer) (tok : Token),
    lexes (NewLexer s) ts l ->
    NextToken l = Some (tok, l') -> Type_ tok <> EOF ->
    recordedAt s (position l' - tokenWidth tok) tok l'.
Proof.
  intros s ts l l' tok Hl N Hne.
  destruct (NextToken_after_tokens s ts l l' tok Hl N Hne) as (_ & _ & R).
  exact R.
Qed.

(** X19 at the second token of [a = b]. *)
Lemma token_records_its_start_unless_newline_follows_word_witness :
  let tok := {| Type_ := EQUAL; Literal := "="; Line := 1; Position := 3 |} in
  exists l l',
    NextToken l = Some (tok, l') /\
    Line tok = lineOfOffset "a = b" 2 /\
    Position tok = columnOfOffset "a = b" 2.
Proof.
  intros tok.
  set (first := {| Type_ := IDENTIFIER; Literal := "a"; Line := 1;
                   Position := 1 |}).
  set (l := {| input := chars "a = b"; position := 1; readPosition := 2;
               ch := " "%char; line := 1; linePosition := 2 |}).
  set (l' := {| input := chars "a = b"; position := 3; readPosition := 4;
                ch := " "%char; line := 1; linePosition := 4 |}).
  assert (NextToken (NewLexer "a = b") = Some (first, l)) as N0
    by (vm_compute; reflexivity).
  assert (NextToken l = Some (tok, l')) as N by (vm_compute; reflexivity).
  exists l, l'. split; [exact N|].
  apply (token_records_its_start_unless_newline_follows_word
           "a = b" [first] l l' tok).
  - apply lexes_one; [exact N0|discriminate].
  - exact N.
  - discriminate.
Defined.

(* ================================================================== *)
(** * What the lexer skips between two tokens *)
(* ================================================================== *)

Lemma blank_whitespace (ws r : list ascii) :
  Forall (fun c => isWhitespace c = true) ws -> blank r -> blank (ws ++ r).
Proof.
  induction 1 as [|c ws Hc _ IH]; intros Hr; simpl; [exact Hr|].
  constructor; auto.
Qed.

Lemma skipWhitespace_skipped (l l0 : Lexer) :
  wf l -> skipWhitespace l = Some l0 ->
  exists ws,
    remaining l = ws ++ remaining l0 /\
    Forall (fun c => isWhitespace c = true) ws.
Proof.
  intros Hwf H.
  destruct (skipWhitespace_spec l Hwf) as (l' & A1 & _ & _ & A4).
  rewrite H in A1. injection A1 as <-.
  exists (takeWhile isWhitespace (remaining l)).
  split; [|apply takeWhile_Forall].
  now rewrite A4, takeWhile_dropWhile.
Qed.

Lemma hd_prefix (x y : list ascii) :
  inComment (hd NUL (x ++ y)) = false -> inComment (hd NUL x) = false.
Proof. destruct x; [reflexivity|auto]. Qed.

Lemma skipComments_skipped :
  forall fuel l l1,
    wf l -> skipComments fuel l = Some l1 ->
    exists seg, remaining l = seg ++ remaining l1 /\ blank seg.
Proof.
  induction fuel as [|fuel IH]; intros l l1 Hwf H; simpl in H;
    destruct (atComment l) eqn:Hac; try discriminate.
  - injection H as <-. exists []. split; [reflexivity|constructor].
  - destruct (atComment_remaining l Hwf Hac) as [x Hx].
    unfold skipComment in H. rewrite Hac in H.
    destruct (readCharWhile_spec inComment inComment_NUL (scanFuel l) l
                Hwf (remaining_le_scanFuel l)) as (l2 & A1 & A2 & A3 & A4 & _).
    rewrite A1 in H. cbn [obind] in H.
    destruct (skipWhitespace l2) as [l3|] eqn:E3; [|discriminate].
    cbn [obind] in H.
    destruct (skipWhitespace_skipped l2 l3 A2 E3) as (ws & Hws & Fws).
    destruct (skipWhitespace_spec l2 A2) as (l3' & B1 & B2 & _).
    rewrite E3 in B1. injection B1 as <-.
    destruct (IH l3 l1 B2 H) as (seg & Hseg & Bseg).
    exists ("/"%char :: "/"%char :: takeWhile inComment x ++ ws ++ seg).
    split.
    + rewrite Hx in A4 |- *.
      change (dropWhile inComment ("/"%char :: "/"%char :: x))
        with (dropWhile inComment x) in A4.
      cbn [app].
      now rewrite <- !app_assoc, <- Hseg, <- Hws, A4, takeWhile_dropWhile.
    + apply (blank_comment (takeWhile inComment x) (ws ++ seg)).
      * apply takeWhile_Forall.
      * apply hd_prefix with (y := remaining l1).
        rewrite <- app_assoc, <- Hseg, <- Hws, A4.
        apply dropWhile_hd. reflexivity.
      * now apply blank_whitespace.
  - injection H as <-. exists []. split; [reflexivity|constructor].
Qed.

Lemma NextToken_skips (s : string) (l l' : Lexer) (tok : Token) :
  wf l -> counted s l ->
  NextToken l = Some (tok, l') -> Type_ tok <> EOF ->
  exists l1 seg,
    remaining l = seg ++ remaining l1 /\ blank seg /\
    input l1 = chars s /\ textAt s (position l1) tok l'.
Proof.
  intros Hwf Hc H Hne. unfold NextToken in H.
  rewrite NextToken_fuel_eq in H.
  destruct (skipWhitespace l) as [l0|] eqn:E0; [|discriminate].
  cbn [obind] in H.
  destruct (skipComments (scanFuel l0) l0) as [l1|] eqn:E1; [|discriminate].
  cbn [obind] in H.
  destruct (readCharWhile_counted s isWhitespace _ l l0 Hwf Hc E0)
    as (W0 & C0 & P0).
  pose proof (skipWhitespace_stops l l0 Hwf E0) as S0.
  destruct (skipComments_counted s _ l0 l1 W0 C0 S0 E1)
    as (W1 & C1 & P1 & S1 & A1).
  destruct (switchToken_placed s _ l1 l' tok W1 C1 A1 S1 H Hne)
    as (_ & _ & T & _).
  destruct (skipWhitespace_skipped l l0 Hwf E0) as (ws & Hws & Fws).
  destruct (skipComments_skipped _ l0 l1 W0 E1) as (seg & Hseg & Bseg).
  exists l1, (ws ++ seg).
  split; [now rewrite <- app_assoc, <- Hseg|].
  split; [now apply blank_whitespace|].
  split; [exact (proj1 C1)|exact T].
Qed.

(** X20: what the lexer passes over before a token is white space and
    comments only: the bytes between the place where the lexer stood and
    the first byte of the token it returns form a text of white space
    and of comments that each run to the end of their line. *)
Theorem only_blank_text_is_skipped :
  forall (s : string) (ts : list Token) (l l' : Lexer) (tok : Token),
    lexes (NewLexer s) ts l ->
    NextToken l = Some (tok, l') -> Type_ tok <> EOF ->
    blank (chars (slice (chars s) (position l)
                    (position l' - tokenWidth tok))).
Proof.
  intros s ts l l' tok Hl N Hne.
  destruct (lexes_counted s _ _ _ Hl (NewLexer_wf s) (counted_NewLexer s))
    as [Hwf Hc].
  destruct (NextToken_skips s l l' tok Hwf Hc N Hne)
    as (l1 & seg & Hseg & Bseg & I1 & (T1 & T2 & _)).
  replace (position l' - tokenWidth tok) with (position l1) by lia.
  pose proof (f_equal (@List.length ascii) Hseg) as Hlen.
  rewrite length_app, !remaining_length, I1, (proj1 Hc) in Hlen.
  unfold slice, chars at 1.
  rewrite list_ascii_of_string_of_list_ascii.
  change (skipn (position l) (chars s))
    with (skipn (position l) (chars s)).
  rewrite <- (proj1 Hc). fold (remaining l). rewrite Hseg.
  replace (position l1 - position l) with (List.length seg + 0) by lia.
  rewrite firstn_app_2. simpl. now rewrite app_nil_r.
Qed.

(** X20 between the two tokens of [a // c], a newline and [b]. *)
Lemma only_blank_text_is_skipped_witness :
  let s := ("a // c" ++ String LF "b")%string in
  let tok := {| Type_ := IDENTIFIER; Literal := "b"; Line := 2;
                Position := 1 |} in
  exists l l',
    NextToken l = Some (tok, l') /\
    blank [" "; "/"; "/"; " "; "c"; LF]%char.
Proof.
  intros s tok.
  set (first := {| Type_ := IDENTIFIER; Literal := "a"; Line := 1;
                   Position := 1 |}).
  set (l := {| input := chars s; position := 1; readPosition := 2;
               ch := " "%char; line := 1; linePosition := 2 |}).
  set (l' := {| input := chars s; position := 8; readPosition := 9;
                ch := NUL; line := 2; linePosition := 2 |}).
  assert (NextToken (NewLexer s) = Some (first, l)) as N0
    by (vm_compute; reflexivity).
  assert (NextToken l = Some (tok, l')) as N by (vm_compute; reflexivity).
  exists l, l'. split; [exact N|].
  apply (only_blank_text_is_skipped s [first] l l' tok).
  - apply lexes_one; [exact N0|discriminate].
  - exact N.
  - discriminate.
Defined.

(* ================================================================== *)
(** * The text of a relation expression, read again *)
(* ================================================================== *)

Lemma NextToken_slash (l : Lexer) (rst : list ascii) :
  wf l -> remaining l = "/"%char :: rst -> isLetter (hd NUL rst) = true ->
  exists tok l',
    NextToken l = Some (tok, l') /\ Type_ tok = SLASH /\
    wf l' /\ input l' = input l /\ remaining l' = rst.
Proof.
  intros Hwf Hr Hn.
  destruct (skipWhitespace_spec l Hwf) as (l0 & A1 & A2 & A3 & A4).
  rewrite Hr in A4. change (dropWhile isWhitespace ("/"%char :: rst))
    with ("/"%char :: rst) in A4.
  pose proof A2 as [_ Hc]. rewrite A4 in Hc. simpl in Hc.
  assert (Ascii.eqb (peekChar l0) "/" = false) as Hp.
  { rewrite peekChar_remaining, A4 by assumption. simpl.
    destruct (Ascii.eqb_spec (hd NUL rst) "/") as [E|]; [|reflexivity].
    rewrite E in Hn. discriminate. }
  exists (charToken SLASH l0), (readChar l0).
  split.
  { unfold NextToken. rewrite NextToken_fuel_eq, A1. cbn [obind].
    rewrite skipComments_id by (unfold atComment; now rewrite Hp, andb_false_r).
    cbn [obind]. unfold switchToken. rewrite Hc, Hp. reflexivity. }
  split; [reflexivity|]. split; [apply readChar_wf|]. split; [exact A3|].
  now rewrite readChar_remaining, A4.
Qed.

Lemma NextToken_hash (l : Lexer) (rst : list ascii) :
  wf l -> remaining l = "#"%char :: rst -> isLetter (hd NUL rst) = true ->
  exists tok l',
    NextToken l = Some (tok, l') /\ Type_ tok = HASH /\
    wf l' /\ input l' = input l /\ remaining l' = rst.
Proof.
  intros Hwf Hr _.
  destruct (NextToken_after_whitespace l [] _ Hwf Hr (Forall_nil _) eq_refl)
    as (l0 & W & I & R & N); [discriminate|].
  pose proof W as [_ Hc]. rewrite R in Hc. simpl in Hc.
  exists (charToken HASH l0), (readChar l0).
  split; [rewrite N; unfold switchToken; rewrite Hc; reflexivity|].
  split; [reflexivity|]. split; [apply readChar_wf|]. split; [exact I|].
  now rewrite readChar_remaining, R.
Qed.

Lemma NextToken_pipe (l : Lexer) (ws rst : list ascii) :
  wf l -> remaining l = ws ++ "|"%char :: rst -> allWhitespace ws ->
  exists tok l',
    NextToken l = Some (tok, l') /\ Type_ tok = PIPE /\
    wf l' /\ input l' = input l /\ remaining l' = rst.
Proof.
  intros Hwf Hr Hws.
  destruct (NextToken_after_whitespace l ws _ Hwf Hr Hws eq_refl)
    as (l0 & W & I & R & N); [discriminate|].
  pose proof W as [_ Hc]. rewrite R in Hc. simpl in Hc.
  exists (charToken PIPE l0), (readChar l0).
  split; [rewrite N; unfold switchToken; rewrite Hc; reflexivity|].
  split; [reflexivity|]. split; [apply readChar_wf|]. split; [exact I|].
  now rewrite readChar_remaining, R.
Qed.

Lemma identLit_letter (x : string) (rst : list ascii) :
  identLit x -> isLetter (hd NUL (chars x ++ rst)) = true.
Proof.
  intros [Hx _]. destruct (isIdentifierText_chars x Hx) as (c & r & E & Hc & _).
  unfold chars. now rewrite E.
Qed.

Lemma identLit_nonempty (x : string) : identLit x -> String.eqb x "" = false.
Proof. intros [Hx _]. destruct x; [discriminate|reflexivity]. Qed.

(** The lexer on a separator of one byte and the identifier after it. *)
Section Separator.

Variable sep : ascii.
Variable ty : TokenType.
Hypothesis ty_not_EOF : ty <> EOF.
Hypothesis sep_not_ident : isIdentChar sep = false.
Hypothesis NextToken_sep :
  forall l rst,
    wf l -> remaining l = sep :: rst -> isLetter (hd NUL rst) = true ->
    exists tok l',
      NextToken l = Some (tok, l') /\ Type_ tok = ty /\
      wf l' /\ input l' = input l /\ remaining l' = rst.

Lemma lexes_opt (o : option (Token * Token)) (l : Lexer) (rst : list ascii) :
  wf l -> optLits o ->
  remaining l = optChars sep o ++ rst ->
  isIdentChar (hd NUL rst) = false ->
  exists o' l',
    lexes l (optTokens o') l' /\
    wf l' /\ input l' = input l /\ remaining l' = rst /\
    optTyped ty o' /\ sameOpt o o'.
Proof.
  intros Hwf Hlit Hr Hend. destruct o as [[a b]|].
  - cbn [optChars optLits] in *. simpl in Hr.
    destruct (NextToken_sep l _ Hwf Hr (identLit_letter _ rst Hlit))
      as (t1 & l1 & N1 & T1 & W1 & I1 & R1).
    destruct Hlit as [Hx Hk].
    destruct (NextToken_identifier l1 [] rst (Literal b) W1 R1
                (Forall_nil _) Hx Hk Hend)
      as (t2 & l2 & N2 & T2 & L2 & W2 & I2 & R2).
    exists (Some (t1, t2)), l2. cbn [optTokens optTyped sameOpt].
    split.
    { econstructor; [exact N1|rewrite T1; exact ty_not_EOF|].
      apply lexes_one; [exact N2|rewrite T2; discriminate]. }
    split; [exact W2|]. split; [congruence|]. split; [exact R2|].
    split; [split; assumption|now symmetry].
  - exists None, l. cbn [optTokens optTyped sameOpt].
    split; [constructor|]. auto.
Qed.

Lemma optChars_hd (o : option (Token * Token)) (rst : list ascii) :
  isIdentChar (hd NUL rst) = false ->
  isIdentChar (hd NUL (optChars sep o ++ rst)) = false.
Proof. destruct o as [[a b]|]; simpl; auto. Qed.

End Separator.

Lemma singleTree_same (s s' : SingleTokens) :
  Literal (st_type s) = Literal (st_type s') ->
  sameOpt (st_name s) (st_name s') ->
  sameOpt (st_fragment s) (st_fragment s') ->
  singleTree s' = singleTree s.
Proof.
  destruct s as [t n f], s' as [t' n' f']. unfold singleTree.
  cbn [st_type st_name st_fragment]. intros Ht Hn Hf.
  destruct n as [[? n]|], n' as [[? n']|]; simpl in Hn; try contradiction;
    destruct f as [[? f]|], f' as [[? f']|]; simpl in Hf; try contradiction;
    congruence.
Qed.

(** The lexer on the text of a subject type. *)
Lemma lexes_single (s : SingleTokens) (l : Lexer) (ws rst : list ascii) :
  wf l -> singleLits s -> allWhitespace ws ->
  remaining l = ws ++ singleChars s ++ rst ->
  isIdentChar (hd NUL rst) = false ->
  exists s' l',
    lexes l (singleTokens s') l' /\
    wf l' /\ input l' = input l /\ remaining l' = rst /\
    singleTyped s' /\ singleTree s' = singleTree s.
Proof.
  intros Hwf (Ht & Hn & Hf) Hws Hr Hend. unfold singleChars in Hr.
  rewrite <- !app_assoc in Hr. destruct Ht as [Hx Hk].
  destruct (NextToken_identifier l ws _ (Literal (st_type s)) Hwf Hr Hws
              Hx Hk)
    as (t & l1 & N1 & T1 & L1 & W1 & I1 & R1).
  { apply optChars_hd; [reflexivity|]. now apply optChars_hd. }
  destruct (lexes_opt "/" SLASH ltac:(discriminate) NextToken_slash
              (st_name s) l1 _ W1 Hn R1)
    as (n' & l2 & X1 & W2 & I2 & R2 & Tn & Sn).
  { now apply optChars_hd. }
  destruct (lexes_opt "#" HASH ltac:(discriminate) NextToken_hash
              (st_fragment s) l2 _ W2 Hf R2 Hend)
    as (f' & l3 & Y1 & W3 & I3 & R3 & Tf & Sf).
  exists {| st_type := t; st_name := n'; st_fragment := f' |}, l3.
  unfold singleTokens, singleTyped. cbn [st_type st_name st_fragment].
  split.
  { econstructor; [exact N1|rewrite T1; discriminate|].
    eapply lexes_app; eassumption. }
  split; [exact W3|]. split; [congruence|]. split; [exact R3|].
  split; [auto|]. apply singleTree_same; cbn [st_type st_name st_fragment];
    auto.
Qed.

Lemma chars_singleTree (s : SingleTokens) :
  singleLits s ->
  chars (RelationExpression_String (singleTree s)) = singleChars s.
Proof.
  destruct s as [t n f]. unfold singleLits, singleTree, singleChars.
  cbn [st_type st_name st_fragment RelationExpression_String].
  intros (_ & Hn & Hf).
  destruct f as [[h f]|]; cbn [optLits optChars] in *.
  - rewrite (identLit_nonempty _ Hf).
    destruct n as [[sl n]|]; cbn [optChars]; rewrite !chars_app;
      rewrite <- ?app_assoc; reflexivity.
  - cbn [String.eqb]. rewrite app_nil_r.
    destruct n as [[sl n]|]; cbn [optChars]; rewrite ?chars_app, ?app_nil_r;
      reflexivity.
Qed.

Lemma chars_unionTree (more : list (Token * SingleTokens)) :
  forall left,
    chars (RelationExpression_String
             (fold_left (fun l os => UnionRelationNode l (singleTree (snd os)))
                more left))
    = chars (RelationExpression_String left)
      ++ flat_map
           (fun os =>
              " "%char :: "|"%char :: " "%char
                :: chars (RelationExpression_String (singleTree (snd os))))
           more.
Proof.
  induction more as [|os more IH]; intros left; simpl.
  - now rewrite app_nil_r.
  - rewrite IH. cbn [RelationExpression_String].
    rewrite !chars_app. change (chars " | ") with [" "; "|"; " "]%char.
    rewrite <- !app_assoc. reflexivity.
Qed.

(** The lexer on the text of the pairs of a pipe and a subject type. *)
Lemma lexes_pipes (more : list (Token * SingleTokens)) :
  forall l,
    wf l ->
    Forall (fun os => singleLits (snd os)) more ->
    remaining l
    = flat_map
        (fun os =>
           " "%char :: "|"%char :: " "%char
             :: chars (RelationExpression_String (singleTree (snd os))))
        more ->
    exists more' l',
      lexes l (flat_map (fun os => fst os :: singleTokens (snd os)) more') l'
      /\ wf l' /\ remaining l' = [] /\
      Forall (fun os => Type_ (fst os) = PIPE /\ singleTyped (snd os)) more' /\
      Forall2 (fun os os' => singleTree (snd os') = singleTree (snd os))
        more more'.
Proof.
  induction more as [|[o s] more IH]; intros l Hwf Hlits Hr.
  - exists [], l. simpl in *.
    exact (conj (lexes_nil l)
             (conj Hwf (conj Hr (conj (Forall_nil _) (Forall2_nil _))))).
  - inversion Hlits as [|? ? Hs Hlits']; subst. cbn [snd] in Hs.
    cbn [flat_map fst snd] in Hr. rewrite (chars_singleTree s Hs) in Hr.
    destruct (NextToken_pipe l [" "%char] _ Hwf Hr)
      as (to & l1 & N1 & T1 & W1 & I1 & R1).
    { repeat constructor. }
    destruct (lexes_single s l1 [" "%char] _ W1 Hs
                ltac:(repeat constructor) R1)
      as (s' & l2 & Y1 & Y2 & Y3 & Y4 & Y5 & Y6).
    { destruct more as [|[o' s''] more']; reflexivity. }
    destruct (IH l2 Y2 Hlits' Y4) as (more' & l' & X1 & X2 & X3 & X4 & X5).
    exists ((to, s') :: more'), l'. cbn [flat_map fst snd].
    split.
    { econstructor; [exact N1|rewrite T1; discriminate|].
      eapply lexes_app; eassumption. }
    split; [exact X2|]. split; [exact X3|].
    split; [constructor; auto|]. constructor; [exact Y6|exact X5].
Qed.

(** The lexer on the text of a relation expression: it returns the
    tokens of an expression with the same tree, then end-of-input. *)
Lemma lexes_union (s0 : SingleTokens) (more : list (Token * SingleTokens))
  (l : Lexer) :
  wf l -> unionLits s0 more ->
  remaining l = chars (RelationExpression_String (unionTree s0 more)) ->
  exists s0' more' l',
    lexes l (unionTokens s0' more') l' /\
    wf l' /\ remaining l' = [] /\
    unionTyped s0' more' /\
    unionTree s0' more' = unionTree s0 more.
Proof.
  intros Hwf [H0 Hmore] Hr. unfold unionTree in Hr.
  rewrite chars_unionTree, (chars_singleTree s0 H0) in Hr.
  destruct (lexes_single s0 l [] _ Hwf H0 (Forall_nil _) Hr)
    as (s0' & l1 & Y1 & Y2 & Y3 & Y4 & Y5 & Y6).
  { destruct more as [|[o' s''] more']; reflexivity. }
  destruct (lexes_pipes more l1 Y2 Hmore Y4)
    as (more' & l' & X1 & X2 & X3 & X4 & X5).
  exists s0', more', l'. unfold unionTokens.
  split; [eapply lexes_app; eassumption|].
  split; [exact X2|]. split; [exact X3|].
  split; [split; assumption|].
  unfold unionTree. rewrite Y6. generalize (singleTree s0) as left.
  clear - X5. induction X5 as [|os os' more more' E _ IH]; intros left; simpl.
  - reflexivity.
  - rewrite E. apply IH.
Qed.

Lemma reparse_union (s0 : SingleTokens) (more : list (Token * SingleTokens)) :
  unionLits s0 more ->
  reparseRelation (unionTree s0 more) = Some (Ok (unionTree s0 more), EOF).
Proof.
  intros Hlits. unfold reparseRelation.
  set (text := RelationExpression_String (unionTree s0 more)).
  destruct (lexes_union s0 more (NewLexer text) (NewLexer_wf text) Hlits
              (NewLexer_remaining text))
    as (s0' & more' & l' & L1 & L2 & L3 & L4 & L5).
  destruct (NextToken_end l' [] L2 L3 (Forall_nil _)) as (eof & l'' & N & E).
  destruct (TokenizeAll_total text) as (body & t & T & _).
  pose proof (TokenizeAll_fuel_lexes _ _ _ L1 eof l'' _ [] _ N E T) as R.
  rewrite app_nil_l in R. rewrite T, R. cbn [obind].
  destruct (parseRelationExpression_yields s0' more'
              (NewParser (unionTokens s0' more' ++ [eof])) [eof]
              eq_refl L4)
    as (p' & P1 & P2 & P3);
    try (unfold stopsAt; simpl; rewrite E; discriminate).
  rewrite P1. cbn [obind fst snd]. rewrite peek_rest, P3. simpl.
  now rewrite E, L5.
Qed.

Lemma optTyped_lits (ty : TokenType) (o : option (Token * Token)) :
  optTyped ty o -> Forall tokenOK (optTokens o) -> optLits o.
Proof.
  destruct o as [[a b]|]; simpl; [|auto]. intros [_ Hb] Hok.
  inversion Hok as [|? ? _ Hok']; subst.
  inversion Hok' as [|? ? Ob _]; subst. now apply tokenOK_identifier.
Qed.

Lemma singleTyped_lits (s : SingleTokens) :
  singleTyped s -> Forall tokenOK (singleTokens s) -> singleLits s.
Proof.
  unfold singleTyped, singleTokens, singleLits. intros (Ht & Hn & Hf) Hok.
  inversion Hok as [|? ? Ot Ho]; subst.
  apply Forall_app in Ho as [On Of].
  split; [now apply tokenOK_identifier|].
  split; eapply optTyped_lits; eauto.
Qed.

Lemma unionTyped_lits (s0 : SingleTokens) (more : list (Token * SingleTokens)) :
  unionTyped s0 more -> Forall tokenOK (unionTokens s0 more) ->
  unionLits s0 more.
Proof.
  unfold unionTyped, unionTokens, unionLits.
  intros [H0 Hm] Hok. apply Forall_app in Hok as [O0 Om].
  split; [now apply singleTyped_lits|].
  clear H0 O0.
  induction Hm as [|[o s] more [Ho Hs] _ IH]; cbn [flat_map fst snd] in *.
  - constructor.
  - inversion Om as [|? ? Oo Om']; subst.
    change (Forall tokenOK
              (singleTokens s
               ++ flat_map (fun os : Token * SingleTokens =>
                              fst os :: singleTokens (snd os)) more)) in Om'.
    apply Forall_app in Om' as [Os Om''].
    constructor; [|now apply IH]. cbn [snd]. now apply singleTyped_lits.
Qed.

(** A property of the relations the grammar stands for holds of the
    relations of every document that parses. *)
Lemma members_relations (P : RelationNode -> Prop) :
  (forall r, relationTyped r -> Forall tokenOK (relationTokens r) ->
             P (relationTree r)) ->
  forall members def,
    Forall P (dn_Relations def) -> Forall memberTyped members ->
    Forall tokenOK (flat_map memberTokens members) ->
    Forall P (dn_Relations (fold_left addMember members def)).
Proof.
  intros HP. induction members as [|m members IH]; intros def Hdef Hty Hok;
    simpl; [exact Hdef|].
  inversion Hty as [|? ? Hm Hty']; subst.
  cbn [flat_map] in Hok. apply Forall_app in Hok as [Hokm Hok'].
  apply IH; auto.
  destruct m as [r|r]; cbn [addMember memberTyped memberTokens
                            dn_Relations] in *; [|exact Hdef].
  apply Forall_app. split; [exact Hdef|]. constructor; [|constructor].
  now apply HP.
Qed.

Lemma parsed_relations (P : RelationNode -> Prop) :
  (forall r, relationTyped r -> Forall tokenOK (relationTokens r) ->
             P (relationTree r)) ->
  forall s defs,
    parseDocument s = Some (Ok defs) ->
    Forall (fun d => Forall P (dn_Relations d)) defs.
Proof.
  intros HP s defs H. unfold parseDocument in H.
  destruct (TokenizeAll_total s) as (body & t & T & Et & _ & Hok).
  rewrite T in H. cbn [obind] in H.
  destruct (ParseDefinitions (NewParser (body ++ [t]))) as [[r p']|] eqn:P0;
    [|discriminate].
  cbn [obind fst] in H. injection H as ->.
  apply ParseDefinitions_exact in P0 as (ds & Hds & Hts & _ & ->).
  assert (Forall tokenOK (flat_map definitionTokens ds)) as Hall.
  { assert (Forall tokenOK (body ++ [t])) as Hbt.
    { apply Forall_app. split; [exact Hok|]. constructor; [|constructor].
      unfold tokenOK. now rewrite Et. }
    rewrite Hts in Hbt. now apply Forall_app in Hbt as [Hbt _]. }
  clear Hts. induction Hds as [|d ds Hd _ IH]; simpl; [constructor|].
  cbn [flat_map] in Hall. apply Forall_app in Hall as [Hd' Hall].
  constructor; [|now apply IH].
  destruct d as [kw firstTok name lbrace members rbrace].
  unfold definitionTyped, definitionTokens, definitionTree in *.
  cbn [dt_keyword dt_first dt_name dt_lbrace dt_members dt_rbrace] in *.
  destruct Hd as (_ & _ & _ & _ & Hm & _).
  inversion Hd' as [|? ? _ Hok1]; subst.
  inversion Hok1 as [|? ? _ Hok2]; subst.
  apply Forall_app in Hok2 as [_ Hok3].
  inversion Hok3 as [|? ? _ Hok4]; subst.
  apply Forall_app in Hok4 as [Hokm _].
  apply (members_relations P HP); auto.
Qed.

(** X21: serializing a relation expression the parser has built and
    parsing the text again as a relation expression gives the same tree,
    and the second parse stops at the end of the text. *)
Theorem relation_expression_round_trip :
  forall (s : string) (defs : list DefinitionNode)
         (d : DefinitionNode) (rel : RelationNode),
    parseDocument s = Some (Ok defs) ->
    In d defs -> In rel (dn_Relations d) ->
    reparseRelation (rn_Expression rel) = Some (Ok (rn_Expression rel), EOF).
Proof.
  intros s defs d rel Hparse Hd Hrel.
  assert (Forall (fun d =>
                    Forall (fun rel =>
                              reparseRelation (rn_Expression rel)
                              = Some (Ok (rn_Expression rel), EOF))
                      (dn_Relations d)) defs) as F.
  { apply (parsed_relations _) with (s := s); [|exact Hparse].
    intros [kw name colon s0 more] (_ & _ & _ & Hu) Hok.
    unfold relationTokens, relationTree in *.
    cbn [rt_keyword rt_name rt_colon rt_first rt_more rn_Expression] in *.
    inversion Hok as [|? ? _ Hok1]; subst.
    inversion Hok1 as [|? ? _ Hok2]; subst.
    inversion Hok2 as [|? ? _ Hok3]; subst.
    apply reparse_union. now apply unionTyped_lits. }
  rewrite Forall_forall in F. specialize (F d Hd).
  rewrite Forall_forall in F. exact (F rel Hrel).
Qed.

(** X21 at the relation of [memberSchema]. *)
Lemma relation_expression_round_trip_witness :
  let expr :=
    UnionRelationNode (SingleRelationNode "a" "")
      (SingleRelationNode "b" "c") in
  reparseRelation expr = Some (Ok expr, EOF).
Proof.
  intros expr.
  assert (exists defs d rel,
             parseDocument memberSchema = Some (Ok defs) /\
             In d defs /\ In rel (dn_Relations d) /\
             rn_Expression rel = expr)
    as (defs & d & rel & E & Hd & Hrel & <-).
  { vm_compute. do 3 eexists.
    split; [reflexivity|]. split; [left; reflexivity|].
    split; [left; reflexivity|reflexivity]. }
  exact (relation_expression_round_trip memberSchema defs d rel E Hd Hrel).
Defined.
